(** * Assignment4: array-backed and node-backed lists, stack and queue adapters

    A shallow embedding of [src/ArrayList.cpp], [src/LinkedList.cpp] and the
    iterator headers, followed by the properties of the specification that
    were checked against it.

    Conventions of the embedding:
    - [size_t] is a 64-bit unsigned integer, carried as a [Z] whose
      arithmetic is wrapped explicitly ([SizeT.add], [SizeT.mul], ...);
      [int] is 32 bits wide and a [size_t] or a pointer difference handed
      to an [int] is reduced by [to_int];
    - the free store is explicit: arrays ([new T[n]]) and list nodes live in
      a finite map from addresses to their contents, and every method
      threads that map;
    - a method returns an [outcome]: a normal return, a thrown exception
      (both together with the store they leave behind), undefined behaviour
      (a wild read or write, a double [delete]), or the exhaustion of the
      fuel that bounds a loop whose length the code does not know;
    - [operator new] always succeeds and the element type never throws. *)

From stdpp Require Import gmap list pretty.

#[local] Open Scope Z_scope.
#[local] Coercion Z.of_nat : nat >-> Z.

(** ** Machine integers *)

Module SizeT.

Definition bits : Z := 64.
Definition modulus : Z := 2 ^ bits.
Definition SIZE_MAX : Z := modulus - 1.

Definition wrap (z : Z) : Z := z mod modulus.
Definition add (a b : Z) : Z := wrap (a + b).
Definition sub (a b : Z) : Z := wrap (a - b).
Definition mul (a b : Z) : Z := wrap (a * b).

(** The values a [size_t] can hold. *)
Definition valid (z : Z) : Prop := 0 ≤ z ≤ SIZE_MAX.

End SizeT.

Definition INT_MAX : Z := 2 ^ 31 - 1.

(** Conversion of a [size_t] or a [ptrdiff_t] to [int] (two's complement,
    32 bits). *)
Definition to_int (z : Z) : Z := (z + 2 ^ 31) mod 2 ^ 32 - 2 ^ 31.

(** ** Outcomes and the store-passing monad *)

Inductive exn : Type :=
| out_of_range (what : string)
| Underflow.

Inductive outcome (S A : Type) : Type :=
| Ret (a : A) (s : S)
| Throw (e : exn) (s : S)
| Undefined
| OutOfFuel.

Arguments Ret {S A} a s.
Arguments Throw {S A} e s.
Arguments Undefined {S A}.
Arguments OutOfFuel {S A}.

Definition M (S A : Type) : Type := S → outcome S A.

Definition ret {S A} (a : A) : M S A := λ s, Ret a s.

Definition bind {S A B} (c : M S A) (k : A → M S B) : M S B :=
  λ s, match c s with
       | Ret a s' => k a s'
       | Throw e s' => Throw e s'
       | Undefined => Undefined
       | OutOfFuel => OutOfFuel
       end.

Definition throw {S A} (e : exn) : M S A := λ s, Throw e s.

Definition undefined {S A} : M S A := λ _, Undefined.

Notation "'do' x <- c ; k" := (bind c (λ x, k))
  (at level 10, x pattern, c at level 100, k at level 200).

(** The store a call leaves behind, when it leaves one. *)
Definition store_of {S A} (o : outcome S A) : option S :=
  match o with
  | Ret _ s | Throw _ s => Some s
  | _ => None
  end.

(** ** ArrayList *)

Module ArrayList.

Section ArrayList.

Context {T : Type} `{EqDecision T}.

(** [value_type()], the default-constructed element. *)
Variable value_type : T.

(** What slot [i] of a buffer holds after [new T[n]] and before it is first
    assigned: the default value for a class type, anything for a scalar. *)
Variable fresh_slot : nat → T.

(** The free store: the arrays obtained from [new T[n]]. *)
Abbreviation store := (gmap positive (list T)).

(** A [T*] into an array: the array and the offset of the pointee. *)
Record ptr : Type := Ptr { p_array : positive; p_offset : Z }.

(** [ArrayList<T>]: [mArray] is the pointer the [ScopedArray] owns. *)
Record ArrayList : Type := mkArrayList {
  mSize : Z;
  mCapacity : Z;
  mArray : positive
}.

(** A [const T&] argument. The object it refers to is either no element of
    an array of the free store (a local, a temporary), and then keeps its
    value [v] during the call, or it is slot [index] of the array at [p],
    as the reference [get(index)] returns is. *)
Inductive const_reference : Type :=
| Val (v : T)
| Slot (p : positive) (index : Z).

(** [new T[n]] *)
Definition new_array (n : Z) : M store positive :=
  λ h, let p := fresh (dom h) in
       Ret p (<[p := fresh_slot <$> seq 0 (Z.to_nat n)]> h).

(** [delete[] p] *)
Definition delete_array (p : positive) : M store unit :=
  λ h, match h !! p with
       | Some _ => Ret () (delete p h)
       | None => Undefined
       end.

(** [p[index]] as an rvalue. *)
Definition read (p : positive) (index : Z) : M store T :=
  λ h, match h !! p with
       | Some buf =>
           if bool_decide (0 ≤ index) then
             match buf !! Z.to_nat index with
             | Some x => Ret x h
             | None => Undefined
             end
           else Undefined
       | None => Undefined
       end.

(** [p[index] = value] *)
Definition write (p : positive) (index : Z) (value : T) : M store unit :=
  λ h, match h !! p with
       | Some buf =>
           if bool_decide (0 ≤ index < length buf) then
             Ret () (<[p := <[Z.to_nat index := value]> buf]> h)
           else Undefined
       | None => Undefined
       end.

(** Reading the object a [const T&] refers to. *)
Definition deref (value : const_reference) : M store T :=
  match value with
  | Val v => ret v
  | Slot p index => read p index
  end.

(** [ScopedArray::get] *)
Definition get_ptr (p : positive) : ptr := Ptr p 0.

(** [T* + n] with [n] a [size_t]. *)
Definition ptr_plus (p : ptr) (n : Z) : ptr := Ptr (p_array p) (p_offset p + n).

(** [ArrayListIterator::operator+(int offset)]: the iterator wraps a [T*];
    the caller's argument has already been converted to [int]. *)
Definition iter_plus (it : ptr) (offset : Z) : ptr :=
  Ptr (p_array it) (p_offset it + offset).

(** [ArrayListIterator::operator-(const ArrayListIterator&)], and the same
    operator of [ArrayListConstIterator]: the difference of the two
    pointers, returned as an [int]. *)
Definition iter_minus (it rhs : ptr) : Z := to_int (p_offset it - p_offset rhs).

(** [std::copy(first, last, d_first)] from a range of array iterators. The
    iterators are tagged random-access, so the library counts the range
    once, [n = last - first] with the iterators' own [operator-], and
    assigns [n] elements when [n] is positive, none otherwise. [first] and
    [last] must point into one array, in this order, and the slots written
    must lie inside the destination. *)
Definition std_copy (first last d_first : ptr) : M store unit :=
  λ h, match h !! p_array first, h !! p_array d_first with
       | Some src, Some dst =>
           let n := Z.max 0 (iter_minus last first) in
           if bool_decide (p_array first = p_array last
                           ∧ p_array first ≠ p_array d_first
                           ∧ 0 ≤ p_offset first ≤ p_offset last
                           ∧ p_offset last ≤ length src
                           ∧ 0 ≤ p_offset d_first
                           ∧ p_offset d_first + n ≤ length dst) then
             Ret () (<[p_array d_first :=
                         take (Z.to_nat (p_offset d_first)) dst
                         ++ take (Z.to_nat n) (drop (Z.to_nat (p_offset first)) src)
                         ++ drop (Z.to_nat (p_offset d_first + n)) dst]> h)
           else Undefined
       | _, _ => Undefined
       end.

(** [std::fill(first, last, value)] *)
Definition std_fill (first last : ptr) (value : T) : M store unit :=
  λ h, match h !! p_array first with
       | Some buf =>
           let n := p_offset last - p_offset first in
           if bool_decide (p_array first = p_array last
                           ∧ 0 ≤ p_offset first ≤ p_offset last
                           ∧ p_offset last ≤ length buf) then
             Ret () (<[p_array first :=
                         take (Z.to_nat (p_offset first)) buf
                         ++ replicate (Z.to_nat n) value
                         ++ drop (Z.to_nat (p_offset last)) buf]> h)
           else Undefined
       | None => Undefined
       end.

(** [std::equal(first1, last1, first2)] *)
Definition std_equal (first1 last1 first2 : ptr) : M store bool :=
  λ h, match h !! p_array first1, h !! p_array first2 with
       | Some a, Some b =>
           let n := p_offset last1 - p_offset first1 in
           if bool_decide (p_array first1 = p_array last1
                           ∧ 0 ≤ p_offset first1 ≤ p_offset last1
                           ∧ p_offset last1 ≤ length a
                           ∧ 0 ≤ p_offset first2
                           ∧ p_offset first2 + n ≤ length b) then
             Ret (bool_decide
                    (take (Z.to_nat n) (drop (Z.to_nat (p_offset first1)) a)
                     = take (Z.to_nat n) (drop (Z.to_nat (p_offset first2)) b))) h
           else Undefined
       | _, _ => Undefined
       end.

Definition begin (this : ArrayList) : ptr := Ptr (mArray this) 0.

Definition end_ (this : ArrayList) : ptr := Ptr (mArray this) (mSize this).

Definition size (this : ArrayList) : Z := mSize this.

Definition isEmpty (this : ArrayList) : bool := bool_decide (mSize this = 0).

(** [ArrayList(size_t size = 0, const_reference value = value_type())] *)
Definition ctor (size : Z) (value : T) : M store ArrayList :=
  let cap := SizeT.mul size 2 in
  do p <- new_array cap;
  let this := mkArrayList size cap p in
  do _ <- std_fill (begin this) (end_ this) value;
  ret this.

Definition default_ctor : M store ArrayList := ctor 0 value_type.

(** [~ArrayList]: the [ScopedArray] member releases the buffer. *)
Definition dtor (this : ArrayList) : M store unit := delete_array (mArray this).

(** [ArrayList(const ArrayList& src)] *)
Definition copy_ctor (src : ArrayList) : M store ArrayList :=
  do p <- new_array (mSize src);
  let this := mkArrayList (mSize src) (mSize src) p in
  do _ <- std_copy (begin src) (end_ src) (begin this);
  ret this.

(** [swap]: the two objects exchange all three members. *)
Definition swap (this other : ArrayList) : ArrayList * ArrayList := (other, this).

(** [operator=]. An [ArrayList] is the only owner of its buffer, so [this]
    and [rhs] are the same object exactly when they hold the same buffer. *)
Definition assign (this rhs : ArrayList) : M store ArrayList :=
  if bool_decide (mArray this ≠ mArray rhs) then
    do copy <- copy_ctor rhs;
    let '(this, copy) := swap this copy in
    do _ <- dtor copy;
    ret this
  else ret this.

Definition rangeCheck (this : ArrayList) (index : Z) : M store unit :=
  if bool_decide (mSize this ≤ index) then throw (out_of_range (pretty index))
  else ret ().

(** [add(const_reference value)]. [value] is read by the assignment
    [mArray[mSize] = value], after the block that grows the buffer has
    ended and [temp], which holds the old buffer since the swap, has
    released it. *)
Definition add (this : ArrayList) (value : const_reference) : M store ArrayList :=
  do this <-
    (if bool_decide (mCapacity this ≤ mSize this) then
       let n := SizeT.add (SizeT.mul 2 (mSize this)) 2 in
       do temp <- new_array n;
       do _ <- std_copy (begin this) (end_ this) (get_ptr temp);
       (* mArray.swap(temp); temp dies at the end of the block *)
       do _ <- delete_array (mArray this);
       ret (mkArrayList (mSize this) n temp)
     else ret this);
  do v <- deref value;
  do _ <- write (mArray this) (mSize this) v;
  ret (mkArrayList (SizeT.add (mSize this) 1) (mCapacity this) (mArray this)).

(** [add(size_t index, const_reference value)]. [value] is read by
    [temp[index] = value] while the old buffer is allocated and as the call
    found it, so it is passed as the value it refers to. *)
Definition add_at (this : ArrayList) (index : Z) (value : T) : M store ArrayList :=
  let newSize := SizeT.add (Z.max index (mSize this)) 1 in
  let newCap := SizeT.mul 2 newSize in
  do temp <- new_array newCap;
  do _ <- std_copy (begin this)
            (iter_plus (begin this) (to_int (Z.min index (mSize this))))
            (get_ptr temp);
  do _ <-
    (if bool_decide (index < mSize this) then
       std_copy (iter_plus (begin this) (to_int index)) (end_ this)
         (ptr_plus (ptr_plus (get_ptr temp) index) 1)
     else
       std_fill (ptr_plus (get_ptr temp) (mSize this))
         (ptr_plus (get_ptr temp) index) value_type);
  do _ <- write temp index value;
  (* mArray.swap(temp); the old buffer dies with temp *)
  do _ <- delete_array (mArray this);
  ret (mkArrayList newSize newCap temp).

(** [clear] *)
Definition clear (this : ArrayList) : M store ArrayList :=
  do empty <- default_ctor;
  let '(this, empty) := swap this empty in
  do _ <- dtor empty;
  ret this.

(** [get(size_t index)] *)
Definition get (this : ArrayList) (index : Z) : M store T :=
  do _ <- rangeCheck this index;
  read (mArray this) index.

(** [operator==] *)
Definition equal (this rhs : ArrayList) : M store bool :=
  if bool_decide (mSize this = mSize rhs) then
    std_equal (begin this) (end_ this) (begin rhs)
  else ret false.

(** [operator!=] *)
Definition not_equal (this rhs : ArrayList) : M store bool :=
  do b <- equal this rhs;
  ret (negb b).

(** [operator[](size_t index)]: no range check. *)
Definition subscript (this : ArrayList) (index : Z) : M store T :=
  read (mArray this) index.

(** [remove(size_t index)] *)
Definition remove (this : ArrayList) (index : Z) : M store (T * ArrayList) :=
  do _ <- rangeCheck this index;
  do result <- read (mArray this) index;
  do this <-
    (if bool_decide (index < SizeT.sub (mSize this) 1) then
       do temp <- new_array (mCapacity this);
       do _ <- std_copy (begin this) (iter_plus (begin this) (to_int index))
                 (get_ptr temp);
       do _ <- std_copy (iter_plus (iter_plus (begin this) (to_int index)) 1)
                 (end_ this) (ptr_plus (get_ptr temp) index);
       (* mArray.swap(temp); the old buffer dies with temp *)
       do _ <- delete_array (mArray this);
       ret (mkArrayList (mSize this) (mCapacity this) temp)
     else ret this);
  ret (result, mkArrayList (SizeT.sub (mSize this) 1) (mCapacity this) (mArray this)).

(** [set(size_t index, const_reference value)]. [value] is read before
    anything is written, so it is passed as the value it refers to. *)
Definition set (this : ArrayList) (index : Z) (value : T) : M store ArrayList :=
  do _ <- rangeCheck this index;
  do _ <- write (mArray this) index value;
  ret this.

(** *** Sequences of mutating calls *)

Inductive mutation : Type :=
| CallAdd (value : const_reference)
| CallAddAt (index : Z) (value : T)
| CallSet (index : Z) (value : T)
| CallRemove (index : Z)
| CallClear.

Definition mutate (m : mutation) (this : ArrayList) : M store ArrayList :=
  match m with
  | CallAdd value => add this value
  | CallAddAt index value => add_at this index value
  | CallSet index value => set this index value
  | CallRemove index => do r <- remove this index; ret (snd r)
  | CallClear => clear this
  end.

Fixpoint mutate_all (ms : list mutation) (this : ArrayList) : M store ArrayList :=
  match ms with
  | [] => ret this
  | m :: ms => do this <- mutate m this; mutate_all ms this
  end.

(** *** Representation *)

(** [this] holds the elements [xs] in store [h]: its buffer starts with [xs],
    has [mCapacity] slots, and [mSize] counts [xs]. *)
Definition repr (h : store) (this : ArrayList) (xs : list T) : Prop :=
  ∃ rest : list T,
    h !! mArray this = Some (xs ++ rest)
    ∧ mSize this = length xs
    ∧ mCapacity this = length (xs ++ rest)
    ∧ mCapacity this ≤ SizeT.SIZE_MAX.

(** The reference [value] does not point into the array at [p]. *)
Definition outside (p : positive) (value : const_reference) : Prop :=
  match value with
  | Val _ => True
  | Slot q _ => q ≠ p
  end.

(** The logical contents read off the store. *)
Definition contents (h : store) (this : ArrayList) : list T :=
  take (Z.to_nat (mSize this)) (default [] (h !! mArray this)).

(** Value semantics of two sequences [a] and [b] in store [h]: both hold
    [xs], [b == a], and whatever mutating calls are made on one of them, the
    other still holds [xs]. *)
Definition independent (h : store) (a b : ArrayList) (xs : list T) : Prop :=
  repr h a xs ∧ repr h b xs
  ∧ equal b a h = Ret true h
  ∧ (∀ ms h', store_of (mutate_all ms b h) = Some h' → repr h' a xs)
  ∧ (∀ ms h', store_of (mutate_all ms a h) = Some h' → repr h' b xs).

End ArrayList.

End ArrayList.

(** ** LinkedList *)

Module LinkedList.

Section LinkedList.

Context {T : Type} `{EqDecision T}.

(** [value_type()], the default-constructed element. *)
Variable value_type : T.

(** [LinkedListNode<T>]; the links are addresses of nodes. *)
Record LinkedListNode : Type := mkNode {
  mItem : T;
  mPrev : positive;
  mNext : positive
}.

(** The free store: the nodes obtained from [new LinkedListNode<T>]. *)
Abbreviation store := (gmap positive LinkedListNode).

(** [LinkedList<T>]: [mTail] is the pointer the [auto_ptr] owns, the address
    of the dummy node. *)
Record LinkedList : Type := mkLinkedList {
  mSize : Z;
  mTail : positive
}.

(** [*p] *)
Definition load (p : positive) : M store LinkedListNode :=
  λ h, match h !! p with
       | Some n => Ret n h
       | None => Undefined
       end.

(** [p->mNext = q] *)
Definition set_mNext (p q : positive) : M store unit :=
  λ h, match h !! p with
       | Some n => Ret () (<[p := mkNode (mItem n) (mPrev n) q]> h)
       | None => Undefined
       end.

(** [p->mPrev = q] *)
Definition set_mPrev (p q : positive) : M store unit :=
  λ h, match h !! p with
       | Some n => Ret () (<[p := mkNode (mItem n) q (mNext n)]> h)
       | None => Undefined
       end.

(** The storage of a fresh node, members initialised as given. *)
Definition alloc (n : positive → LinkedListNode) : M store positive :=
  λ h, let p := fresh (dom h) in Ret p (<[p := n p]> h).

(** The storage of a node goes back to the free store. *)
Definition free (p : positive) : M store unit :=
  λ h, match h !! p with
       | Some _ => Ret () (delete p h)
       | None => Undefined
       end.

(** [LinkedListNode<T>::link] *)
Definition link (first second : positive) : M store unit :=
  do _ <- set_mNext first second;
  set_mPrev second first.

(** [new LinkedListNode<T>(item)]: both links point to the node itself. *)
Definition new_node_self (item : T) : M store positive :=
  alloc (λ this, mkNode item this this).

(** [new LinkedListNode<T>(item, prev, next)] *)
Definition new_node (item : T) (prev next : positive) : M store positive :=
  do this <- alloc (λ _, mkNode item prev next);
  do n <- load this;
  do _ <- link (mPrev n) this;
  do n <- load this;
  do _ <- link this (mNext n);
  ret this.

(** [delete p]: the destructor unlinks the node from its neighbours. *)
Definition delete_node (p : positive) : M store unit :=
  do n <- load p;
  do _ <- link (mPrev n) (mNext n);
  free p.

(** [LinkedList()] *)
Definition default_ctor : M store LinkedList :=
  do tail <- new_node_self value_type;
  ret (mkLinkedList 0 tail).

(** [begin()]: an iterator is the address of a node. *)
Definition begin (this : LinkedList) : M store positive :=
  do tail <- load (mTail this);
  ret (mNext tail).

Definition end_ (this : LinkedList) : positive := mTail this.

Definition size (this : LinkedList) : Z := mSize this.

Definition isEmpty (this : LinkedList) : bool := bool_decide (mSize this = 0).

(** [++iter], [n] times: [std::advance(iter, n)] on a forward iterator. *)
Fixpoint advance_loop (n : nat) (iter : positive) : M store positive :=
  match n with
  | O => ret iter
  | S n => do node <- load iter; advance_loop n (mNext node)
  end.

Definition advance (iter : positive) (n : Z) : M store positive :=
  advance_loop (Z.to_nat n) iter.

Definition rangeCheck (this : LinkedList) (index : Z) : M store unit :=
  if bool_decide (mSize this ≤ index) then throw (out_of_range (pretty index))
  else ret ().

(** [removeNode(iterator iter)] *)
Definition removeNode (this : LinkedList) (iter : positive) : M store LinkedList :=
  do _ <- delete_node iter;
  ret (mkLinkedList (SizeT.sub (mSize this) 1) (mTail this)).

(** [while (!isEmpty()) removeNode(begin());] *)
Fixpoint dtor_loop (fuel : nat) (this : LinkedList) : M store LinkedList :=
  if isEmpty this then ret this
  else match fuel with
       | O => λ _, OutOfFuel
       | S fuel =>
           do iter <- begin this;
           do this <- removeNode this iter;
           dtor_loop fuel this
       end.

(** [~LinkedList]: every pass of the loop decrements [mSize], so [mSize]
    passes are all it can make; the [auto_ptr] then deletes the dummy. *)
Definition dtor (this : LinkedList) : M store unit :=
  do this <- dtor_loop (Z.to_nat (mSize this)) this;
  delete_node (mTail this).

(** [add(const_reference value)] *)
Definition add (this : LinkedList) (value : T) : M store LinkedList :=
  do tail <- load (mTail this);
  do _ <- new_node value (mPrev tail) (mTail this);
  ret (mkLinkedList (SizeT.add (mSize this) 1) (mTail this)).

(** [for (size_t i = size(); i < index; ++i) temp.add(value_type());] *)
Fixpoint fill_loop (fuel : nat) (i index : Z) (temp : LinkedList)
  : M store LinkedList :=
  if bool_decide (i < index) then
    match fuel with
    | O => λ _, OutOfFuel
    | S fuel =>
        do temp <- add temp value_type;
        fill_loop fuel (SizeT.add i 1) index temp
    end
  else ret temp.

(** [add(size_t index, const_reference value)]; the loop of the second
    branch runs fewer than [index] times. *)
Definition add_at (this : LinkedList) (index : Z) (value : T) : M store LinkedList :=
  if bool_decide (index < mSize this) then
    do iter <- begin this;
    do iter <- advance iter index;
    do node <- load iter;
    do _ <- new_node value (mPrev node) iter;
    ret (mkLinkedList (SizeT.add (mSize this) 1) (mTail this))
  else
    do temp <- default_ctor;
    do temp <- fill_loop (Z.to_nat index) (size this) index temp;
    do temp <- add temp value;
    do tail <- load (mTail this);
    let curLast := mPrev tail in
    do ttail <- load (mTail temp);
    let tempFirst := mNext ttail in
    let tempLast := mPrev ttail in
    do _ <- link curLast tempFirst;
    do _ <- link tempLast (mTail this);
    do _ <- link (mTail temp) (mTail temp);
    let this := mkLinkedList (SizeT.add index 1) (mTail this) in
    let temp := mkLinkedList 0 (mTail temp) in
    do _ <- dtor temp;
    ret this.

(** [swap]: the two objects exchange the dummy node and the size. *)
Definition swap (this other : LinkedList) : LinkedList * LinkedList := (other, this).

(** [clear] *)
Definition clear (this : LinkedList) : M store LinkedList :=
  do empty <- default_ctor;
  let '(this, empty) := swap this empty in
  do _ <- dtor empty;
  ret this.

(** [get(size_t index)] *)
Definition get (this : LinkedList) (index : Z) : M store T :=
  do _ <- rangeCheck this index;
  do iter <- begin this;
  do iter <- advance iter index;
  do node <- load iter;
  ret (mItem node).

(** [remove(size_t index)] *)
Definition remove (this : LinkedList) (index : Z) : M store LinkedList :=
  do _ <- rangeCheck this index;
  do iter <- begin this;
  do iter <- advance iter index;
  removeNode this iter.

(** [set(size_t index, const_reference value)] *)
Definition set (this : LinkedList) (index : Z) (value : T) : M store LinkedList :=
  do _ <- rangeCheck this index;
  do iter <- begin this;
  do iter <- advance iter index;
  let oldNode := iter in
  do old <- load oldNode;
  do _ <- new_node value (mPrev old) (mNext old);
  do _ <- link oldNode oldNode;
  do _ <- delete_node oldNode;
  ret this.

(** [for (iter = src.begin(); iter != src.end(); ++iter) temp.add( *iter );]
    The code does not bound this walk; [fuel] does. *)
Fixpoint copy_loop (fuel : nat) (iter last : positive) (temp : LinkedList)
  : M store LinkedList :=
  if bool_decide (iter ≠ last) then
    match fuel with
    | O => λ _, OutOfFuel
    | S fuel =>
        do node <- load iter;
        do temp <- add temp (mItem node);
        do node <- load iter;
        copy_loop fuel (mNext node) last temp
    end
  else ret temp.

(** [LinkedList(const LinkedList& src)] *)
Definition copy_ctor (fuel : nat) (src : LinkedList) : M store LinkedList :=
  do tail <- new_node_self value_type;
  let this := mkLinkedList 0 tail in
  do temp <- default_ctor;
  do first <- begin src;
  do temp <- copy_loop fuel first (end_ src) temp;
  let '(this, temp) := swap this temp in
  do _ <- dtor temp;
  ret this.

(** [operator=]. A [LinkedList] is the only owner of its dummy node, so
    [this] and [rhs] are the same object exactly when they hold the same
    dummy. *)
Definition assign (fuel : nat) (this rhs : LinkedList) : M store LinkedList :=
  if bool_decide (mTail this ≠ mTail rhs) then
    do copy <- copy_ctor fuel rhs;
    let '(this, copy) := swap this copy in
    do _ <- dtor copy;
    ret this
  else ret this.

(** [std::equal(first1, last1, first2)] over node iterators. *)
Fixpoint std_equal (fuel : nat) (first1 last1 first2 : positive) : M store bool :=
  if bool_decide (first1 ≠ last1) then
    match fuel with
    | O => λ _, OutOfFuel
    | S fuel =>
        do n1 <- load first1;
        do n2 <- load first2;
        if bool_decide (mItem n1 = mItem n2) then
          std_equal fuel (mNext n1) last1 (mNext n2)
        else ret false
    end
  else ret true.

(** [operator==] *)
Definition equal (fuel : nat) (this rhs : LinkedList) : M store bool :=
  if bool_decide (mSize this = mSize rhs) then
    do first1 <- begin this;
    do first2 <- begin rhs;
    std_equal fuel first1 (end_ this) first2
  else ret false.

(** [operator!=] *)
Definition not_equal (fuel : nat) (this rhs : LinkedList) : M store bool :=
  do b <- equal fuel this rhs;
  ret (negb b).

(** [LinkedListIterator::operator++()] *)
Definition iter_incr (iter : positive) : M store positive :=
  do node <- load iter;
  ret (mNext node).

(** [LinkedListIterator::operator*()] as an rvalue. *)
Definition iter_deref (iter : positive) : M store T :=
  do node <- load iter;
  ret (mItem node).

(** *** Sequences of mutating calls *)

Inductive mutation : Type :=
| CallAdd (value : T)
| CallAddAt (index : Z) (value : T)
| CallSet (index : Z) (value : T)
| CallRemove (index : Z)
| CallClear.

Definition mutate (m : mutation) (this : LinkedList) : M store LinkedList :=
  match m with
  | CallAdd value => add this value
  | CallAddAt index value => add_at this index value
  | CallSet index value => set this index value
  | CallRemove index => remove this index
  | CallClear => clear this
  end.

Fixpoint mutate_all (ms : list mutation) (this : LinkedList) : M store LinkedList :=
  match ms with
  | [] => ret this
  | m :: ms => do this <- mutate m this; mutate_all ms this
  end.

(** The index a call passes, 0 when it passes none. *)
Definition call_index (m : mutation) : Z :=
  match m with
  | CallAddAt index _ | CallSet index _ | CallRemove index => index
  | _ => 0
  end.

(** *** Representation *)

Definition next (h : store) (p : positive) : option positive := mNext <$> h !! p.
Definition prev (h : store) (p : positive) : option positive := mPrev <$> h !! p.
Definition item (h : store) (p : positive) : option T := mItem <$> h !! p.

(** [a] and [b] are neighbours: [a->mNext == b] and [b->mPrev == a]. *)
Definition linked (h : store) (a b : positive) : Prop :=
  next h a = Some b ∧ prev h b = Some a.

(** Every two consecutive nodes of [l] are neighbours. *)
Fixpoint chain (h : store) (l : list positive) : Prop :=
  match l with
  | a :: (b :: _) as l' => linked h a b ∧ chain h l'
  | _ => True
  end.

(** The circular chain of [this]: from the dummy through the nodes [ps], in
    order, and back to the dummy; the nodes are pairwise distinct and carry
    the elements [xs]. *)
Definition ring (h : store) (tail : positive) (ps : list positive) (xs : list T)
  : Prop :=
  NoDup (tail :: ps)
  ∧ chain h (tail :: ps ++ [tail])
  ∧ Forall2 (λ p x, item h p = Some x) ps xs.

(** [this] holds the elements [xs] in the nodes [ps] of store [h]. *)
Definition repr (h : store) (this : LinkedList) (ps : list positive) (xs : list T)
  : Prop :=
  ring h (mTail this) ps xs
  ∧ mSize this = length ps
  ∧ mSize this ≤ SizeT.SIZE_MAX.

(** What survives any sequence of calls, also those that throw half way
    ([remove] and [clear] lower [mSize] only after the nodes are gone): the
    chain is intact and [mSize] does not exceed the number of nodes. *)
Definition owns (h : store) (this : LinkedList) (ps : list positive)
    (xs : list T) : Prop :=
  ring h (mTail this) ps xs
  ∧ 0 ≤ mSize this ≤ length ps
  ∧ mSize this ≤ SizeT.SIZE_MAX.

(** What a call may change: nothing that was allocated outside [l]. *)
Definition unchanged_outside (l : list positive) (h h' : store) : Prop :=
  ∀ x, x ∉ l → is_Some (h !! x) → h' !! x = h !! x.

(** The indices of a call are [size_t] values. *)
Definition valid_call (m : mutation) : Prop :=
  match m with
  | CallAddAt index _ | CallSet index _ | CallRemove index => SizeT.valid index
  | _ => True
  end.

(** What a call does to the store, [F] being the nodes (dummy included) of
    the sequence before it and [F'] those after it: a cell outside both is
    as it was, allocated or not; a node that left the sequence has been
    freed; a node that joined it was not allocated before. *)
Definition handover (F F' : list positive) (h h' : store) : Prop :=
  (∀ x, x ∉ F → x ∉ F' → h' !! x = h !! x)
  ∧ (∀ x, x ∈ F → x ∉ F' → h' !! x = None)
  ∧ (∀ x, x ∈ F' → x ∉ F → h !! x = None).

(** Value semantics of two sequences [a] and [b] in store [h]: both hold
    [xs], [b == a], and whatever mutating calls are made on one of them, the
    other still holds [xs] in the nodes it had. *)
Definition independent (fuel : nat) (h : store)
    (a : LinkedList) (ps : list positive)
    (b : LinkedList) (qs : list positive) (xs : list T) : Prop :=
  repr h a ps xs ∧ repr h b qs xs
  ∧ equal fuel b a h = Ret true h
  ∧ (∀ ms h', Forall valid_call ms →
       store_of (mutate_all ms b h) = Some h' → repr h' a ps xs)
  ∧ (∀ ms h', Forall valid_call ms →
       store_of (mutate_all ms a h) = Some h' → repr h' b qs xs).

End LinkedList.

End LinkedList.

(** ** The same call on either sequence *)

(** The call of [ArrayList<T>] that a call of [LinkedList<T>] corresponds
    to: both classes have the same public methods. The value passed to
    [add] is an object of the caller's, no element of the array sequence. *)
Definition same_call {T} (m : LinkedList.mutation (T:=T))
  : ArrayList.mutation (T:=T) :=
  match m with
  | LinkedList.CallAdd value => ArrayList.CallAdd (ArrayList.Val value)
  | LinkedList.CallAddAt index value => ArrayList.CallAddAt index value
  | LinkedList.CallSet index value => ArrayList.CallSet index value
  | LinkedList.CallRemove index => ArrayList.CallRemove index
  | LinkedList.CallClear => ArrayList.CallClear
  end.

(** ** ScopedArray *)

Module ScopedArray.

Section ScopedArray.

Context {T : Type}.

Abbreviation store := (gmap positive (list T)).

(** [ScopedArray<T>]: [mPtr] is null or the address of an array. *)
Record ScopedArray : Type := mkScopedArray { mPtr : option positive }.

(** [delete[] ptr]; deleting the null pointer does nothing. *)
Definition delete_ptr (ptr : option positive) : M store unit :=
  match ptr with
  | Some p => ArrayList.delete_array p
  | None => ret ()
  end.

(** [explicit ScopedArray(T* ptr = 0)] *)
Definition ctor (ptr : option positive) : ScopedArray := mkScopedArray ptr.

(** [~ScopedArray] *)
Definition dtor (this : ScopedArray) : M store unit := delete_ptr (mPtr this).

(** [release]: the pointer held, and [this] holding null. *)
Definition release (this : ScopedArray) : option positive * ScopedArray :=
  (mPtr this, mkScopedArray None).

(** [reset(T* ptr = 0)] *)
Definition reset (this : ScopedArray) (ptr : option positive)
  : M store ScopedArray :=
  do _ <- delete_ptr (mPtr this);
  ret (mkScopedArray ptr).

(** [operator[](size_t index)] as an rvalue. *)
Definition subscript (this : ScopedArray) (index : Z) : M store T :=
  match mPtr this with
  | Some p => ArrayList.read p index
  | None => undefined
  end.

(** [operator bool] *)
Definition to_bool (this : ScopedArray) : bool := bool_decide (is_Some (mPtr this)).

Definition get (this : ScopedArray) : option positive := mPtr this.

(** [swap]: the two objects exchange their pointers. *)
Definition swap (this other : ScopedArray) : ScopedArray * ScopedArray :=
  (other, this).

End ScopedArray.

End ScopedArray.

(** ** Stack and queue adapters *)

Module Adapters.

(** What [StackAdapter.h] and [QueueAdapter.h] ask of their [Container]
    parameter: default construction (of the member [mContainer]), [add],
    [get], [remove] and [size]. *)
Class Container (C S V : Type) : Type := {
  c_ctor : M S C;
  c_add : C → V → M S C;
  c_get : C → Z → M S V;
  c_remove : C → Z → M S C;
  c_size : C → Z
}.

#[global] Arguments c_ctor {C S V} _.
#[global] Arguments c_add {C S V} _ _ _.
#[global] Arguments c_get {C S V} _ _ _.
#[global] Arguments c_remove {C S V} _ _ _.
#[global] Arguments c_size {C S V} _ _.

(** [ArrayList<T>] as a container; [remove]'s returned element is dropped,
    as the adapters call it for its effect, and the value handed to [add]
    is an object of the adapter's caller, no element of the container. *)
Definition ArrayList_Container {T : Type} (value_type : T) (fresh_slot : nat → T)
  : Container (ArrayList.ArrayList) (gmap positive (list T)) T :=
  {| c_ctor := ArrayList.default_ctor value_type fresh_slot;
     c_add := λ this value, ArrayList.add fresh_slot this (ArrayList.Val value);
     c_get := ArrayList.get;
     c_remove := λ this index,
       do r <- ArrayList.remove fresh_slot this index; ret (snd r);
     c_size := ArrayList.size |}.

(** [LinkedList<T>] as a container. *)
Definition LinkedList_Container {T : Type} (value_type : T)
  : Container (LinkedList.LinkedList)
      (gmap positive (LinkedList.LinkedListNode (T:=T))) T :=
  {| c_ctor := LinkedList.default_ctor value_type;
     c_add := LinkedList.add;
     c_get := LinkedList.get;
     c_remove := LinkedList.remove;
     c_size := LinkedList.size |}.

Section Adapters.
Context {C S V : Type} (K : Container C S V).

(** Modelled from the spec: [src/StackBase.cpp] and [src/QueueBase.cpp] are
    not among the sources; [isEmpty] passes through to [size]. *)
Definition isEmpty (mContainer : C) : bool :=
  bool_decide (c_size K mContainer = 0).

(** Modelled from the spec: [src/StackAdapter.cpp] is not among the sources;
    [size] passes through to the container. *)
Definition stack_size (mContainer : C) : Z := c_size K mContainer.

(** Modelled from the spec: [push] appends at the tail. *)
Definition push (mContainer : C) (value : V) : M S C :=
  c_add K mContainer value.

(** Modelled from the spec: [pop] checks emptiness itself, raising
    [Underflow], and otherwise removes at index [size() - 1]. *)
Definition pop (mContainer : C) : M S C :=
  if isEmpty mContainer then throw Underflow
  else c_remove K mContainer (SizeT.sub (c_size K mContainer) 1).

(** Modelled from the spec: [top] checks emptiness itself, raising
    [Underflow], and otherwise reads index [size() - 1]. *)
Definition top (mContainer : C) : M S V :=
  if isEmpty mContainer then throw Underflow
  else c_get K mContainer (SizeT.sub (c_size K mContainer) 1).

(** Modelled from the spec: [src/QueueAdapter.cpp] is not among the sources;
    [size] passes through to the container. *)
Definition queue_size (mContainer : C) : Z := c_size K mContainer.

(** Modelled from the spec: [enqueue] appends at the tail. *)
Definition enqueue (mContainer : C) (value : V) : M S C :=
  c_add K mContainer value.

(** Modelled from the spec: [dequeue] checks emptiness itself, raising
    [Underflow], and otherwise removes at index 0. *)
Definition dequeue (mContainer : C) : M S C :=
  if isEmpty mContainer then throw Underflow
  else c_remove K mContainer 0.

(** Modelled from the spec: [front] checks emptiness itself, raising
    [Underflow], and otherwise reads index 0. *)
Definition front (mContainer : C) : M S V :=
  if isEmpty mContainer then throw Underflow
  else c_get K mContainer 0.

(** A client pushing the values [vs] one after the other. *)
Fixpoint push_all (vs : list V) (stack : C) : M S C :=
  match vs with
  | [] => ret stack
  | v :: vs' => do stack' <- push stack v; push_all vs' stack'
  end.

(** A client popping [n] times, reading [top] before each [pop] ([pop]
    returns nothing); the values read, in the order they were read. *)
Fixpoint pop_all (n : nat) (stack : C) : M S (list V * C) :=
  match n with
  | O => ret ([], stack)
  | Datatypes.S n' =>
      do v <- top stack;
      do stack' <- pop stack;
      do r <- pop_all n' stack';
      ret (v :: fst r, snd r)
  end.

(** What the adapters rely on, stated for a container whose state denotes a
    list: [holds s c xs] reads "in store [s], [c] holds [xs]"; [max_len]
    bounds the sizes for which [add] is guaranteed not to wrap. *)
Class Lawful : Type := {
  holds : S → C → list V → Prop;
  max_len : Z;
  law_size : ∀ s c xs,
    holds s c xs → c_size K c = length xs ∧ length xs ≤ SizeT.SIZE_MAX;
  law_add : ∀ s c xs v,
    holds s c xs → length xs < max_len →
    ∃ c' s', c_add K c v s = Ret c' s' ∧ holds s' c' (xs ++ [v]);
  law_get_last : ∀ s c xs x,
    holds s c (xs ++ [x]) → c_get K c (length xs) s = Ret x s;
  law_remove_last : ∀ s c xs x,
    holds s c (xs ++ [x]) →
    ∃ c' s', c_remove K c (length xs) s = Ret c' s' ∧ holds s' c' xs
}.

End Adapters.

End Adapters.
(** * Concrete states *)

Module Examples.

(** The element type is [int]; a slot of [new int[n]] that has not been
    assigned reads 7, a value that none of the sequences below stores. *)
Definition fresh_slot : nat → Z := λ _, 7.

(** An empty [ArrayList<int>] as the default constructor leaves it. *)
Definition empty_array : ArrayList.ArrayList := ArrayList.mkArrayList 0 0 1.
Definition empty_array_store : gmap positive (list Z) := {[1%positive := []]}.

(** [ArrayList<int>] holding [10, 20, 30, 40] in a buffer of 4 slots. *)
Definition full_array : ArrayList.ArrayList := ArrayList.mkArrayList 4 4 1.
Definition full_array_store : gmap positive (list Z) :=
  {[1%positive := [10; 20; 30; 40]]}.

(** [ArrayList<int>] holding [10, 20, 30] in a buffer of 6 slots. *)
Definition roomy_array : ArrayList.ArrayList := ArrayList.mkArrayList 3 6 1.
Definition roomy_array_store : gmap positive (list Z) :=
  {[1%positive := [10; 20; 30; 7; 7; 7]]}.

(** [ArrayList<int>] holding 2^31 + 2 zeros in a buffer of as many slots. *)
Definition huge_size : Z := 2147483650.
Definition huge_array : ArrayList.ArrayList :=
  ArrayList.mkArrayList huge_size huge_size 1.
Definition huge_array_store : gmap positive (list Z) :=
  {[1%positive := replicate (Z.to_nat huge_size) 0]}.

(** [ArrayList<int>] holding 2^32 - 2 zeros in a buffer of as many slots:
    the container of an array-backed stack onto which as many zeros have
    been pushed (the capacities add(value) goes through from capacity 0 are
    2, 6, 14, ..., each 2 * size + 2). *)
Definition brim_size : Z := 4294967294.
Definition brim_array : ArrayList.ArrayList :=
  ArrayList.mkArrayList brim_size brim_size 1.
Definition brim_array_store : gmap positive (list Z) :=
  {[1%positive := replicate (Z.to_nat brim_size) 0]}.

(** [LinkedList<int>] holding [1, 2, 3]: the dummy node at address 1, the
    elements in the nodes at 2, 3 and 4. *)
Definition list_123 : LinkedList.LinkedList := LinkedList.mkLinkedList 3 1.
Definition list_123_store : gmap positive (LinkedList.LinkedListNode (T:=Z)) :=
  {[1%positive := LinkedList.mkNode 0 4%positive 2%positive;
    2%positive := LinkedList.mkNode 1 1%positive 3%positive;
    3%positive := LinkedList.mkNode 2 2%positive 4%positive;
    4%positive := LinkedList.mkNode 3 3%positive 1%positive]}.

(** An empty [LinkedList<int>]: the dummy node alone, linked to itself. *)
Definition empty_list : LinkedList.LinkedList := LinkedList.mkLinkedList 0 1.
Definition empty_list_store : gmap positive (LinkedList.LinkedListNode (T:=Z)) :=
  {[1%positive := LinkedList.mkNode 0 1%positive 1%positive]}.

End Examples.

(** * Properties of the embedding *)

(** ** The monad and the machine integers *)

Lemma bind_Ret {S A B} (c : M S A) (k : A → M S B) s a s' :
  c s = Ret a s' → bind c k s = k a s'.
Proof. unfold bind. by intros ->. Qed.

Lemma bind_Ret_inv {S A B} (c : M S A) (k : A → M S B) s b s' :
  bind c k s = Ret b s' → ∃ a s1, c s = Ret a s1 ∧ k a s1 = Ret b s'.
Proof. unfold bind. destruct (c s) as [a s1|e s1| |]; [eauto|done..]. Qed.

Lemma ret_inv {S A} (a b : A) (s s' : S) : ret a s = Ret b s' → a = b ∧ s = s'.
Proof. unfold ret. by intros [= -> ->]. Qed.

Lemma wrap_small z : 0 ≤ z ≤ SizeT.SIZE_MAX → SizeT.wrap z = z.
Proof.
  unfold SizeT.wrap, SizeT.SIZE_MAX. intros. apply Z.mod_small. lia.
Qed.

Lemma to_int_small z : 0 ≤ z ≤ INT_MAX → to_int z = z.
Proof.
  unfold to_int, INT_MAX. intros. rewrite Z.mod_small; lia.
Qed.

(** A non-negative count is never enlarged by its conversion to [int]. *)
Lemma to_int_le z : 0 ≤ z → to_int z ≤ z.
Proof.
  intros Hz. unfold to_int.
  pose proof (Z.mod_le (z + 2 ^ 31) (2 ^ 32)). lia.
Qed.

(** ** Lists *)

Lemma insert_drop_head {A} (l : list A) (n : nat) v :
  (n < length l)%nat → <[0%nat := v]> (drop n l) = v :: drop (S n) l.
Proof.
  intros Hn. destruct (drop n l) eqn:E.
  - apply (f_equal length) in E. rewrite length_drop in E. simpl in E. lia.
  - simpl. f_equal. replace (S n) with (n + 1)%nat by lia.
    by rewrite <- drop_drop, E.
Qed.

Lemma elem_of_drop_inv {A} (x : A) k l : x ∈ drop k l → x ∈ l.
Proof. intros. rewrite <- (take_drop k l). apply elem_of_app. by right. Qed.

Lemma elem_of_take_inv {A} (x : A) k l : x ∈ take k l → x ∈ l.
Proof. intros. rewrite <- (take_drop k l). apply elem_of_app. by left. Qed.

(** ** ArrayList *)

Module ArrayListFacts.

Create Rewrite HintDb len.
#[local] Hint Rewrite @length_app @length_drop @length_take @length_fmap
  @length_seq @length_replicate @length_insert @length_cons @length_nil : len.

Ltac len := autorewrite with len in *; lia.

Section facts.
Context {T : Type} `{EqDecision T}.
Variable value_type : T.
Variable fresh_slot : nat → T.
Import ArrayList.
Abbreviation store := (gmap positive (list T)).
Abbreviation add := (add fresh_slot).
Abbreviation remove := (remove fresh_slot).
Abbreviation add_at := (add_at value_type fresh_slot).
Abbreviation ctor := (ctor fresh_slot).
Abbreviation copy_ctor := (copy_ctor fresh_slot).
Abbreviation assign := (assign fresh_slot).
Abbreviation clear := (clear value_type fresh_slot).
Abbreviation default_ctor := (default_ctor value_type fresh_slot).
Implicit Types (h : store) (this : ArrayList) (xs : list T).

Lemma al_fresh_lookup h : h !! fresh (dom h) = None.
Proof. apply not_elem_of_dom, is_fresh. Qed.

Lemma al_fresh_ne h p : is_Some (h !! p) → fresh (dom h) ≠ p.
Proof. intros Hp E. rewrite <- E, al_fresh_lookup in Hp. by destruct Hp. Qed.

Lemma al_new_array_eq n h :
  new_array fresh_slot n h
  = Ret (fresh (dom h)) (<[fresh (dom h) := fresh_slot <$> seq 0 (Z.to_nat n)]> h).
Proof. reflexivity. Qed.

Lemma al_delete_array_eq p h buf :
  h !! p = Some buf → delete_array p h = Ret () (delete p h).
Proof. unfold delete_array. by intros ->. Qed.

Lemma al_read_eq p (i : nat) h buf x :
  h !! p = Some buf → buf !! i = Some x → read p i h = Ret x h.
Proof.
  unfold read. intros -> Hx. rewrite bool_decide_eq_true_2 by lia.
  by rewrite Nat2Z.id, Hx.
Qed.

Lemma al_write_eq p (i : nat) v h buf :
  h !! p = Some buf → (i < length buf)%nat →
  write p i v h = Ret () (<[p := <[i := v]> buf]> h).
Proof.
  unfold write. intros -> Hi. rewrite bool_decide_eq_true_2 by lia.
  by rewrite Nat2Z.id.
Qed.

Lemma al_std_copy_eq p (a b : nat) q (d : nat) h src dst :
  h !! p = Some src → h !! q = Some dst → p ≠ q →
  (a ≤ b ≤ length src)%nat → (d + (b - a) ≤ length dst)%nat →
  (b - a)%nat ≤ INT_MAX →
  std_copy (Ptr p a) (Ptr p b) (Ptr q d) h
  = Ret () (<[q := take d dst ++ take (b - a) (drop a src) ++ drop (d + (b - a)) dst]> h).
Proof.
  unfold std_copy, iter_minus. cbn [p_array p_offset].
  intros -> -> Hpq Hab Hd Hint.
  rewrite (to_int_small (Z.of_nat b - Z.of_nat a)) by lia.
  rewrite bool_decide_eq_true_2 by (repeat split; try done; lia).
  repeat f_equal; lia.
Qed.

(** A range whose length the [int] count turns into no positive number
    is not copied at all. *)
Lemma al_std_copy_none p (a b : nat) q (d : nat) h src dst :
  h !! p = Some src → h !! q = Some dst → p ≠ q →
  (a ≤ b ≤ length src)%nat → (d ≤ length dst)%nat →
  to_int (Z.of_nat b - Z.of_nat a) ≤ 0 →
  std_copy (Ptr p a) (Ptr p b) (Ptr q d) h = Ret () h.
Proof.
  unfold std_copy, iter_minus. cbn [p_array p_offset].
  intros Hsrc Hdst Hpq Hab Hd Hint. rewrite Hsrc, Hdst.
  rewrite Z.max_l by done.
  rewrite bool_decide_eq_true_2 by (repeat split; try done; lia).
  f_equal. rewrite Z.add_0_r. change (Z.to_nat 0) with 0%nat.
  rewrite take_0, app_nil_l, Nat2Z.id, take_drop. by apply insert_id.
Qed.

Lemma al_deref_Some p index v h :
  deref (Slot p index) h = Ret v h → is_Some (h !! p).
Proof. unfold deref, read. by destruct (h !! p). Qed.

(** A reference reads the same in every store that agrees on the array it
    points into. *)
Lemma al_deref_frame value v h h' :
  deref value h = Ret v h →
  (∀ p index, value = Slot p index → h' !! p = h !! p) →
  deref value h' = Ret v h'.
Proof.
  destruct value as [w|p index]; cbn [deref]; intros Hread Hsame.
  - unfold ret in *. by simplify_eq.
  - unfold read in *. rewrite (Hsame p index eq_refl).
    destruct (h !! p); [|done].
    case_bool_decide; [|done].
    destruct (_ !! Z.to_nat index); by simplify_eq.
Qed.

Lemma al_std_fill_eq p (a b : nat) v h buf :
  h !! p = Some buf → (a ≤ b ≤ length buf)%nat →
  std_fill (Ptr p a) (Ptr p b) v h
  = Ret () (<[p := take a buf ++ replicate (b - a) v ++ drop b buf]> h).
Proof.
  unfold std_fill. cbn [p_array p_offset]. intros -> Hab.
  rewrite bool_decide_eq_true_2 by (repeat split; try done; lia).
  repeat f_equal; lia.
Qed.

Lemma al_length_fresh_buf (n : nat) : length (fresh_slot <$> seq 0 n) = n.
Proof. by rewrite length_fmap, length_seq. Qed.

Lemma al_repr_lookup h this xs :
  repr h this xs → ∃ rest, h !! mArray this = Some (xs ++ rest).
Proof. intros (rest & ? & _). eauto. Qed.

Lemma al_add_spec h this xs value v :
  repr h this xs →
  deref value h = Ret v h →
  (mSize this = mCapacity this →
   2 * mSize this + 2 ≤ SizeT.SIZE_MAX ∧ mSize this ≤ INT_MAX
   ∧ outside (mArray this) value) →
  ∃ this' h',
    add this value h = Ret this' h'
    ∧ repr h' this' (xs ++ [v])
    ∧ mSize this' = mSize this + 1
    ∧ (mSize this < mCapacity this →
       mCapacity this' = mCapacity this ∧ mArray this' = mArray this)
    ∧ (mSize this = mCapacity this →
       mCapacity this' = 2 * mSize this + 2
       ∧ h !! mArray this' = None ∧ h' !! mArray this = None)
    ∧ (∀ p, p ≠ mArray this → is_Some (h !! p) → h' !! p = h !! p).
Proof.
  intros (rest & Hbuf & Hsz & Hcap & Hmax) Hread Hfit.
  destruct this as [sz cap arr]; cbn [mSize mCapacity mArray] in *. subst sz cap.
  rewrite length_app in *.
  unfold add. cbn [mSize mCapacity mArray].
  case_bool_decide as Hfull.
  - assert (rest = []) as -> by (destruct rest; [done|simpl in *; lia]).
    rewrite app_nil_r in *. simpl in Hfit.
    destruct Hfit as (Hfit' & Hint & Hout); [lia|].
    assert (Hn : SizeT.add (SizeT.mul 2 (length xs)) 2 = Z.of_nat (2 * length xs + 2)).
    { unfold SizeT.add, SizeT.mul. rewrite (wrap_small (2 * _)) by lia.
      rewrite wrap_small by lia. lia. }
    rewrite Hn. clear Hn.
    set (p := fresh (dom h)).
    assert (Hp : h !! p = None) by apply al_fresh_lookup.
    assert (Hne : p ≠ arr) by (apply al_fresh_ne; eauto).
    erewrite bind_Ret; last first.
    { erewrite bind_Ret by apply al_new_array_eq. fold p.
      rewrite Nat2Z.id.
      erewrite bind_Ret; last first.
      { unfold begin, end_, get_ptr. cbn [mSize mArray].
        apply (al_std_copy_eq arr 0 (length xs) p 0).
        - by rewrite lookup_insert_ne.
        - by rewrite lookup_insert_eq.
        - done.
        - lia.
        - rewrite al_length_fresh_buf. lia.
        - lia. }
      erewrite bind_Ret; last first.
      { eapply al_delete_array_eq. rewrite lookup_insert_ne by done.
        by rewrite lookup_insert_ne. }
      reflexivity. }
    cbn [mSize mCapacity mArray].
    rewrite insert_insert_eq.
    rewrite take_0, drop_0, Nat.sub_0_r, Nat.add_0_l, app_nil_l.
    rewrite take_ge by lia.
    erewrite bind_Ret; last first.
    { apply (al_deref_frame value v h); [done|].
      intros q index ->. cbn [outside] in Hout.
      assert (p ≠ q) by (apply al_fresh_ne; by eapply al_deref_Some).
      rewrite lookup_delete_ne by done. by rewrite lookup_insert_ne. }
    erewrite bind_Ret; last first.
    { eapply al_write_eq.
      - rewrite lookup_delete_ne by done. apply lookup_insert_eq.
      - rewrite length_app, length_drop, al_length_fresh_buf. lia. }
    eexists _, _. split; [reflexivity|].
    cbn [mSize mCapacity mArray].
    assert (Hadd : SizeT.add (length xs) 1 = length xs + 1).
    { unfold SizeT.add. rewrite wrap_small; unfold SizeT.SIZE_MAX in *; lia. }
    split_and!.
    + exists (drop (S (length xs)) (fresh_slot <$> seq 0 (2 * length xs + 2))).
      cbn [mSize mCapacity mArray]. split_and!.
      * rewrite lookup_insert_eq. f_equal.
        rewrite insert_app_r_alt, Nat.sub_diag by lia.
        rewrite <- (assoc_L (++)). f_equal.
        rewrite insert_drop_head; [done|]. rewrite al_length_fresh_buf. lia.
      * rewrite Hadd. len.
      * len.
      * len.
    + apply Hadd.
    + lia.
    + intros _. split_and!; [lia|done|].
      rewrite lookup_insert_ne by done. apply lookup_delete_eq.
    + intros q Hq Hsome. assert (p ≠ q) by (by apply al_fresh_ne).
      rewrite lookup_insert_ne by done.
      rewrite lookup_delete_ne by done.
      by rewrite lookup_insert_ne.
  - erewrite bind_Ret by reflexivity. cbn [mSize mCapacity mArray].
    destruct rest as [|r rest]; [simpl in *; rewrite app_nil_r, Nat.add_0_r in *; lia|].
    erewrite bind_Ret by exact Hread.
    erewrite bind_Ret; last first.
    { eapply al_write_eq; [done|]. rewrite length_app. simpl. lia. }
    assert (Hadd : SizeT.add (length xs) 1 = length xs + 1).
    { unfold SizeT.add. rewrite wrap_small; unfold SizeT.SIZE_MAX in *; simpl in *; lia. }
    eexists _, _. split; [reflexivity|].
    cbn [mSize mCapacity mArray]. split_and!.
    + exists rest. cbn [mSize mCapacity mArray]. split_and!.
      * rewrite lookup_insert_eq. f_equal.
        rewrite insert_app_r_alt, Nat.sub_diag by lia. simpl.
        by rewrite <- (assoc_L (++)).
      * rewrite Hadd. len.
      * len.
      * len.
    + apply Hadd.
    + done.
    + intros. simpl in *. lia.
    + intros q Hq _. by rewrite lookup_insert_ne.
Qed.


Lemma al_rangeCheck_lt this index h :
  index < mSize this → rangeCheck this index h = Ret () h.
Proof. intros. unfold rangeCheck. by rewrite bool_decide_eq_false_2 by lia. Qed.

Lemma al_rangeCheck_ge this index h :
  mSize this ≤ index →
  rangeCheck this index h = Throw (out_of_range (pretty index)) h.
Proof. intros. unfold rangeCheck. by rewrite bool_decide_eq_true_2 by lia. Qed.

Lemma al_get_spec h this xs (i : nat) x :
  repr h this xs → xs !! i = Some x → get this i h = Ret x h.
Proof.
  intros (rest & Hbuf & Hsz & Hcap & Hmax) Hx.
  pose proof (lookup_lt_Some _ _ _ Hx).
  unfold get. erewrite bind_Ret by (apply al_rangeCheck_lt; lia).
  eapply al_read_eq; [done|]. by apply lookup_app_l_Some.
Qed.

Lemma al_set_spec h this xs (i : nat) v :
  repr h this xs → (i < length xs)%nat →
  ∃ h', set this i v h = Ret this h'
        ∧ repr h' this (<[i := v]> xs)
        ∧ (∀ p, p ≠ mArray this → h' !! p = h !! p).
Proof.
  intros (rest & Hbuf & Hsz & Hcap & Hmax) Hi.
  unfold set. erewrite bind_Ret by (apply al_rangeCheck_lt; lia).
  erewrite bind_Ret by (eapply al_write_eq; [done|len]).
  eexists. split; [reflexivity|]. split.
  - exists rest. rewrite lookup_insert_eq, insert_app_l by done.
    split_and!; [done|len|len|done].
  - intros p Hp. by rewrite lookup_insert_ne.
Qed.

Lemma al_sub_1 (n : nat) : (0 < n)%nat → n ≤ SizeT.SIZE_MAX → SizeT.sub n 1 = (n - 1)%nat.
Proof. intros. unfold SizeT.sub. rewrite wrap_small; lia. Qed.

Lemma al_remove_spec h this xs (i : nat) x :
  repr h this xs → xs !! i = Some x →
  (i + 1 < length xs → i ≤ INT_MAX ∧ length xs - (i + 1) ≤ INT_MAX) →
  ∃ this' h',
    remove this i h = Ret (x, this') h'
    ∧ repr h' this' (delete i xs)
    ∧ mSize this' = mSize this - 1
    ∧ mCapacity this' = mCapacity this
    ∧ (∀ p, p ≠ mArray this → is_Some (h !! p) → h' !! p = h !! p).
Proof.
  intros (rest & Hbuf & Hsz & Hcap & Hmax) Hx Hint.
  pose proof (lookup_lt_Some _ _ _ Hx) as Hi.
  destruct this as [sz cap arr]; simpl in *. subst sz cap.
  assert (Hsub : SizeT.sub (length xs) 1 = (length xs - 1)%nat) by (apply al_sub_1; len).
  unfold remove. erewrite bind_Ret by (apply al_rangeCheck_lt; simpl; lia).
  cbn [mSize mCapacity mArray].
  erewrite bind_Ret by (eapply al_read_eq; [done|by apply lookup_app_l_Some]).
  rewrite Hsub. case_bool_decide as Hlast.
  - set (p := fresh (dom h)).
    assert (Hp : h !! p = None) by apply al_fresh_lookup.
    assert (Hne : p ≠ arr) by (apply al_fresh_ne; eauto).
    erewrite bind_Ret; last first.
    { erewrite bind_Ret by apply al_new_array_eq. fold p.
      rewrite Nat2Z.id.
      unfold begin, end_, get_ptr, iter_plus, ptr_plus. cbn [mSize mArray p_array p_offset].
      rewrite to_int_small by lia. rewrite !Z.add_0_l.
      replace (Z.of_nat i + 1) with (Z.of_nat (i + 1)) by lia.
      erewrite bind_Ret; last first.
      { apply (al_std_copy_eq arr 0 i p 0).
        - by rewrite lookup_insert_ne.
        - by rewrite lookup_insert_eq.
        - done.
        - len.
        - len.
        - lia. }
      rewrite insert_insert_eq.
      erewrite bind_Ret; last first.
      { apply (al_std_copy_eq arr (i + 1) (length xs) p i).
        - by rewrite lookup_insert_ne.
        - by rewrite lookup_insert_eq.
        - done.
        - len.
        - len.
        - lia. }
      rewrite insert_insert_eq.
      erewrite bind_Ret; last first.
      { eapply al_delete_array_eq. by rewrite lookup_insert_ne. }
      reflexivity. }
    eexists _, _. split; [reflexivity|]. cbn [mSize mCapacity mArray].
    split_and!.
    + exists (drop (length xs - 1) (fresh_slot <$> seq 0 (length (xs ++ rest)))).
      cbn [mSize mCapacity mArray].
      split_and!.
      * rewrite lookup_delete_ne, lookup_insert_eq by done. f_equal.
        rewrite take_0, drop_0, Nat.sub_0_r, Nat.add_0_l, app_nil_l.
        rewrite (take_app_le xs) by lia.
        rewrite (take_app_length' (take i xs)) by len.
        rewrite drop_app_le by lia.
        rewrite (take_app_length' (drop (i + 1) xs)) by len.
        rewrite (drop_app_ge (take i xs)) by len.
        rewrite drop_drop.
        rewrite delete_take_drop, <- (assoc_L (++)).
        repeat f_equal; len.
      * rewrite length_delete by eauto. lia.
      * rewrite !length_app, length_delete by eauto. len.
      * done.
    + rewrite Hsub. lia.
    + done.
    + intros q Hq Hsome. assert (p ≠ q) by (by apply al_fresh_ne).
      rewrite lookup_delete_ne by done. by rewrite lookup_insert_ne.
  - erewrite bind_Ret by reflexivity.
    eexists _, _. split; [reflexivity|]. cbn [mSize mCapacity mArray].
    assert (i = (length xs - 1)%nat) as -> by lia.
    split_and!.
    + exists (x :: rest). cbn [mSize mCapacity mArray]. split_and!.
      * rewrite Hbuf. f_equal.
        rewrite delete_take_drop.
        rewrite (drop_ge xs) by lia. rewrite app_nil_r.
        rewrite <- (take_drop (length xs - 1) xs) at 1.
        rewrite <- (assoc_L (++)). f_equal.
        erewrite drop_S by done. rewrite drop_ge by lia. done.
      * rewrite length_delete by eauto. lia.
      * rewrite !length_app, length_delete by eauto. len.
      * done.
    + rewrite Hsub. lia.
    + done.
    + done.
Qed.


Lemma al_add_frame this v h this' h' q :
  add this v h = Ret this' h' → q ≠ mArray this → is_Some (h !! q) →
  h' !! q = h !! q ∧ q ≠ mArray this'.
Proof.
  intros Hrun Hq Hsome.
  assert (fresh (dom h) ≠ q) by (by apply al_fresh_ne).
  unfold add, deref, bind, ret, new_array, delete_array, write, read, std_copy
    in Hrun.
  cbn [mSize mCapacity mArray begin end_ get_ptr p_array p_offset] in Hrun.
  repeat (case_match; simplify_eq/=); split; try done.
  all: by rewrite ?lookup_insert_ne, ?lookup_delete_ne, ?lookup_insert_ne by done.
Qed.


Lemma al_add_at_spec h this xs (i : nat) v :
  repr h this xs →
  2 * (Z.max i (mSize this) + 1) ≤ SizeT.SIZE_MAX →
  Z.min i (mSize this) ≤ INT_MAX →
  (i < mSize this → mSize this - i ≤ INT_MAX) →
  ∃ this' h',
    add_at this i v h = Ret this' h'
    ∧ repr h' this'
        (take i xs ++ replicate (i - length xs) value_type ++ v :: drop i xs)
    ∧ mSize this' = Z.max i (mSize this) + 1
    ∧ mCapacity this' = 2 * (Z.max i (mSize this) + 1)
    ∧ h !! mArray this' = None
    ∧ h' !! mArray this = None
    ∧ (∀ p, p ≠ mArray this → is_Some (h !! p) → h' !! p = h !! p).
Proof.
  intros (rest & Hbuf & Hsz & Hcap & Hmax) Hfit Hint Hint'.
  destruct this as [sz cap arr]; simpl in *. subst sz cap.
  set (p := fresh (dom h)).
  assert (Hp : h !! p = None) by apply al_fresh_lookup.
  assert (Hne : p ≠ arr) by (apply al_fresh_ne; eauto).
  set (m := (i `max` length xs)%nat).
  assert (Hm : Z.max i (length xs) = m) by lia.
  assert (HnewSize : SizeT.add (Z.max i (length xs)) 1 = (m + 1)%nat).
  { unfold SizeT.add. rewrite wrap_small; lia. }
  assert (HnewCap : SizeT.mul 2 (m + 1)%nat = (2 * (m + 1))%nat).
  { unfold SizeT.mul. rewrite wrap_small; lia. }
  unfold add_at. cbn [mSize mCapacity mArray].
  rewrite HnewSize, HnewCap.
  erewrite bind_Ret by apply al_new_array_eq. fold p. rewrite Nat2Z.id.
  set (J := fresh_slot <$> seq 0 (2 * (m + 1))).
  assert (HJ : length J = (2 * (m + 1))%nat) by apply al_length_fresh_buf.
  unfold begin, end_, get_ptr, iter_plus, ptr_plus.
  cbn [mSize mArray p_array p_offset].
  rewrite !to_int_small by lia. rewrite !Z.add_0_l.
  destruct (decide (i < length xs)%nat) as [Hlt|Hge].
  - replace (Z.min i (length xs)) with (Z.of_nat i) by lia.
    erewrite bind_Ret; last first.
    { apply (al_std_copy_eq arr 0 i p 0).
      - by rewrite lookup_insert_ne.
      - by rewrite lookup_insert_eq.
      - done.
      - len.
      - len.
      - lia. }
    rewrite insert_insert_eq.
    rewrite take_0, drop_0, Nat.sub_0_r, Nat.add_0_l, app_nil_l.
    rewrite (take_app_le xs) by lia.
    rewrite bool_decide_eq_true_2 by lia.
    rewrite to_int_small by lia.
    replace (Z.of_nat i + 1) with (Z.of_nat (i + 1)) by lia.
    erewrite bind_Ret; last first.
    { apply (al_std_copy_eq arr i (length xs) p (i + 1)).
      - by rewrite lookup_insert_ne.
      - by rewrite lookup_insert_eq.
      - done.
      - len.
      - len.
      - lia. }
    rewrite insert_insert_eq.
    rewrite (take_app_add' (take i xs)) by len.
    rewrite (drop_app_le xs) by lia.
    rewrite (take_app_length' (drop i xs)) by len.
    rewrite (drop_app_ge (take i xs)) by len.
    rewrite drop_drop.
    erewrite bind_Ret; last first.
    { eapply al_write_eq; [apply lookup_insert_eq|]. len. }
    rewrite insert_insert_eq.
    erewrite bind_Ret; last first.
    { eapply al_delete_array_eq. by rewrite lookup_insert_ne. }
    eexists _, _. split; [reflexivity|]. cbn [mSize mCapacity mArray].
    split_and!; try lia.
    + exists (drop (length xs + 1) J). cbn [mSize mCapacity mArray].
      replace (i - length xs)%nat with 0%nat by lia. simpl.
      split_and!.
      * rewrite lookup_delete_ne, lookup_insert_eq by done. f_equal.
        rewrite <- (assoc_L (++) (take i xs)).
        rewrite insert_app_r_alt by len.
        rewrite <- (assoc_L (++)). f_equal.
        rewrite length_take_le, Nat.sub_diag by lia.
        destruct (take 1 (drop i J)) as [|j [|]] eqn:E;
          (apply (f_equal length) in E; rewrite length_take, length_drop in E;
           cbn [length] in E; try lia).
        simpl. do 3 f_equal. lia.
      * len.
      * len.
      * len.
    + done.
    + rewrite lookup_delete_eq. done.
    + intros q Hq Hsome. assert (p ≠ q) by (by apply al_fresh_ne).
      rewrite lookup_delete_ne by done. by rewrite lookup_insert_ne.
  - replace (Z.min i (length xs)) with (Z.of_nat (length xs)) by lia.
    erewrite bind_Ret; last first.
    { apply (al_std_copy_eq arr 0 (length xs) p 0).
      - by rewrite lookup_insert_ne.
      - by rewrite lookup_insert_eq.
      - done.
      - len.
      - len.
      - lia. }
    rewrite insert_insert_eq.
    rewrite take_0, drop_0, Nat.sub_0_r, Nat.add_0_l, app_nil_l.
    rewrite (take_app_length' xs) by lia.
    rewrite bool_decide_eq_false_2 by lia.
    erewrite bind_Ret; last first.
    { apply (al_std_fill_eq p (length xs) i); [apply lookup_insert_eq|]. len. }
    rewrite insert_insert_eq.
    rewrite (take_app_length' xs) by lia.
    rewrite (drop_app_ge xs) by lia. rewrite drop_drop.
    erewrite bind_Ret; last first.
    { eapply al_write_eq; [apply lookup_insert_eq|]. len. }
    rewrite insert_insert_eq.
    erewrite bind_Ret; last first.
    { eapply al_delete_array_eq. by rewrite lookup_insert_ne. }
    eexists _, _. split; [reflexivity|]. cbn [mSize mCapacity mArray].
    split_and!; try lia.
    + exists (drop (i + 1) J). cbn [mSize mCapacity mArray].
      rewrite (take_ge xs), (drop_ge xs) by lia.
      split_and!.
      * rewrite lookup_delete_ne, lookup_insert_eq by done. f_equal.
        rewrite insert_app_r_alt by len.
        rewrite insert_app_r_alt by len.
        rewrite <- !(assoc_L (++)). do 2 f_equal.
        replace (i - length xs - length (replicate (i - length xs) value_type))%nat
          with 0%nat by len.
        rewrite insert_drop_head by len. simpl. repeat f_equal. len.
      * len.
      * len.
      * len.
    + done.
    + rewrite lookup_delete_eq. done.
    + intros q Hq Hsome. assert (p ≠ q) by (by apply al_fresh_ne).
      rewrite lookup_delete_ne by done. by rewrite lookup_insert_ne.
Qed.


Lemma al_mul_2 (n : nat) : 2 * n ≤ SizeT.SIZE_MAX → SizeT.mul n 2 = (2 * n)%nat.
Proof. intros. unfold SizeT.mul. rewrite wrap_small; lia. Qed.

Lemma al_ctor_spec h (n : nat) v :
  2 * n ≤ SizeT.SIZE_MAX →
  ∃ this h',
    ctor n v h = Ret this h'
    ∧ repr h' this (replicate n v)
    ∧ mSize this = n
    ∧ mCapacity this = 2 * n
    ∧ h !! mArray this = None
    ∧ (∀ p, is_Some (h !! p) → h' !! p = h !! p).
Proof.
  intros Hfit. unfold ctor. rewrite al_mul_2 by done.
  erewrite bind_Ret by apply al_new_array_eq. rewrite Nat2Z.id.
  set (p := fresh (dom h)).
  assert (Hp : h !! p = None) by apply al_fresh_lookup.
  set (J := fresh_slot <$> seq 0 (2 * n)).
  assert (HJ : length J = (2 * n)%nat) by apply al_length_fresh_buf.
  unfold begin, end_. cbn [mSize mArray].
  erewrite bind_Ret; last first.
  { apply (al_std_fill_eq p 0 n); [apply lookup_insert_eq|]. lia. }
  rewrite insert_insert_eq, take_0, app_nil_l, Nat.sub_0_r.
  eexists _, _. split; [reflexivity|]. cbn [mSize mCapacity mArray].
  split_and!; try done; try lia.
  - exists (drop n J). cbn [mSize mCapacity mArray].
    rewrite lookup_insert_eq. split_and!; [done|len|len|len].
  - intros q Hq. assert (p ≠ q) by (by apply al_fresh_ne).
    by rewrite lookup_insert_ne.
Qed.

Lemma al_copy_ctor_spec h src xs :
  repr h src xs →
  length xs ≤ INT_MAX →
  ∃ this h',
    copy_ctor src h = Ret this h'
    ∧ repr h' this xs
    ∧ mSize this = mSize src
    ∧ mCapacity this = mSize src
    ∧ h !! mArray this = None
    ∧ (∀ p, is_Some (h !! p) → h' !! p = h !! p).
Proof.
  intros (rest & Hbuf & Hsz & Hcap & Hmax) Hint.
  unfold copy_ctor. erewrite bind_Ret by apply al_new_array_eq.
  set (p := fresh (dom h)).
  assert (Hp : h !! p = None) by apply al_fresh_lookup.
  assert (Hne : mArray src ≠ p) by (apply not_eq_sym, al_fresh_ne; eauto).
  rewrite Hsz, Nat2Z.id.
  unfold begin, end_. cbn [mSize mArray]. rewrite Hsz.
  erewrite bind_Ret; last first.
  { apply (al_std_copy_eq (mArray src) 0 (length xs) p 0).
    - by rewrite lookup_insert_ne.
    - by rewrite lookup_insert_eq.
    - done.
    - len.
    - len.
    - lia. }
  rewrite insert_insert_eq, take_0, drop_0, app_nil_l, Nat.sub_0_r, Nat.add_0_l.
  rewrite take_app_length, drop_ge, app_nil_r by len.
  eexists _, _. split; [reflexivity|]. cbn [mSize mCapacity mArray].
  split_and!; try done.
  - exists []. cbn [mSize mCapacity mArray].
    rewrite lookup_insert_eq, app_nil_r. split_and!; [done|done|done|len].
  - intros q Hq. assert (p ≠ q) by (by apply al_fresh_ne).
    by rewrite lookup_insert_ne.
Qed.

Lemma al_repr_frame h h' this xs :
  repr h this xs → h' !! mArray this = h !! mArray this → repr h' this xs.
Proof. intros (rest & Hbuf & ?) Heq. exists rest. by rewrite Heq. Qed.

Lemma al_equal_spec h this rhs xs ys :
  repr h this xs → repr h rhs ys →
  equal this rhs h = Ret (bool_decide (xs = ys)) h.
Proof.
  intros (r1 & Hb1 & Hs1 & Hc1 & _) (r2 & Hb2 & Hs2 & Hc2 & _).
  unfold equal. case_bool_decide as Hsz.
  - unfold std_equal, begin, end_. cbn [p_array p_offset].
    rewrite Hb1, Hb2.
    rewrite bool_decide_eq_true_2 by (split_and!; try done; len).
    rewrite Z.sub_0_r, Hs1, Nat2Z.id. change (Z.to_nat 0) with 0%nat.
    rewrite !drop_0, take_app_length.
    rewrite take_app_length' by lia.
    done.
  - unfold ret. f_equal. rewrite bool_decide_eq_false_2; [done|].
    intros ->. lia.
Qed.

Lemma al_assign_spec h this rhs ys xs :
  repr h this ys → repr h rhs xs → mArray this ≠ mArray rhs →
  length xs ≤ INT_MAX →
  ∃ this' h',
    assign this rhs h = Ret this' h'
    ∧ repr h' this' xs
    ∧ repr h' rhs xs
    ∧ mCapacity this' = mSize rhs
    ∧ mArray this' ≠ mArray rhs
    ∧ h' !! mArray this = None
    ∧ (∀ p, p ≠ mArray this → is_Some (h !! p) → h' !! p = h !! p).
Proof.
  intros Hthis Hrhs Hne Hint.
  destruct (al_copy_ctor_spec h rhs xs Hrhs Hint)
    as (copy & h1 & Hrun & Hcopy & Hsz & Hcap & Hfresh & Hframe).
  destruct (al_repr_lookup _ _ _ Hthis) as (r1 & Hb1).
  destruct (al_repr_lookup _ _ _ Hrhs) as (r2 & Hb2).
  assert (mArray copy ≠ mArray this) by (intros E; rewrite E, Hb1 in Hfresh; done).
  assert (mArray copy ≠ mArray rhs) by (intros E; rewrite E, Hb2 in Hfresh; done).
  unfold assign. rewrite bool_decide_eq_true_2 by done.
  erewrite bind_Ret by done. unfold swap.
  erewrite bind_Ret; last first.
  { eapply al_delete_array_eq. rewrite Hframe by eauto. done. }
  eexists _, _. split; [reflexivity|].
  split_and!; try done.
  - eapply al_repr_frame; [done|]. by rewrite lookup_delete_ne.
  - eapply al_repr_frame; [done|]. rewrite lookup_delete_ne by done.
    apply Hframe. eauto.
  - apply lookup_delete_eq.
  - intros q Hq Hsome. rewrite lookup_delete_ne by done. by apply Hframe.
Qed.

Lemma al_clear_spec h this :
  is_Some (h !! mArray this) →
  ∃ this' h0,
    default_ctor h = Ret this' h0
    ∧ clear this h = Ret this' (delete (mArray this) h0)
    ∧ repr (delete (mArray this) h0) this' []
    ∧ mSize this' = 0
    ∧ mCapacity this' = 0
    ∧ mArray this' ≠ mArray this
    ∧ (∀ p, p ≠ mArray this → is_Some (h !! p) → delete (mArray this) h0 !! p = h !! p).
Proof.
  intros [buf Hbuf].
  destruct (al_ctor_spec h 0 value_type)
    as (empty & h0 & Hrun & Hrepr & Hsz & Hcap & Hfresh & Hframe); [done|].
  assert (mArray empty ≠ mArray this) by (intros E; rewrite E, Hbuf in Hfresh; done).
  exists empty, h0. split; [done|].
  unfold clear. erewrite bind_Ret by done. unfold swap.
  erewrite bind_Ret; last first.
  { eapply al_delete_array_eq. rewrite Hframe by eauto. done. }
  split_and!; try done.
  - eapply al_repr_frame; [done|]. by rewrite lookup_delete_ne.
  - intros q Hq Hsome. rewrite lookup_delete_ne by done. by apply Hframe.
Qed.


Ltac run_in H :=
  unfold mutate, add, add_at, set, remove, clear, get, default_ctor, ctor, dtor,
    swap, rangeCheck, deref, bind, ret, throw, new_array, delete_array, write,
    read, std_copy, std_fill in H;
  cbn [mSize mCapacity mArray begin end_ get_ptr iter_plus ptr_plus
       p_array p_offset] in H;
  repeat (case_match; simplify_eq/=).

Lemma al_mutate_frame m this h this' h' q :
  mutate value_type fresh_slot m this h = Ret this' h' →
  q ≠ mArray this → is_Some (h !! q) →
  h' !! q = h !! q ∧ q ≠ mArray this'.
Proof.
  intros Hrun Hq Hsome.
  assert (fresh (dom h) ≠ q) by (by apply al_fresh_ne).
  destruct m; run_in Hrun; split; try done.
  all: by rewrite ?lookup_insert_ne, ?lookup_delete_ne, ?lookup_insert_ne by done.
Qed.

Lemma al_mutate_throw m this h e h' :
  mutate value_type fresh_slot m this h = Throw e h' → h' = h.
Proof. intros Hrun. destruct m; run_in Hrun; done. Qed.

Lemma al_mutate_all_frame ms this h h' q :
  store_of (mutate_all value_type fresh_slot ms this h) = Some h' →
  q ≠ mArray this → is_Some (h !! q) →
  h' !! q = h !! q.
Proof.
  revert this h. induction ms as [|m ms IH]; intros this h Hrun Hq Hsome.
  - simpl in Hrun. by simplify_eq.
  - cbn [mutate_all] in Hrun. unfold bind in Hrun at 1.
    destruct (mutate _ _ m this h) as [this1 h1|e h1| |] eqn:Hm; simpl in Hrun.
    + destruct (al_mutate_frame _ _ _ _ _ q Hm) as [Heq Hq1]; [done..|].
      rewrite <- Heq. apply (IH this1 h1); [done|done|]. by rewrite Heq.
    + simplify_eq. by rewrite (al_mutate_throw _ _ _ _ _ Hm).
    + done.
    + done.
Qed.


Lemma al_std_copy_bad_range first last d_first h :
  p_offset last < p_offset first → std_copy first last d_first h = Undefined.
Proof.
  intros Hlt. unfold std_copy.
  destruct (h !! p_array first); [|done].
  destruct (h !! p_array d_first); [|done].
  rewrite bool_decide_eq_false_2; [done|]. lia.
Qed.

(** An in-range index that does not fit an [int]: the iterator sum
    [begin() + index] lands before the buffer. *)
Lemma al_remove_truncated h this index x :
  index < SizeT.sub (mSize this) 1 →
  index < mSize this →
  read (mArray this) index h = Ret x h →
  to_int index < 0 →
  remove this index h = Undefined.
Proof.
  intros Hlast Hlt Hread Hneg. unfold remove.
  erewrite bind_Ret by (by apply al_rangeCheck_lt).
  erewrite bind_Ret by done.
  rewrite bool_decide_eq_true_2 by done.
  unfold bind at 1. unfold bind at 1.
  rewrite al_new_array_eq. unfold bind at 1.
  rewrite al_std_copy_bad_range; [done|].
  unfold begin, iter_plus. cbn [p_offset]. lia.
Qed.

Lemma al_ctor_overflow h size v :
  SizeT.mul size 2 < size → 0 ≤ SizeT.mul size 2 → ctor size v h = Undefined.
Proof.
  intros Hlt Hpos. unfold ctor. erewrite bind_Ret by apply al_new_array_eq.
  unfold bind, std_fill, begin, end_. cbn [p_array p_offset mArray mSize].
  rewrite lookup_insert_eq.
  rewrite bool_decide_eq_false_2; [done|].
  rewrite al_length_fresh_buf. lia.
Qed.
(** *** Ranges of more than [INT_MAX] elements, and what a call returns *)

(** Whatever its count comes to, a copy from a valid range to a
    destination with room for the whole range returns; it writes the
    destination array only, which keeps its length. *)
Lemma al_std_copy_returns p (a b : nat) q (d : nat) h src dst :
  h !! p = Some src → h !! q = Some dst → p ≠ q →
  (a ≤ b ≤ length src)%nat → (d + (b - a) ≤ length dst)%nat →
  ∃ dst', std_copy (Ptr p a) (Ptr p b) (Ptr q d) h = Ret () (<[q := dst']> h)
          ∧ length dst' = length dst.
Proof.
  unfold std_copy, iter_minus. cbn [p_array p_offset].
  intros -> -> Hpq Hab Hd.
  pose proof (to_int_le (Z.of_nat b - Z.of_nat a)) as Hle.
  set (n := Z.max 0 (to_int (Z.of_nat b - Z.of_nat a))).
  assert (0 ≤ n ≤ Z.of_nat b - Z.of_nat a) by lia.
  rewrite bool_decide_eq_true_2 by (repeat split; try done; lia).
  eexists. split; [reflexivity|]. len.
Qed.

Lemma al_fresh_buf_take (n m : nat) :
  (n ≤ m)%nat →
  take n (fresh_slot <$> seq 0 m) = fresh_slot <$> seq 0 n.
Proof. intros. rewrite <- fmap_take, take_seq. do 2 f_equal. lia. Qed.

(** add(value) at full capacity when the size, taken as an [int], is not
    positive: nothing is copied into the new buffer, whose first [size]
    slots stay as [new T[n]] left them. *)
Lemma al_add_truncated h this xs v :
  repr h this xs → mSize this = mCapacity this →
  2 * mSize this + 2 ≤ SizeT.SIZE_MAX →
  to_int (mSize this) ≤ 0 →
  ∃ this' h',
    add this (Val v) h = Ret this' h'
    ∧ repr h' this' ((fresh_slot <$> seq 0 (length xs)) ++ [v])
    ∧ mSize this' = mSize this + 1
    ∧ mCapacity this' = 2 * mSize this + 2.
Proof.
  intros (rest & Hbuf & Hsz & Hcap & Hmax) Hfull Hfit Hint.
  destruct this as [sz cap arr]; cbn [mSize mCapacity mArray] in *. subst sz cap.
  rewrite length_app in *.
  assert (rest = []) as -> by (destruct rest; [done|simpl in *; lia]).
  rewrite app_nil_r in *.
  unfold add. cbn [mSize mCapacity mArray].
  rewrite bool_decide_eq_true_2 by lia.
  assert (Hn : SizeT.add (SizeT.mul 2 (length xs)) 2 = Z.of_nat (2 * length xs + 2)).
  { unfold SizeT.add, SizeT.mul. rewrite (wrap_small (2 * _)) by lia.
    rewrite wrap_small by lia. lia. }
  rewrite Hn. clear Hn.
  set (p := fresh (dom h)).
  assert (Hp : h !! p = None) by apply al_fresh_lookup.
  assert (Hne : p ≠ arr) by (apply al_fresh_ne; eauto).
  set (J := fresh_slot <$> seq 0 (2 * length xs + 2)).
  assert (HJ : length J = (2 * length xs + 2)%nat) by apply al_length_fresh_buf.
  erewrite bind_Ret; last first.
  { erewrite bind_Ret by apply al_new_array_eq. fold p.
    rewrite Nat2Z.id. fold J.
    erewrite bind_Ret; last first.
    { unfold begin, end_, get_ptr. cbn [mSize mArray].
      apply (al_std_copy_none arr 0 (length xs) p 0 _ xs J).
      - by rewrite lookup_insert_ne.
      - by rewrite lookup_insert_eq.
      - done.
      - lia.
      - lia.
      - by rewrite Z.sub_0_r. }
    erewrite bind_Ret; last first.
    { eapply al_delete_array_eq. by rewrite lookup_insert_ne. }
    reflexivity. }
  cbn [mSize mCapacity mArray deref].
  erewrite bind_Ret by reflexivity.
  erewrite bind_Ret; last first.
  { eapply al_write_eq.
    - rewrite lookup_delete_ne by done. apply lookup_insert_eq.
    - lia. }
  assert (Hadd : SizeT.add (length xs) 1 = length xs + 1).
  { unfold SizeT.add. rewrite wrap_small; unfold SizeT.SIZE_MAX in *; lia. }
  eexists _, _. split; [reflexivity|].
  cbn [mSize mCapacity mArray]. split_and!; [|apply Hadd|lia].
  exists (drop (S (length xs)) J). cbn [mSize mCapacity mArray]. split_and!.
  - rewrite lookup_insert_eq. f_equal.
    rewrite insert_take_drop by lia.
    unfold J at 1. rewrite al_fresh_buf_take by lia.
    by rewrite <- (assoc_L (++)).
  - rewrite Hadd. len.
  - len.
  - len.
Qed.

(** The copy constructor returns for a source of any size, with a buffer
    of exactly [size] slots. *)
Lemma al_copy_ctor_returns h src xs :
  repr h src xs →
  ∃ this h',
    copy_ctor src h = Ret this h'
    ∧ mSize this = mSize src
    ∧ mCapacity this = mSize src
    ∧ h !! mArray this = None
    ∧ (∀ p, is_Some (h !! p) → h' !! p = h !! p).
Proof.
  intros (rest & Hbuf & Hsz & Hcap & Hmax).
  unfold copy_ctor. erewrite bind_Ret by apply al_new_array_eq.
  set (p := fresh (dom h)).
  assert (Hp : h !! p = None) by apply al_fresh_lookup.
  assert (Hne : mArray src ≠ p) by (apply not_eq_sym, al_fresh_ne; eauto).
  rewrite Hsz, Nat2Z.id.
  unfold begin, end_. cbn [mSize mArray]. rewrite Hsz.
  destruct (al_std_copy_returns (mArray src) 0 (length xs) p 0
              (<[p := fresh_slot <$> seq 0 (length xs)]> h) (xs ++ rest)
              (fresh_slot <$> seq 0 (length xs)))
    as (dst' & Hcopy & Hlen).
  { by rewrite lookup_insert_ne. }
  { by rewrite lookup_insert_eq. }
  { done. }
  { len. }
  { len. }
  erewrite bind_Ret by exact Hcopy.
  eexists _, _. split; [reflexivity|]. cbn [mSize mCapacity mArray].
  split_and!; try done.
  intros q Hq. assert (p ≠ q) by (by apply al_fresh_ne).
  rewrite insert_insert_eq. by rewrite lookup_insert_ne.
Qed.

(** The copy of a sequence whose size, taken as an [int], is not positive:
    none of its elements is copied. *)
Lemma al_copy_ctor_truncated h src xs :
  repr h src xs → to_int (mSize src) ≤ 0 →
  ∃ this h',
    copy_ctor src h = Ret this h'
    ∧ repr h' this (fresh_slot <$> seq 0 (length xs))
    ∧ repr h' src xs.
Proof.
  intros Hsrc Hint. pose proof Hsrc as (rest & Hbuf & Hsz & Hcap & Hmax).
  unfold copy_ctor. erewrite bind_Ret by apply al_new_array_eq.
  set (p := fresh (dom h)).
  assert (Hp : h !! p = None) by apply al_fresh_lookup.
  assert (Hne : mArray src ≠ p) by (apply not_eq_sym, al_fresh_ne; eauto).
  rewrite Hsz, Nat2Z.id.
  unfold begin, end_. cbn [mSize mArray]. rewrite Hsz.
  erewrite bind_Ret; last first.
  { apply (al_std_copy_none (mArray src) 0 (length xs) p 0 _ (xs ++ rest)
             (fresh_slot <$> seq 0 (length xs))).
    - by rewrite lookup_insert_ne.
    - by rewrite lookup_insert_eq.
    - done.
    - len.
    - lia.
    - rewrite Z.sub_0_r. by rewrite <- Hsz. }
  eexists _, _. split; [reflexivity|]. split.
  - exists []. cbn [mSize mCapacity mArray].
    rewrite lookup_insert_eq, app_nil_r, al_length_fresh_buf.
    split_and!; [done|done|done|len].
  - apply (al_repr_frame h); [done|]. by rewrite lookup_insert_ne.
Qed.

(** The size and the capacity add(value) returns with. *)
Lemma al_add_sizes this value h this' h' :
  add this value h = Ret this' h' →
  mSize this' = SizeT.add (mSize this) 1
  ∧ (mCapacity this ≤ mSize this →
     mCapacity this' = SizeT.add (SizeT.mul 2 (mSize this)) 2)
  ∧ (mSize this < mCapacity this → mCapacity this' = mCapacity this).
Proof.
  unfold add. intros Hrun.
  apply bind_Ret_inv in Hrun as (this1 & h1 & Hgrow & Hrun).
  apply bind_Ret_inv in Hrun as (v & h2 & _ & Hrun).
  apply bind_Ret_inv in Hrun as (u & h3 & _ & Hrun).
  apply ret_inv in Hrun as [<- _]. cbn [mSize mCapacity].
  case_bool_decide as Hfull.
  - apply bind_Ret_inv in Hgrow as (temp & h4 & _ & Hgrow).
    apply bind_Ret_inv in Hgrow as (u1 & h5 & _ & Hgrow).
    apply bind_Ret_inv in Hgrow as (u2 & h6 & _ & Hgrow).
    apply ret_inv in Hgrow as [<- _]. cbn [mSize mCapacity].
    split_and!; [done|done|lia].
  - apply ret_inv in Hgrow as [<- _]. split_and!; [done|lia|done].
Qed.

(** The size and the capacity add(index, value) returns with. *)
Lemma al_add_at_sizes this index v h this' h' :
  add_at this index v h = Ret this' h' →
  mSize this' = SizeT.add (Z.max index (mSize this)) 1
  ∧ mCapacity this' = SizeT.mul 2 (mSize this').
Proof.
  unfold add_at. intros Hrun.
  apply bind_Ret_inv in Hrun as (temp & h1 & _ & Hrun).
  apply bind_Ret_inv in Hrun as (u1 & h2 & _ & Hrun).
  apply bind_Ret_inv in Hrun as (u2 & h3 & _ & Hrun).
  apply bind_Ret_inv in Hrun as (u3 & h4 & _ & Hrun).
  apply bind_Ret_inv in Hrun as (u4 & h5 & _ & Hrun).
  apply ret_inv in Hrun as [<- _]. done.
Qed.

(** add(value) of an object outside the free store returns whatever the
    size is. *)
Lemma al_add_returns h this xs v :
  repr h this xs →
  (mSize this = mCapacity this → 2 * mSize this + 2 ≤ SizeT.SIZE_MAX) →
  ∃ this' h', add this (Val v) h = Ret this' h'.
Proof.
  intros (rest & Hbuf & Hsz & Hcap & Hmax) Hfit.
  destruct this as [sz cap arr]; cbn [mSize mCapacity mArray] in *. subst sz cap.
  rewrite length_app in *.
  unfold add. cbn [mSize mCapacity mArray deref].
  case_bool_decide as Hfull.
  - assert (rest = []) as -> by (destruct rest; [done|simpl in *; lia]).
    rewrite app_nil_r in *. simpl in Hfit.
    assert (Hfit' : 2 * length xs + 2 ≤ SizeT.SIZE_MAX) by (apply Hfit; lia).
    assert (Hn : SizeT.add (SizeT.mul 2 (length xs)) 2 = Z.of_nat (2 * length xs + 2)).
    { unfold SizeT.add, SizeT.mul. rewrite (wrap_small (2 * _)) by lia.
      rewrite wrap_small by lia. lia. }
    rewrite Hn. clear Hn.
    set (p := fresh (dom h)).
    assert (Hp : h !! p = None) by apply al_fresh_lookup.
    assert (Hne : p ≠ arr) by (apply al_fresh_ne; eauto).
    set (J := fresh_slot <$> seq 0 (2 * length xs + 2)).
    assert (HJ : length J = (2 * length xs + 2)%nat) by apply al_length_fresh_buf.
    destruct (al_std_copy_returns arr 0 (length xs) p 0 (<[p := J]> h) xs J)
      as (dst' & Hcopy & Hlen).
    { by rewrite lookup_insert_ne. }
    { by rewrite lookup_insert_eq. }
    { done. }
    { lia. }
    { lia. }
    erewrite bind_Ret; last first.
    { erewrite bind_Ret by apply al_new_array_eq. fold p.
      rewrite Nat2Z.id. fold J.
      unfold begin, end_, get_ptr. cbn [mSize mArray].
      erewrite bind_Ret by exact Hcopy.
      erewrite bind_Ret; last first.
      { eapply al_delete_array_eq. rewrite lookup_insert_ne by done.
        by rewrite lookup_insert_ne. }
      reflexivity. }
    cbn [mSize mCapacity mArray].
    erewrite bind_Ret by reflexivity.
    erewrite bind_Ret; last first.
    { eapply al_write_eq.
      - rewrite lookup_delete_ne by done. apply lookup_insert_eq.
      - lia. }
    by eexists _, _.
  - erewrite bind_Ret by reflexivity. cbn [mSize mCapacity mArray].
    erewrite bind_Ret by reflexivity.
    erewrite bind_Ret; last first.
    { eapply al_write_eq; [done|]. rewrite length_app. lia. }
    by eexists _, _.
Qed.

(** add(index, value) returns as soon as the capacity it computes is a
    [size_t] and the offset of its first iterator sum fits an [int]. *)
Lemma al_add_at_returns h this xs (i : nat) v :
  repr h this xs →
  2 * (Z.max i (mSize this) + 1) ≤ SizeT.SIZE_MAX →
  Z.min i (mSize this) ≤ INT_MAX →
  ∃ this' h', add_at this i v h = Ret this' h'.
Proof.
  intros (rest & Hbuf & Hsz & Hcap & Hmax) Hfit Hint.
  destruct this as [sz cap arr]; simpl in *. subst sz cap.
  set (p := fresh (dom h)).
  assert (Hp : h !! p = None) by apply al_fresh_lookup.
  assert (Hne : p ≠ arr) by (apply al_fresh_ne; eauto).
  set (m := (i `max` length xs)%nat).
  assert (HnewSize : SizeT.add (Z.max i (length xs)) 1 = (m + 1)%nat).
  { unfold SizeT.add. rewrite wrap_small; lia. }
  assert (HnewCap : SizeT.mul 2 (m + 1)%nat = (2 * (m + 1))%nat).
  { unfold SizeT.mul. rewrite wrap_small; lia. }
  unfold add_at. cbn [mSize mCapacity mArray].
  rewrite HnewSize, HnewCap.
  erewrite bind_Ret by apply al_new_array_eq. fold p. rewrite Nat2Z.id.
  set (J := fresh_slot <$> seq 0 (2 * (m + 1))).
  assert (HJ : length J = (2 * (m + 1))%nat) by apply al_length_fresh_buf.
  unfold begin, end_, get_ptr, iter_plus, ptr_plus.
  cbn [mSize mArray p_array p_offset].
  rewrite (to_int_small (Z.min _ _)) by lia. rewrite !Z.add_0_l.
  destruct (decide (i < length xs)%nat) as [Hlt|Hge].
  - replace (Z.min i (length xs)) with (Z.of_nat i) by lia.
    destruct (al_std_copy_returns arr 0 i p 0 (<[p := J]> h) (xs ++ rest) J)
      as (J1 & Hcopy1 & HJ1).
    { by rewrite lookup_insert_ne. }
    { by rewrite lookup_insert_eq. }
    { done. }
    { len. }
    { len. }
    erewrite bind_Ret by exact Hcopy1.
    rewrite insert_insert_eq.
    rewrite bool_decide_eq_true_2 by lia.
    rewrite to_int_small by lia.
    replace (Z.of_nat i + 1) with (Z.of_nat (i + 1)) by lia.
    destruct (al_std_copy_returns arr i (length xs) p (i + 1)
                (<[p := J1]> h) (xs ++ rest) J1)
      as (J2 & Hcopy2 & HJ2).
    { by rewrite lookup_insert_ne. }
    { by rewrite lookup_insert_eq. }
    { done. }
    { len. }
    { lia. }
    erewrite bind_Ret by exact Hcopy2.
    rewrite insert_insert_eq.
    erewrite bind_Ret; last first.
    { eapply al_write_eq; [apply lookup_insert_eq|]. lia. }
    rewrite insert_insert_eq.
    erewrite bind_Ret; last first.
    { eapply al_delete_array_eq. by rewrite lookup_insert_ne. }
    by eexists _, _.
  - replace (Z.min i (length xs)) with (Z.of_nat (length xs)) by lia.
    destruct (al_std_copy_returns arr 0 (length xs) p 0 (<[p := J]> h)
                (xs ++ rest) J)
      as (J1 & Hcopy1 & HJ1).
    { by rewrite lookup_insert_ne. }
    { by rewrite lookup_insert_eq. }
    { done. }
    { len. }
    { len. }
    erewrite bind_Ret by exact Hcopy1.
    rewrite insert_insert_eq.
    rewrite bool_decide_eq_false_2 by lia.
    erewrite bind_Ret; last first.
    { apply (al_std_fill_eq p (length xs) i); [apply lookup_insert_eq|]. lia. }
    rewrite insert_insert_eq.
    erewrite bind_Ret; last first.
    { eapply al_write_eq; [apply lookup_insert_eq|]. len. }
    rewrite insert_insert_eq.
    erewrite bind_Ret; last first.
    { eapply al_delete_array_eq. by rewrite lookup_insert_ne. }
    by eexists _, _.
Qed.

(** add(value) with a reference into the buffer that the growth releases. *)
Lemma al_add_released h this xs index :
  repr h this xs → mSize this = mCapacity this →
  2 * mSize this + 2 ≤ SizeT.SIZE_MAX →
  add this (Slot (mArray this) index) h = Undefined.
Proof.
  intros (rest & Hbuf & Hsz & Hcap & Hmax) Hfull Hfit.
  destruct this as [sz cap arr]; cbn [mSize mCapacity mArray] in *. subst sz cap.
  rewrite length_app in *.
  assert (rest = []) as -> by (destruct rest; [done|simpl in *; lia]).
  rewrite app_nil_r in *.
  unfold add. cbn [mSize mCapacity mArray].
  rewrite bool_decide_eq_true_2 by lia.
  assert (Hn : SizeT.add (SizeT.mul 2 (length xs)) 2 = Z.of_nat (2 * length xs + 2)).
  { unfold SizeT.add, SizeT.mul. rewrite (wrap_small (2 * _)) by lia.
    rewrite wrap_small by lia. lia. }
  rewrite Hn. clear Hn.
  set (p := fresh (dom h)).
  assert (Hp : h !! p = None) by apply al_fresh_lookup.
  assert (Hne : p ≠ arr) by (apply al_fresh_ne; eauto).
  set (J := fresh_slot <$> seq 0 (2 * length xs + 2)).
  assert (HJ : length J = (2 * length xs + 2)%nat) by apply al_length_fresh_buf.
  destruct (al_std_copy_returns arr 0 (length xs) p 0 (<[p := J]> h) xs J)
    as (dst' & Hcopy & Hlen).
  { by rewrite lookup_insert_ne. }
  { by rewrite lookup_insert_eq. }
  { done. }
  { lia. }
  { lia. }
  erewrite bind_Ret; last first.
  { erewrite bind_Ret by apply al_new_array_eq. fold p.
    rewrite Nat2Z.id. fold J.
    unfold begin, end_, get_ptr. cbn [mSize mArray].
    erewrite bind_Ret by exact Hcopy.
    erewrite bind_Ret; last first.
    { eapply al_delete_array_eq. rewrite lookup_insert_ne by done.
      by rewrite lookup_insert_ne. }
    reflexivity. }
  cbn [mSize mCapacity mArray deref].
  unfold bind, read. by rewrite lookup_delete_eq.
Qed.

End facts.

End ArrayListFacts.

(** ** LinkedList *)

Module LinkedListFacts.

Section facts.
Context {T : Type} `{EqDecision T}.
Variable value_type : T.
Import LinkedList.
Abbreviation node := (LinkedListNode (T:=T)).
Abbreviation store := (gmap positive node).
Implicit Types (h : store) (this : LinkedList) (xs : list T)
  (ps qs l : list positive) (p q a b t : positive).

(** Fields *)

Lemma ll_lookup_fields h p n :
  h !! p = Some n →
  item h p = Some (mItem n) ∧ prev h p = Some (mPrev n) ∧ next h p = Some (mNext n).
Proof. unfold item, prev, next. by intros ->. Qed.

Lemma ll_next_Some h p b : next h p = Some b → ∃ n, h !! p = Some n ∧ mNext n = b.
Proof. unfold next. destruct (h !! p) as [n|]; [|done]. intros [= <-]. eauto. Qed.

Lemma ll_prev_Some h p a : prev h p = Some a → ∃ n, h !! p = Some n ∧ mPrev n = a.
Proof. unfold prev. destruct (h !! p) as [n|]; [|done]. intros [= <-]. eauto. Qed.

Lemma ll_item_Some h p x : item h p = Some x → ∃ n, h !! p = Some n ∧ mItem n = x.
Proof. unfold item. destruct (h !! p) as [n|]; [|done]. intros [= <-]. eauto. Qed.

Lemma ll_item_is_Some h p : is_Some (item h p) ↔ is_Some (h !! p).
Proof. unfold item. by rewrite fmap_is_Some. Qed.

Lemma ll_item_None h p : item h p = None ↔ h !! p = None.
Proof. unfold item. by rewrite fmap_None. Qed.

Lemma ll_fresh_lookup h : h !! fresh (dom h) = None.
Proof. apply not_elem_of_dom, is_fresh. Qed.

Lemma ll_fresh_ne h p : is_Some (h !! p) → fresh (dom h) ≠ p.
Proof. intros Hp E. rewrite <- E, ll_fresh_lookup in Hp. by destruct Hp. Qed.

(** The store after a primitive, field by field *)

Lemma ll_load_eq h p n : h !! p = Some n → load p h = Ret n h.
Proof. unfold load. by intros ->. Qed.

Lemma ll_link_spec h a b :
  is_Some (h !! a) → is_Some (h !! b) →
  ∃ h', link a b h = Ret () h'
    ∧ (∀ x, next h' x = if decide (x = a) then Some b else next h x)
    ∧ (∀ x, prev h' x = if decide (x = b) then Some a else prev h x)
    ∧ (∀ x, item h' x = item h x).
Proof.
  intros [na Ha] [nb Hb]. unfold link, bind, set_mNext, set_mPrev. rewrite Ha.
  destruct (decide (b = a)) as [->|Hab].
  - rewrite lookup_insert_eq. eexists. split; [done|].
    split_and!; intros x; unfold next, prev, item;
      repeat case_decide; simplify_eq;
      try destruct (decide (x = a)) as [->|];
      rewrite ?lookup_insert_eq, ?lookup_insert_ne by done; by rewrite ?Ha.
  - rewrite lookup_insert_ne, Hb by done. eexists. split; [done|].
    split_and!; intros x; unfold next, prev, item;
      repeat case_decide; simplify_eq;
      try destruct (decide (x = a)) as [->|];
      try destruct (decide (x = b)) as [->|];
      rewrite ?lookup_insert_eq, ?lookup_insert_ne, ?lookup_insert_eq,
        ?lookup_insert_ne by done;
      by rewrite ?Ha, ?Hb.
Qed.

Lemma ll_new_node_spec h v a b :
  is_Some (h !! a) → is_Some (h !! b) →
  ∃ p h', new_node v a b h = Ret p h'
    ∧ h !! p = None
    ∧ (∀ x, next h' x = if decide (x = p) then Some b
                        else if decide (x = a) then Some p else next h x)
    ∧ (∀ x, prev h' x = if decide (x = p) then Some a
                        else if decide (x = b) then Some p else prev h x)
    ∧ (∀ x, item h' x = if decide (x = p) then Some v else item h x).
Proof.
  intros Ha Hb. set (p := fresh (dom h)).
  assert (Hp : h !! p = None) by apply ll_fresh_lookup.
  assert (Hpa : p ≠ a) by (by apply ll_fresh_ne).
  assert (Hpb : p ≠ b) by (by apply ll_fresh_ne).
  set (h0 := <[p := mkNode v a b]> h).
  assert (H0 : h0 !! p = Some (mkNode v a b)) by apply lookup_insert_eq.
  destruct (ll_link_spec h0 a p) as (h1 & Hl1 & Hn1 & Hp1 & Hi1).
  { unfold h0. by rewrite lookup_insert_ne. }
  { eauto. }
  assert (H1 : h1 !! p = Some (mkNode v a b)).
  { destruct (ll_item_Some h1 p v) as (n & Hn & Hv).
    { rewrite Hi1. unfold item. by rewrite H0. }
    rewrite Hn. f_equal. destruct n as [x a' b']. simpl in Hv. subst x.
    pose proof (Hn1 p) as E1. pose proof (Hp1 p) as E2.
    unfold next, prev in E1, E2. rewrite Hn, H0 in E1, E2. simpl in *.
    rewrite decide_False in E1 by done. rewrite decide_True in E2 by done.
    by simplify_eq. }
  destruct (ll_link_spec h1 p b) as (h2 & Hl2 & Hn2 & Hp2 & Hi2).
  { eauto. }
  { apply ll_item_is_Some. rewrite Hi1. apply ll_item_is_Some. unfold h0.
    by rewrite lookup_insert_ne. }
  exists p, h2. split.
  - unfold new_node, alloc. unfold bind at 1. fold p. fold h0.
    erewrite bind_Ret by (by apply ll_load_eq). simpl.
    erewrite bind_Ret by done.
    erewrite bind_Ret by (by apply ll_load_eq). simpl.
    erewrite bind_Ret by done. done.
  - split; [done|]. split_and!; intros x.
    + rewrite Hn2, Hn1. repeat case_decide; simplify_eq; try done.
      unfold next, h0. by rewrite lookup_insert_ne.
    + rewrite Hp2, Hp1. repeat case_decide; simplify_eq; try done.
      all: unfold prev, h0;
        rewrite ?lookup_insert_eq, ?lookup_insert_ne by done; done.
    + rewrite Hi2, Hi1. unfold item, h0. case_decide; simplify_eq.
      * by rewrite lookup_insert_eq.
      * by rewrite lookup_insert_ne.
Qed.

Lemma ll_free_eq h p n : h !! p = Some n → free p h = Ret () (delete p h).
Proof. unfold free. by intros ->. Qed.

Lemma ll_delete_node_spec h p a b :
  prev h p = Some a → next h p = Some b →
  is_Some (h !! a) → is_Some (h !! b) →
  ∃ h', delete_node p h = Ret () h'
    ∧ (∀ x, next h' x = if decide (x = p) then None
                        else if decide (x = a) then Some b else next h x)
    ∧ (∀ x, prev h' x = if decide (x = p) then None
                        else if decide (x = b) then Some a else prev h x)
    ∧ (∀ x, item h' x = if decide (x = p) then None else item h x).
Proof.
  intros Hprev Hnext Ha Hb.
  destruct (ll_prev_Some _ _ _ Hprev) as (n & Hn & Hna).
  destruct (ll_next_Some _ _ _ Hnext) as (n' & Hn' & Hnb). simplify_eq.
  destruct (ll_link_spec h (mPrev n) (mNext n)) as (h1 & Hl & Hn1 & Hp1 & Hi1);
    [done..|].
  assert (is_Some (h1 !! p)) as [n1 H1].
  { apply ll_item_is_Some. rewrite Hi1. apply ll_item_is_Some. eauto. }
  exists (delete p h1). split.
  - unfold delete_node. erewrite bind_Ret by (by apply ll_load_eq).
    erewrite bind_Ret by done. by eapply ll_free_eq.
  - split_and!; intros x; unfold next, prev, item; case_decide; simplify_eq;
      rewrite ?lookup_delete_eq, ?lookup_delete_ne by done; try done.
    + apply Hn1.
    + apply Hp1.
    + apply Hi1.
Qed.


(** Chains *)

Lemma ll_chain_app h l1 a l2 :
  chain h (l1 ++ a :: l2) ↔ chain h (l1 ++ [a]) ∧ chain h (a :: l2).
Proof.
  induction l1 as [|x l1 IH]; simpl.
  - destruct l2; tauto.
  - destruct l1 as [|y l1]; simpl in *.
    + destruct l2; tauto.
    + rewrite IH. tauto.
Qed.

Lemma ll_chain_prefix h l1 l2 : chain h (l1 ++ l2) → chain h l1.
Proof.
  destruct l2 as [|a l2]; [by rewrite app_nil_r|].
  rewrite ll_chain_app. intros [H1 _]. revert H1.
  induction l1 as [|x [|y l1] IH]; simpl; try done. tauto.
Qed.

Lemma ll_chain_suffix h l1 l2 : chain h (l1 ++ l2) → chain h l2.
Proof.
  destruct l2 as [|a l2]; [done|]. rewrite ll_chain_app. by intros [_ ?].
Qed.

Lemma ll_chain_join h l1 a b l2 :
  chain h (l1 ++ [a]) → linked h a b → chain h (b :: l2) →
  chain h (l1 ++ a :: b :: l2).
Proof. intros. apply ll_chain_app. split; [done|]. by split. Qed.

Lemma ll_chain_lookup h l i a b :
  chain h l → l !! i = Some a → l !! S i = Some b → linked h a b.
Proof.
  revert i. induction l as [|x [|y l] IH]; intros i Hc Ha Hb; try done.
  destruct i as [|i]; simpl in *.
  - simplify_eq. by destruct Hc.
  - destruct Hc as [_ Hc]. by eapply (IH i).
Qed.

Lemma ll_chain_frame h h' l :
  chain h l →
  (∀ x, x ∈ removelast l → next h' x = next h x) →
  (∀ y, y ∈ tail l → prev h' y = prev h y) →
  chain h' l.
Proof.
  induction l as [|a [|b l] IH]; intros Hc Hn Hp; try done.
  destruct Hc as [[Hab Hba] Hc]. split.
  - split.
    + rewrite Hn; [done|]. simpl. left.
    + rewrite Hp; [done|]. simpl. left.
  - apply IH; [done|..].
    + intros x Hx. apply Hn. change (x ∈ a :: removelast (b :: l)). by right.
    + intros y Hy. apply Hp. simpl. right. done.
Qed.

Lemma ll_chain_allocated h l x :
  chain h l → (2 ≤ length l)%nat → x ∈ l → is_Some (h !! x).
Proof.
  induction l as [|a [|b l] IH]; simpl; intros Hc Hlen Hx; try lia.
  destruct Hc as [[Hab Hba] Hc].
  apply elem_of_cons in Hx as [->|Hx].
  - destruct (ll_next_Some _ _ _ Hab) as (? & ? & _). eauto.
  - destruct l as [|c l].
    + apply list_elem_of_singleton in Hx as ->.
      destruct (ll_prev_Some _ _ _ Hba) as (? & ? & _). eauto.
    + apply IH; [done|simpl; lia|done].
Qed.

(** The two ends of the dummy-delimited list *)

Lemma ll_last_cons_default t l (d : positive) : List.last (t :: l) d = List.last l t.
Proof.
  revert t d. induction l as [|x l IH]; intros t d; [done|].
  change (List.last (x :: l) d = List.last (x :: l) t).
  by rewrite !IH.
Qed.

Lemma ll_split_front t l : t :: l = removelast (t :: l) ++ [List.last l t].
Proof.
  rewrite <- (ll_last_cons_default t l t). by apply app_removelast_last.
Qed.

Lemma ll_split_back t l : l ++ [t] = hd t l :: tail (l ++ [t]).
Proof. by destruct l. Qed.

Lemma ll_last_elem_of t l : List.last l t ∈ t :: l.
Proof.
  rewrite (ll_split_front t l) at 1. apply elem_of_app. right. left.
Qed.

Lemma ll_hd_elem_of t l : hd t l ∈ l ++ [t].
Proof. rewrite (ll_split_back t l). left. Qed.

Lemma ll_last_not_front t l : NoDup (t :: l) → List.last l t ∉ removelast (t :: l).
Proof.
  rewrite (ll_split_front t l) at 1. intros Hnd Hin.
  apply NoDup_app in Hnd as (_ & Hnd & _). apply (Hnd _ Hin). left.
Qed.

Lemma ll_hd_not_back t l : NoDup (t :: l) → hd t l ∉ tail (l ++ [t]).
Proof.
  destruct l as [|x l]; simpl; [by intros _ ?%elem_of_nil|].
  intros Hnd Hin. apply NoDup_cons in Hnd as [Ht Hnd].
  apply NoDup_cons in Hnd as [Hx _].
  apply elem_of_app in Hin as [?|?%list_elem_of_singleton]; [done|].
  subst. apply Ht. left.
Qed.

Lemma ll_removelast_subseteq t l x : x ∈ removelast (t :: l) → x ∈ t :: l.
Proof.
  rewrite (ll_split_front t l) at 2. intros. apply elem_of_app. by left.
Qed.

Lemma ll_tail_back_subseteq t l x : x ∈ tail (l ++ [t]) → x ∈ l ++ [t].
Proof. rewrite (ll_split_back t l) at 2. intros. by right. Qed.


Lemma ll_NoDup_parts t l1 l2 :
  NoDup (t :: l1 ++ l2) →
  NoDup (t :: l1) ∧ NoDup (t :: l2)
  ∧ (∀ x, x ∈ t :: l1 → x ∉ l2)
  ∧ (∀ x, x ∈ l1 → x ∉ l2 ++ [t]).
Proof.
  intros Hnd. apply NoDup_cons in Hnd as [Ht Hnd].
  apply NoDup_app in Hnd as (Hnd1 & Hdisj & Hnd2).
  rewrite elem_of_app in Ht.
  split_and!.
  - apply NoDup_cons. tauto.
  - apply NoDup_cons. tauto.
  - intros x [->|Hx]%elem_of_cons; [tauto|]. by apply Hdisj.
  - intros x Hx [Hx2| ->%list_elem_of_singleton]%elem_of_app; [|tauto].
    by apply (Hdisj x).
Qed.

(** Rings *)

Lemma ll_ring_tail h t ps xs :
  ring h t ps xs → next h t = Some (hd t ps) ∧ prev h t = Some (List.last ps t).
Proof.
  intros (_ & Hc & _). split.
  - simpl in Hc. rewrite (ll_split_back t ps) in Hc. by destruct Hc as [[? _] _].
  - change (chain h ((t :: ps) ++ [t])) in Hc.
    rewrite (ll_split_front t ps), <- (assoc_L (++)) in Hc.
    apply ll_chain_suffix in Hc. by destruct Hc as [[_ ?] _].
Qed.

Lemma ll_chain_at h t l1 p l2 :
  chain h (t :: l1 ++ p :: l2 ++ [t]) →
  prev h p = Some (List.last l1 t) ∧ next h p = Some (hd t l2).
Proof.
  intros Hc. change (chain h ((t :: l1) ++ p :: l2 ++ [t])) in Hc.
  rewrite (ll_split_front t l1), (ll_split_back t l2), <- (assoc_L (++)) in Hc.
  apply ll_chain_suffix in Hc. simpl in Hc.
  destruct Hc as [[_ ?] [[? _] _]]. done.
Qed.

Lemma ll_ring_at h t l1 p l2 xs :
  ring h t (l1 ++ p :: l2) xs →
  prev h p = Some (List.last l1 t) ∧ next h p = Some (hd t l2).
Proof.
  intros (_ & Hc & _). apply ll_chain_at. by rewrite <- (assoc_L (++)) in Hc.
Qed.

Lemma ll_ring_allocated h t ps xs x :
  ring h t ps xs → x ∈ t :: ps → is_Some (h !! x).
Proof.
  intros (_ & Hc & _) Hx. eapply ll_chain_allocated; [done|..].
  - simpl. rewrite length_app. simpl. lia.
  - change (x ∈ (t :: ps) ++ [t]). apply elem_of_app. by left.
Qed.

Lemma ll_items_frame h h' ps xs :
  Forall2 (λ p x, item h p = Some x) ps xs →
  (∀ p, p ∈ ps → item h' p = item h p) →
  Forall2 (λ p x, item h' p = Some x) ps xs.
Proof.
  induction 1 as [|p x ps xs Hp _ IH]; intros Hsame; constructor.
  - rewrite Hsame; [done|left].
  - apply IH. intros q Hq. apply Hsame. by right.
Qed.

Lemma ll_ring_frame h h' t ps xs :
  ring h t ps xs →
  (∀ x, x ∈ t :: ps →
        next h' x = next h x ∧ prev h' x = prev h x ∧ item h' x = item h x) →
  ring h' t ps xs.
Proof.
  intros (Hnd & Hc & Hit) Hsame. split_and!; [done|..].
  - apply (ll_chain_frame h); [done|..].
    + intros x Hx. apply Hsame.
      change (x ∈ removelast ((t :: ps) ++ [t])) in Hx.
      by rewrite removelast_last in Hx.
    + intros y Hy. apply Hsame. simpl in Hy.
      apply elem_of_app in Hy as [?|?%list_elem_of_singleton].
      * by right.
      * subst. left.
  - apply (ll_items_frame h); [done|]. intros p Hp. apply Hsame. by right.
Qed.

Lemma ll_cycle_split t l1 (mid : list positive) l2 :
  t :: (l1 ++ mid ++ l2) ++ [t]
  = removelast (t :: l1) ++ [List.last l1 t] ++ mid ++ hd t l2 :: tail (l2 ++ [t]).
Proof.
  transitivity ((t :: l1) ++ mid ++ (l2 ++ [t])).
  { simpl. by rewrite <- !(assoc_L (++)). }
  rewrite (assoc_L (++) (removelast _)).
  by rewrite <- ll_split_front, <- ll_split_back.
Qed.

(** Relinking around the gap between [l1] and [l2]: [a] is the node before
    the gap and [b] the node after it. *)

Section gap.
Variables (h h' : store) (t : positive) (l1 l2 : list positive).
Let a := List.last l1 t.
Let b := hd t l2.
Hypothesis Hnd : NoDup (t :: l1 ++ l2).
Hypothesis Hc1 : chain h (t :: l1).
Hypothesis Hc2 : chain h (l2 ++ [t]).
Hypothesis Hnext : ∀ x, x ∈ t :: l1 ++ l2 → x ≠ a → next h' x = next h x.
Hypothesis Hprev : ∀ x, x ∈ t :: l1 ++ l2 → x ≠ b → prev h' x = prev h x.

Lemma ll_gap_front : chain h' (t :: l1).
Proof.
  destruct (ll_NoDup_parts _ _ _ Hnd) as (Hnd1 & Hnd2 & Hd1 & Hd2).
  apply (ll_chain_frame h); [done|..].
  - intros x Hx. apply Hnext.
    + apply ll_removelast_subseteq in Hx. rewrite app_comm_cons.
      apply elem_of_app. by left.
    + intros ->. by apply (ll_last_not_front t l1).
  - intros y Hy. simpl in Hy. apply Hprev.
    + right. apply elem_of_app. by left.
    + intros ->. apply (Hd2 _ Hy). apply ll_hd_elem_of.
Qed.

Lemma ll_gap_back : chain h' (l2 ++ [t]).
Proof.
  destruct (ll_NoDup_parts _ _ _ Hnd) as (Hnd1 & Hnd2 & Hd1 & Hd2).
  apply (ll_chain_frame h); [done|..].
  - intros x Hx. rewrite removelast_last in Hx. apply Hnext.
    + right. apply elem_of_app. by right.
    + intros ->. apply (Hd1 a); [apply ll_last_elem_of|done].
  - intros y Hy. apply Hprev.
    + apply ll_tail_back_subseteq in Hy.
      apply elem_of_app in Hy as [?|?%list_elem_of_singleton].
      * right. apply elem_of_app. by right.
      * subst. left.
    + intros ->. by apply (ll_hd_not_back t l2).
Qed.

Lemma ll_gap_close : linked h' a b → chain h' (t :: (l1 ++ l2) ++ [t]).
Proof.
  intros Hab. pose proof ll_gap_front as Hf. pose proof ll_gap_back as Hb.
  rewrite (ll_split_front t l1) in Hf. rewrite (ll_split_back t l2) in Hb.
  change (chain h' (t :: (l1 ++ [] ++ l2) ++ [t])).
  rewrite (ll_cycle_split t l1 [] l2). by apply ll_chain_join.
Qed.

Lemma ll_gap_fill p :
  linked h' a p → linked h' p b → chain h' (t :: (l1 ++ p :: l2) ++ [t]).
Proof.
  intros Hap Hpb. pose proof ll_gap_front as Hf. pose proof ll_gap_back as Hb.
  rewrite (ll_split_front t l1) in Hf. rewrite (ll_split_back t l2) in Hb.
  change (chain h' (t :: (l1 ++ [p] ++ l2) ++ [t])).
  rewrite (ll_cycle_split t l1 [p] l2).
  apply ll_chain_join; [done..|]. by split.
Qed.

End gap.


Lemma ll_ring_parts h t ps xs i j :
  ring h t ps xs → (i ≤ j)%nat →
  NoDup (t :: take i ps ++ drop j ps)
  ∧ chain h (t :: take i ps)
  ∧ chain h (drop j ps ++ [t])
  ∧ Forall2 (λ p x, item h p = Some x) (take i ps) (take i xs)
  ∧ Forall2 (λ p x, item h p = Some x) (drop j ps) (drop j xs).
Proof.
  intros (Hnd & Hc & Hit) Hij. split_and!.
  - apply (sublist_NoDup _ (t :: ps)); [done|]. apply sublist_skip.
    assert (drop j ps `sublist_of` drop i ps) as H1.
    { replace j with (i + (j - i))%nat by lia. rewrite <- drop_drop.
      apply sublist_drop. }
    pose proof (sublist_app _ _ _ _ (reflexivity (take i ps)) H1) as H2.
    by rewrite take_drop in H2.
  - rewrite <- (take_drop i ps), <- (assoc_L (++)) in Hc.
    by apply (ll_chain_prefix _ (t :: take i ps)) in Hc.
  - rewrite <- (take_drop j ps), <- (assoc_L (++)) in Hc.
    by apply (ll_chain_suffix _ (t :: take j ps)) in Hc.
  - by apply Forall2_take.
  - by apply Forall2_drop.
Qed.

Lemma ll_ring_close h h' t ps xs i j :
  ring h t ps xs → (i ≤ j)%nat →
  (∀ x, x ∈ t :: take i ps ++ drop j ps → x ≠ List.last (take i ps) t →
        next h' x = next h x) →
  (∀ x, x ∈ t :: take i ps ++ drop j ps → x ≠ hd t (drop j ps) →
        prev h' x = prev h x) →
  (∀ x, x ∈ take i ps ++ drop j ps → item h' x = item h x) →
  linked h' (List.last (take i ps) t) (hd t (drop j ps)) →
  ring h' t (take i ps ++ drop j ps) (take i xs ++ drop j xs).
Proof.
  intros Hr Hij Hn Hp Hi Hl.
  destruct (ll_ring_parts _ _ _ _ i j Hr Hij) as (Hnd & Hc1 & Hc2 & Hi1 & Hi2).
  split_and!; [done|..].
  - by apply (ll_gap_close h).
  - apply Forall2_app.
    + apply (ll_items_frame h); [done|]. intros. apply Hi, elem_of_app. by left.
    + apply (ll_items_frame h); [done|]. intros. apply Hi, elem_of_app. by right.
Qed.

Lemma ll_ring_fill h h' t ps xs i j p v :
  ring h t ps xs → (i ≤ j)%nat →
  p ∉ t :: take i ps ++ drop j ps →
  (∀ x, x ∈ t :: take i ps ++ drop j ps → x ≠ List.last (take i ps) t →
        next h' x = next h x) →
  (∀ x, x ∈ t :: take i ps ++ drop j ps → x ≠ hd t (drop j ps) →
        prev h' x = prev h x) →
  (∀ x, x ∈ take i ps ++ drop j ps → item h' x = item h x) →
  item h' p = Some v →
  linked h' (List.last (take i ps) t) p →
  linked h' p (hd t (drop j ps)) →
  ring h' t (take i ps ++ p :: drop j ps) (take i xs ++ v :: drop j xs).
Proof.
  intros Hr Hij Hfresh Hn Hp Hi Hv Hl1 Hl2.
  destruct (ll_ring_parts _ _ _ _ i j Hr Hij) as (Hnd & Hc1 & Hc2 & Hi1 & Hi2).
  split_and!.
  - rewrite app_comm_cons. rewrite <- Permutation_middle.
    apply NoDup_cons. split; [|done]. by rewrite <- app_comm_cons.
  - by apply (ll_gap_fill h).
  - apply Forall2_app; [|constructor; [done|]].
    + apply (ll_items_frame h); [done|]. intros. apply Hi, elem_of_app. by left.
    + apply (ll_items_frame h); [done|]. intros. apply Hi, elem_of_app. by right.
Qed.

Lemma ll_fields_ext h h' x :
  next h' x = next h x → prev h' x = prev h x → item h' x = item h x →
  h' !! x = h !! x.
Proof.
  unfold next, prev, item.
  destruct (h' !! x) as [[]|], (h !! x) as [[]|]; simpl; congruence.
Qed.

Lemma ll_unchanged_outside_refl l h : unchanged_outside l h h.
Proof. by intros x _ _. Qed.

Lemma ll_unchanged_outside_trans l h1 h2 h3 :
  unchanged_outside l h1 h2 → unchanged_outside l h2 h3 →
  unchanged_outside l h1 h3.
Proof.
  intros H12 H23 x Hx Hsome. rewrite <- (H12 x) by done.
  apply H23; [done|]. by rewrite H12.
Qed.

Lemma ll_unchanged_outside_mono l1 l2 h h' :
  (∀ x, x ∈ l1 → x ∈ l2) → unchanged_outside l1 h h' → unchanged_outside l2 h h'.
Proof. intros Hsub H12 x Hx. apply H12. intros ?. by apply Hx, Hsub. Qed.

(** Growing the footprint by nodes that did not exist in [h]. *)
Lemma ll_unchanged_outside_fresh l l' h h' :
  (∀ x, x ∈ l' → x ∈ l ∨ h !! x = None) →
  unchanged_outside l' h h' → unchanged_outside l h h'.
Proof.
  intros Hl H12 x Hx Hsome. apply H12; [|done]. intros Hx'.
  destruct (Hl x Hx') as [?|Hnone]; [done|]. rewrite Hnone in Hsome.
  by destruct Hsome.
Qed.

Lemma ll_unchanged_outside_step l l' h h1 h2 :
  unchanged_outside l h h1 → unchanged_outside l' h1 h2 →
  (∀ x, x ∈ l' → x ∈ l ∨ h !! x = None) →
  unchanged_outside l h h2.
Proof.
  intros H1 H2 Hl x Hx Hsome. rewrite <- (H1 x) by done.
  apply H2; [|by rewrite H1]. intros Hx'.
  destruct (Hl x Hx') as [?|Hnone]; [done|]. rewrite Hnone in Hsome.
  by destruct Hsome.
Qed.

Lemma ll_ring_unchanged h h' t ps xs l :
  ring h t ps xs → unchanged_outside l h h' →
  (∀ x, x ∈ t :: ps → x ∉ l) → ring h' t ps xs.
Proof.
  intros Hr Hun Hdisj. apply (ll_ring_frame h); [done|].
  intros x Hx. unfold next, prev, item.
  rewrite Hun; [done|by apply Hdisj|by eapply ll_ring_allocated].
Qed.


Lemma ll_elem_of_parts t ps i j x :
  x ∈ t :: take i ps ++ drop j ps → x ∈ t :: ps.
Proof.
  intros [->|Hx]%elem_of_cons; [left|]. right.
  apply elem_of_app in Hx as [Hx|Hx].
  - rewrite <- (take_drop i ps). apply elem_of_app. by left.
  - rewrite <- (take_drop j ps). apply elem_of_app. by right.
Qed.

Lemma ll_ring_gap_allocated h t ps xs i j :
  ring h t ps xs →
  is_Some (h !! List.last (take i ps) t) ∧ is_Some (h !! hd t (drop j ps)).
Proof.
  intros Hr. split; apply (ll_ring_allocated _ _ _ _ _ Hr).
  - apply (ll_elem_of_parts t ps i i). rewrite app_comm_cons.
    apply elem_of_app. left. apply ll_last_elem_of.
  - pose proof (ll_hd_elem_of t (drop j ps)) as Hin.
    apply elem_of_app in Hin as [Hin|Hin%list_elem_of_singleton].
    + apply (ll_elem_of_parts t ps j j). right. apply elem_of_app. by right.
    + rewrite Hin. left.
Qed.

(** A new node in the gap between positions [i] and [j]. *)
Lemma ll_ring_new_node h t ps xs i j v :
  ring h t ps xs → (i ≤ j)%nat →
  ∃ p h',
    new_node v (List.last (take i ps) t) (hd t (drop j ps)) h = Ret p h'
    ∧ h !! p = None
    ∧ ring h' t (take i ps ++ p :: drop j ps) (take i xs ++ v :: drop j xs)
    ∧ unchanged_outside (t :: ps) h h'
    ∧ (∀ x, x ≠ p → is_Some (h !! x) → is_Some (h' !! x))
    ∧ (∀ x, x ∈ ps → x ∉ take i ps ++ drop j ps → h' !! x = h !! x).
Proof.
  intros Hr Hij.
  destruct (ll_ring_gap_allocated h t ps xs i j Hr) as [Ha Hb].
  set (a := List.last (take i ps) t) in *. set (b := hd t (drop j ps)) in *.
  destruct (ll_new_node_spec h v a b Ha Hb) as (p & h' & Hrun & Hp & Hn & Hpr & Hi).
  assert (Hfresh : ∀ x, is_Some (h !! x) → x ≠ p).
  { intros x Hx ->. rewrite Hp in Hx. by destruct Hx. }
  assert (Hin : ∀ x, x ∈ t :: take i ps ++ drop j ps → x ≠ p).
  { intros x Hx. apply Hfresh. eapply ll_ring_allocated; [done|].
    by eapply ll_elem_of_parts. }
  exists p, h'. split_and!; [done|done|..].
  - apply (ll_ring_fill h); try done.
    + intros Hx. by apply (Hin p).
    + intros x Hx Hxa. rewrite Hn.
      rewrite decide_False by (by apply Hin). by rewrite decide_False.
    + intros x Hx Hxb. rewrite Hpr.
      rewrite decide_False by (by apply Hin). by rewrite decide_False.
    + intros x Hx. rewrite Hi. rewrite decide_False; [done|].
      apply Hin. by right.
    + rewrite Hi. by rewrite decide_True.
    + split.
      * rewrite Hn. rewrite decide_False by (by apply Hfresh).
        by rewrite decide_True.
      * rewrite Hpr. by rewrite decide_True.
    + split.
      * rewrite Hn. by rewrite decide_True.
      * rewrite Hpr. rewrite decide_False by (by apply Hfresh).
        by rewrite decide_True.
  - intros x Hx Hsome. apply ll_fields_ext.
    + rewrite Hn. rewrite decide_False by (by apply Hfresh).
      rewrite decide_False; [done|]. intros ->. apply Hx.
      apply (ll_elem_of_parts t ps i i). rewrite app_comm_cons.
      apply elem_of_app. left. apply ll_last_elem_of.
    + rewrite Hpr. rewrite decide_False by (by apply Hfresh).
      rewrite decide_False; [done|]. intros ->. apply Hx.
      pose proof (ll_hd_elem_of t (drop j ps)) as Hin'.
      apply elem_of_app in Hin' as [Hin'|Hin'%list_elem_of_singleton].
      * apply (ll_elem_of_parts t ps j j). right. apply elem_of_app. by right.
      * fold b in Hin'. rewrite Hin'. left.
    + rewrite Hi. by rewrite decide_False by (by apply Hfresh).
  - intros x Hx Hsome. apply ll_item_is_Some. rewrite Hi.
    rewrite decide_False by done. by apply ll_item_is_Some.
  - intros x Hx Hout.
    assert (x ≠ p) by (apply Hfresh; eapply ll_ring_allocated; [done|by right]).
    assert (Hnd : NoDup (t :: ps)) by apply Hr.
    apply NoDup_cons in Hnd as [Ht Hnd].
    assert (x ≠ t) by (by intros ->).
    apply ll_fields_ext.
    + rewrite Hn. rewrite decide_False by done.
      rewrite decide_False; [done|]. intros ->. apply Hout.
      pose proof (ll_last_elem_of t (take i ps)) as Hl. fold a in Hl.
      apply elem_of_cons in Hl as [?|Hl]; [done|].
      apply elem_of_app. by left.
    + rewrite Hpr. rewrite decide_False by done.
      rewrite decide_False; [done|]. intros ->. apply Hout.
      pose proof (ll_hd_elem_of t (drop j ps)) as Hl. fold b in Hl.
      apply elem_of_app in Hl as [Hl|Hl%list_elem_of_singleton]; [|done].
      apply elem_of_app. by right.
    + rewrite Hi. by rewrite decide_False.
Qed.


(** Deleting the node at position [i]. *)
Lemma ll_ring_delete_node h t ps xs i p :
  ring h t ps xs → ps !! i = Some p →
  ∃ h',
    delete_node p h = Ret () h'
    ∧ h' !! p = None
    ∧ ring h' t (delete i ps) (delete i xs)
    ∧ unchanged_outside (t :: ps) h h'
    ∧ (∀ x, h !! x = None → h' !! x = None).
Proof.
  intros Hr Hp.
  pose proof (take_drop_middle _ _ _ Hp) as Hps.
  assert (Hat : prev h p = Some (List.last (take i ps) t)
                ∧ next h p = Some (hd t (drop (S i) ps))).
  { apply (ll_ring_at h t _ p _ xs). by rewrite Hps. }
  destruct Hat as [Hprev Hnext].
  destruct (ll_ring_gap_allocated h t ps xs i (S i) Hr) as [Ha Hb].
  set (a := List.last (take i ps) t) in *. set (b := hd t (drop (S i) ps)) in *.
  destruct (ll_delete_node_spec h p a b Hprev Hnext Ha Hb)
    as (h' & Hrun & Hn & Hpr & Hi).
  assert (Hnd : NoDup (t :: ps)) by apply Hr.
  assert (Hout : ∀ x, x ∈ t :: take i ps ++ drop (S i) ps → x ≠ p).
  { intros x Hx ->. rewrite <- Hps in Hnd.
    rewrite app_comm_cons in Hnd. apply NoDup_app in Hnd as (Hnd1 & Hd & Hnd2).
    rewrite app_comm_cons in Hx. apply elem_of_app in Hx as [Hx|Hx].
    - apply (Hd _ Hx). left.
    - apply NoDup_cons in Hnd2 as [? _]. done. }
  exists h'. split_and!; [done|..].
  - apply ll_item_None. rewrite Hi. by rewrite decide_True.
  - rewrite !delete_take_drop. apply (ll_ring_close h); try done; try lia.
    + intros x Hx Hxa. rewrite Hn.
      rewrite decide_False by (by apply Hout). by rewrite decide_False.
    + intros x Hx Hxb. rewrite Hpr.
      rewrite decide_False by (by apply Hout). by rewrite decide_False.
    + intros x Hx. rewrite Hi. rewrite decide_False; [done|].
      apply Hout. by right.
    + assert (a ≠ p).
      { apply Hout. rewrite app_comm_cons. apply elem_of_app. left.
        apply ll_last_elem_of. }
      assert (b ≠ p).
      { pose proof (ll_hd_elem_of t (drop (S i) ps)) as Hl.
        apply elem_of_app in Hl as [Hl|Hl%list_elem_of_singleton].
        - apply Hout. right. apply elem_of_app. by right.
        - fold b in Hl. rewrite Hl. apply Hout. left. }
      split.
      * rewrite Hn. rewrite decide_False by done. by rewrite decide_True.
      * rewrite Hpr. rewrite decide_False by done. by rewrite decide_True.
  - intros x Hx Hsome.
    assert (x ≠ p).
    { intros ->. apply Hx. right. by eapply list_elem_of_lookup_2. }
    apply ll_fields_ext.
    + rewrite Hn. rewrite decide_False by done.
      rewrite decide_False; [done|]. intros ->. apply Hx.
      apply (ll_elem_of_parts t ps i i). rewrite app_comm_cons.
      apply elem_of_app. left. apply ll_last_elem_of.
    + rewrite Hpr. rewrite decide_False by done.
      rewrite decide_False; [done|]. intros ->. apply Hx.
      pose proof (ll_hd_elem_of t (drop (S i) ps)) as Hin'.
      apply elem_of_app in Hin' as [Hin'|Hin'%list_elem_of_singleton].
      * apply (ll_elem_of_parts t ps (S i) (S i)). right. apply elem_of_app. by right.
      * fold b in Hin'. rewrite Hin'. left.
    + rewrite Hi. by rewrite decide_False.
  - intros x Hx. apply ll_item_None. rewrite Hi. case_decide; [done|].
    by apply ll_item_None.
Qed.

(** Method specifications over rings *)

Lemma ll_add_1 z : 0 ≤ z < SizeT.SIZE_MAX → SizeT.add z 1 = z + 1.
Proof. intros. unfold SizeT.add. rewrite wrap_small; lia. Qed.

Lemma ll_sub_1 z : 0 < z ≤ SizeT.SIZE_MAX → SizeT.sub z 1 = z - 1.
Proof. intros. unfold SizeT.sub. rewrite wrap_small; lia. Qed.

Lemma ll_new_node_self_spec h v :
  ∃ t h',
    new_node_self v h = Ret t h'
    ∧ h !! t = None
    ∧ ring h' t [] []
    ∧ (∀ x, is_Some (h !! x) → h' !! x = h !! x).
Proof.
  set (t := fresh (dom h)).
  exists t, (<[t := mkNode v t t]> h). split_and!.
  - done.
  - apply ll_fresh_lookup.
  - split_and!.
    + apply NoDup_singleton.
    + simpl. split; [|done]. unfold linked, next, prev.
      by rewrite lookup_insert_eq.
    + constructor.
  - intros x Hx. rewrite lookup_insert_ne; [done|]. by apply ll_fresh_ne.
Qed.

Lemma ll_default_ctor_spec h :
  ∃ t h',
    default_ctor value_type h = Ret (mkLinkedList 0 t) h'
    ∧ h !! t = None
    ∧ ring h' t [] []
    ∧ (∀ x, is_Some (h !! x) → h' !! x = h !! x).
Proof.
  set (t := fresh (dom h)).
  exists t, (<[t := mkNode value_type t t]> h). split_and!.
  - done.
  - apply ll_fresh_lookup.
  - split_and!.
    + apply NoDup_singleton.
    + simpl. split; [|done]. unfold linked, next, prev.
      by rewrite lookup_insert_eq.
    + constructor.
  - intros x Hx. rewrite lookup_insert_ne; [done|]. by apply ll_fresh_ne.
Qed.

Lemma ll_tail_load h t ps xs :
  ring h t ps xs →
  ∃ n, h !! t = Some n ∧ mPrev n = List.last ps t ∧ mNext n = hd t ps.
Proof.
  intros Hr. destruct (ll_ring_tail _ _ _ _ Hr) as [Hn Hp].
  destruct (ll_next_Some _ _ _ Hn) as (n & Hl & Hnn).
  destruct (ll_prev_Some _ _ _ Hp) as (n' & Hl' & Hpn).
  exists n. by simplify_eq.
Qed.

Lemma ll_add_spec h this ps xs v :
  ring h (mTail this) ps xs →
  ∃ p h',
    add this v h = Ret (mkLinkedList (SizeT.add (mSize this) 1) (mTail this)) h'
    ∧ h !! p = None
    ∧ ring h' (mTail this) (ps ++ [p]) (xs ++ [v])
    ∧ unchanged_outside (mTail this :: ps) h h'
    ∧ (∀ x, is_Some (h !! x) → is_Some (h' !! x)).
Proof.
  intros Hr. destruct (ll_tail_load _ _ _ _ Hr) as (n & Hl & Hpn & _).
  destruct (ll_ring_new_node h _ ps xs (length ps) (length ps) v Hr)
    as (p & h' & Hrun & Hp & Hr' & Hun & Hal & _); [done|].
  pose proof (Forall2_length _ _ _ (proj2 (proj2 Hr))) as Hlen.
  rewrite take_ge, drop_ge in Hrun by lia. simpl in Hrun.
  rewrite !take_ge, !drop_ge in Hr' by lia.
  exists p, h'. split_and!; try done.
  - unfold add. erewrite bind_Ret by (by apply ll_load_eq). rewrite Hpn.
    by erewrite bind_Ret by done.
  - intros x Hx. apply Hal; [|done]. intros ->. rewrite Hp in Hx.
    by destruct Hx.
Qed.

Lemma ll_begin_spec h this ps xs :
  ring h (mTail this) ps xs → begin this h = Ret (hd (mTail this) ps) h.
Proof.
  intros Hr. destruct (ll_tail_load _ _ _ _ Hr) as (n & Hl & _ & Hnn).
  unfold begin. erewrite bind_Ret by (by apply ll_load_eq). by rewrite Hnn.
Qed.

Lemma ll_advance_loop_spec h l n j x y :
  chain h l → l !! j = Some x → l !! (j + n)%nat = Some y →
  advance_loop n x h = Ret y h.
Proof.
  revert j x. induction n as [|n IH]; intros j x Hc Hx Hy.
  - rewrite Nat.add_0_r in Hy. by simplify_eq.
  - assert (is_Some (l !! S j)) as [z Hz].
    { apply lookup_lt_is_Some. apply lookup_lt_Some in Hy. lia. }
    destruct (ll_chain_lookup _ _ _ _ _ Hc Hx Hz) as [Hxz _].
    destruct (ll_next_Some _ _ _ Hxz) as (nx & Hl & Hnz).
    simpl. erewrite bind_Ret by (by apply ll_load_eq). rewrite Hnz.
    apply (IH (S j)); [done..|].
    by replace (S j + n)%nat with (j + S n)%nat by lia.
Qed.

Lemma ll_advance_spec h t ps xs (i : nat) p :
  ring h t ps xs → ps !! i = Some p →
  advance (hd t ps) i h = Ret p h.
Proof.
  intros Hr Hp. unfold advance. rewrite Nat2Z.id.
  apply (ll_advance_loop_spec h (t :: ps ++ [t]) i 1); [apply Hr|..].
  - simpl. destruct ps; [done|]. done.
  - simpl. by apply lookup_app_l_Some.
Qed.

Lemma ll_rangeCheck_lt this index h :
  index < mSize this → rangeCheck this index h = Ret () h.
Proof. intros. unfold rangeCheck. by rewrite bool_decide_eq_false_2 by lia. Qed.

Lemma ll_rangeCheck_ge this index h :
  mSize this ≤ index →
  rangeCheck this index h = Throw (out_of_range (pretty index)) h.
Proof. intros. unfold rangeCheck. by rewrite bool_decide_eq_true_2 by lia. Qed.

Lemma ll_ring_item h t ps xs i p x :
  ring h t ps xs → ps !! i = Some p → xs !! i = Some x →
  ∃ n, h !! p = Some n ∧ mItem n = x.
Proof.
  intros (_ & _ & Hit) Hp Hx. apply ll_item_Some.
  by apply (Forall2_lookup_lr _ _ _ _ _ _ Hit Hp Hx).
Qed.

Lemma ll_ring_lookup h t ps xs (i : nat) :
  ring h t ps xs → (i < length ps)%nat →
  ∃ p x, ps !! i = Some p ∧ xs !! i = Some x.
Proof.
  intros (_ & _ & Hit) Hi.
  destruct (lookup_lt_is_Some_2 ps i Hi) as [p Hp].
  destruct (Forall2_lookup_l _ _ _ _ _ Hit Hp) as (x & Hx & _). eauto.
Qed.

Lemma ll_get_spec h this ps xs (i : nat) x :
  ring h (mTail this) ps xs → i < mSize this → xs !! i = Some x →
  get this i h = Ret x h.
Proof.
  intros Hr Hi Hx.
  destruct (ll_ring_lookup h _ ps xs i Hr) as (p & x' & Hp & Hx').
  { rewrite (Forall2_length _ _ _ (proj2 (proj2 Hr))). by eapply lookup_lt_Some. }
  simplify_eq.
  destruct (ll_ring_item _ _ _ _ _ _ _ Hr Hp Hx) as (n & Hl & Hn).
  unfold get. erewrite bind_Ret by (by apply ll_rangeCheck_lt).
  erewrite bind_Ret by (by eapply ll_begin_spec).
  erewrite bind_Ret by (by eapply ll_advance_spec).
  erewrite bind_Ret by (by apply ll_load_eq). by rewrite Hn.
Qed.

Lemma ll_remove_spec h this ps xs (i : nat) :
  ring h (mTail this) ps xs → i < mSize this → (i < length ps)%nat →
  ∃ p h',
    remove this i h
    = Ret (mkLinkedList (SizeT.sub (mSize this) 1) (mTail this)) h'
    ∧ ps !! i = Some p
    ∧ h' !! p = None
    ∧ ring h' (mTail this) (delete i ps) (delete i xs)
    ∧ unchanged_outside (mTail this :: ps) h h'
    ∧ (∀ x, h !! x = None → h' !! x = None).
Proof.
  intros Hr Hi Hlen.
  destruct (ll_ring_lookup h _ ps xs i Hr Hlen) as (p & x & Hp & Hx).
  destruct (ll_ring_delete_node h _ ps xs i p Hr Hp)
    as (h' & Hrun & Hnone & Hr' & Hun & Hno).
  exists p, h'. split_and!; try done.
  unfold remove. erewrite bind_Ret by (by apply ll_rangeCheck_lt).
  erewrite bind_Ret by (by eapply ll_begin_spec).
  erewrite bind_Ret by (by eapply ll_advance_spec).
  unfold removeNode. by erewrite bind_Ret by done.
Qed.


Lemma ll_ring_node_at h t ps xs i p :
  ring h t ps xs → ps !! i = Some p →
  ∃ n, h !! p = Some n
       ∧ mPrev n = List.last (take i ps) t
       ∧ mNext n = hd t (drop (S i) ps)
       ∧ p ∉ t :: take i ps ++ drop (S i) ps.
Proof.
  intros Hr Hp. pose proof (take_drop_middle _ _ _ Hp) as Hps.
  assert (Hat : prev h p = Some (List.last (take i ps) t)
                ∧ next h p = Some (hd t (drop (S i) ps))).
  { apply (ll_ring_at h t _ p _ xs). by rewrite Hps. }
  destruct Hat as [Hprev Hnext].
  destruct (ll_prev_Some _ _ _ Hprev) as (n & Hn & Hna).
  destruct (ll_next_Some _ _ _ Hnext) as (n' & Hn' & Hnb). simplify_eq.
  exists n. split_and!; try done.
  assert (Hnd : NoDup (t :: ps)) by apply Hr.
  rewrite <- Hps, app_comm_cons in Hnd.
  apply NoDup_app in Hnd as (Hnd1 & Hd & Hnd2).
  rewrite app_comm_cons. intros [Hx|Hx]%elem_of_app.
  - apply (Hd _ Hx). left.
  - by apply NoDup_cons in Hnd2 as [? _].
Qed.

Lemma ll_set_spec h this ps xs (i : nat) v :
  ring h (mTail this) ps xs → i < mSize this → (i < length ps)%nat →
  ∃ p h',
    set this i v h = Ret this h'
    ∧ h !! p = None
    ∧ ring h' (mTail this) (<[i := p]> ps) (<[i := v]> xs)
    ∧ unchanged_outside (mTail this :: ps) h h'
    ∧ ∃ old, ps !! i = Some old ∧ h' !! old = None.
Proof.
  intros Hr Hi Hlen. set (t := mTail this) in *.
  destruct (ll_ring_lookup h _ ps xs i Hr Hlen) as (old & x & Hold & Hx).
  destruct (ll_ring_node_at h t ps xs i old Hr Hold) as (n & Hn & Hna & Hnb & Hout).
  destruct (ll_ring_new_node h t ps xs i (S i) v Hr)
    as (p & h1 & Hrun & Hp & Hr1 & Hun1 & Hal1 & Hkeep); [lia|].
  assert (Hop : old ≠ p).
  { intros ->. by rewrite Hp in Hn. }
  assert (H1 : h1 !! old = Some n).
  { rewrite Hkeep; [done|by eapply list_elem_of_lookup_2|].
    intros Hin. apply Hout. by right. }
  destruct (ll_link_spec h1 old old) as (h2 & Hl2 & Hn2 & Hp2 & Hi2); [eauto..|].
  destruct (ll_delete_node_spec h2 old old old) as (h3 & Hd3 & Hn3 & Hp3 & Hi3).
  { rewrite Hp2. by rewrite decide_True. }
  { rewrite Hn2. by rewrite decide_True. }
  { apply ll_item_is_Some. rewrite Hi2. apply ll_item_is_Some. eauto. }
  { apply ll_item_is_Some. rewrite Hi2. apply ll_item_is_Some. eauto. }
  assert (Hsame : ∀ y, y ≠ old → h3 !! y = h1 !! y).
  { intros y Hy. apply ll_fields_ext.
    - rewrite Hn3, Hn2. by rewrite !decide_False.
    - rewrite Hp3, Hp2. by rewrite !decide_False.
    - rewrite Hi3, Hi2. by rewrite decide_False. }
  exists p, h3. split_and!.
  - unfold set. erewrite bind_Ret by (by apply ll_rangeCheck_lt).
    erewrite bind_Ret by (by eapply ll_begin_spec).
    erewrite bind_Ret by (by eapply ll_advance_spec).
    erewrite bind_Ret by (by apply ll_load_eq).
    rewrite Hna, Hnb. erewrite bind_Ret by done.
    erewrite bind_Ret by done. by erewrite bind_Ret by done.
  - done.
  - pose proof (Forall2_length _ _ _ (proj2 (proj2 Hr))) as Hlen'.
    rewrite !insert_take_drop by lia.
    apply (ll_ring_frame h1); [done|]. intros y Hy.
    assert (y ≠ old).
    { intros ->. apply Hout. rewrite app_comm_cons in Hy |- *.
      apply elem_of_app in Hy as [Hy|Hy]; apply elem_of_app; [by left|].
      apply elem_of_cons in Hy as [?|?]; [done|by right]. }
    unfold next, prev, item. by rewrite Hsame.
  - intros y Hy Hsome. rewrite Hsame.
    + by apply Hun1.
    + intros ->. apply Hy. right. by eapply list_elem_of_lookup_2.
  - exists old. split; [done|].
    apply ll_item_None. rewrite Hi3. by rewrite decide_True.
Qed.

Lemma ll_add_at_lt_spec h this ps xs (i : nat) v :
  ring h (mTail this) ps xs → i < mSize this → (i < length ps)%nat →
  ∃ p h',
    add_at value_type this i v h
    = Ret (mkLinkedList (SizeT.add (mSize this) 1) (mTail this)) h'
    ∧ h !! p = None
    ∧ ring h' (mTail this) (take i ps ++ p :: drop i ps) (take i xs ++ v :: drop i xs)
    ∧ unchanged_outside (mTail this :: ps) h h'
    ∧ (∀ x, is_Some (h !! x) → is_Some (h' !! x)).
Proof.
  intros Hr Hi Hlen. set (t := mTail this) in *.
  destruct (ll_ring_lookup h _ ps xs i Hr Hlen) as (q & x & Hq & Hx).
  destruct (ll_ring_node_at h t ps xs i q Hr Hq) as (n & Hn & Hna & Hnb & Hout).
  destruct (ll_ring_new_node h t ps xs i i v Hr)
    as (p & h1 & Hrun & Hp & Hr1 & Hun1 & Hal1 & Hkeep); [lia|].
  assert (Hhd : hd t (drop i ps) = q) by (by erewrite drop_S by done).
  rewrite Hhd in Hrun.
  exists p, h1. split_and!; try done.
  - unfold add_at. rewrite bool_decide_eq_true_2 by done.
    erewrite bind_Ret by (by eapply ll_begin_spec).
    erewrite bind_Ret by (by eapply ll_advance_spec).
    erewrite bind_Ret by (by apply ll_load_eq).
    rewrite Hna. by erewrite bind_Ret by done.
  - intros y Hy. apply Hal1; [|done]. intros ->. rewrite Hp in Hy.
    by destruct Hy.
Qed.


Lemma ll_fill_loop_spec fuel (i index : Z) temp h qs ys :
  ring h (mTail temp) qs ys →
  0 ≤ i → index ≤ SizeT.SIZE_MAX → (Z.to_nat (index - i) ≤ fuel)%nat →
  ∃ temp' qs' h',
    fill_loop value_type fuel i index temp h = Ret temp' h'
    ∧ mTail temp' = mTail temp
    ∧ ring h' (mTail temp) (qs ++ qs')
        (ys ++ replicate (Z.to_nat (index - i)) value_type)
    ∧ length qs' = Z.to_nat (index - i)
    ∧ (∀ x, x ∈ qs' → h !! x = None)
    ∧ unchanged_outside (mTail temp :: qs) h h'
    ∧ (∀ x, is_Some (h !! x) → is_Some (h' !! x)).
Proof.
  revert i temp h qs ys.
  induction fuel as [|fuel IH]; intros i temp h qs ys Hr Hi Hmax Hfuel.
  - assert (Z.to_nat (index - i) = 0%nat) as Hz by lia.
    assert (¬ i < index) by lia.
    exists temp, [], h. simpl. rewrite bool_decide_eq_false_2 by done.
    rewrite Hz. simpl. rewrite !app_nil_r. split_and!; try done;
      try (by intros x ?%elem_of_nil); apply ll_unchanged_outside_refl.
  - simpl. case_bool_decide as Hlt.
    + destruct (ll_add_spec h temp qs ys value_type Hr)
        as (p & h1 & Hadd & Hp & Hr1 & Hun1 & Hal1).
      rewrite ll_add_1 by lia.
      destruct (IH (i + 1) (mkLinkedList (SizeT.add (mSize temp) 1) (mTail temp))
                  h1 (qs ++ [p]) (ys ++ [value_type]))
        as (temp' & qs' & h' & Hrun & Htail & Hr' & Hlen & Hfresh & Hun & Hal);
        [done|lia|lia|lia|].
      simpl in *.
      replace (Z.to_nat (index - i)) with (S (Z.to_nat (index - (i + 1)))) by lia.
      exists temp', (p :: qs'), h'. split_and!.
      * by erewrite bind_Ret by done.
      * done.
      * simpl. by rewrite <- !(assoc_L (++)) in Hr'.
      * simpl. by rewrite Hlen.
      * intros x [->|Hx]%elem_of_cons; [done|].
        destruct (h !! x) eqn:E; [|done].
        assert (is_Some (h1 !! x)) as Hs by (apply Hal1; eauto).
        rewrite (Hfresh x Hx) in Hs. by destruct Hs.
      * eapply ll_unchanged_outside_step; [done|done|].
        intros x [->|[Hx| ->%list_elem_of_singleton]%elem_of_app]%elem_of_cons.
        -- left. left.
        -- left. by right.
        -- by right.
      * intros x Hx. by apply Hal, Hal1.
    + assert (Z.to_nat (index - i) = 0%nat) as Hz by lia.
      exists temp, [], h. rewrite Hz. simpl. rewrite !app_nil_r.
      split_and!; try done;
        try (by intros x ?%elem_of_nil); apply ll_unchanged_outside_refl.
Qed.

(** The destructor *)

Lemma ll_dtor_loop_spec fuel this h ps xs :
  ring h (mTail this) ps xs →
  0 ≤ mSize this ≤ length ps → mSize this ≤ SizeT.SIZE_MAX →
  (Z.to_nat (mSize this) ≤ fuel)%nat →
  ∃ h',
    dtor_loop fuel this h = Ret (mkLinkedList 0 (mTail this)) h'
    ∧ ring h' (mTail this) (drop (Z.to_nat (mSize this)) ps)
        (drop (Z.to_nat (mSize this)) xs)
    ∧ (∀ x, x ∈ take (Z.to_nat (mSize this)) ps → h' !! x = None)
    ∧ unchanged_outside (mTail this :: ps) h h'
    ∧ (∀ x, h !! x = None → h' !! x = None).
Proof.
  revert this h ps xs.
  induction fuel as [|fuel IH]; intros [sz t] h ps xs Hr Hsz Hmax Hfuel;
    simpl in *.
  - assert (sz = 0) as -> by lia. exists h. simpl.
    split_and!; try done;
      try (by intros x ?%elem_of_nil); apply ll_unchanged_outside_refl.
  - unfold isEmpty. simpl. case_bool_decide as Hz.
    + subst sz. exists h. simpl. split_and!; try done;
        try (by intros x ?%elem_of_nil); apply ll_unchanged_outside_refl.
    + destruct ps as [|p ps]; [simpl in *; lia|].
      destruct xs as [|x xs]; [by apply proj2, proj2, Forall2_length in Hr|].
      destruct (ll_ring_delete_node h t (p :: ps) (x :: xs) 0 p Hr)
        as (h1 & Hdel & Hp & Hr1 & Hun1 & Hno1); [done|].
      simpl in Hr1.
      destruct (IH (mkLinkedList (SizeT.sub sz 1) t) h1 ps xs)
        as (h' & Hrun & Hr' & Hfreed & Hun & Hno); simpl.
      { done. }
      { rewrite ll_sub_1 by lia. simpl in Hsz. lia. }
      { rewrite ll_sub_1 by lia. lia. }
      { rewrite ll_sub_1 by lia. lia. }
      rewrite ll_sub_1 in * by lia.
      replace (Z.to_nat sz) with (S (Z.to_nat (sz - 1))) by lia.
      exists h'. split_and!.
      * erewrite bind_Ret by (by apply (ll_begin_spec h (mkLinkedList sz t) (p :: ps) (x :: xs))).
        simpl. unfold removeNode. erewrite bind_Ret; last first.
        { by erewrite bind_Ret by done. }
        simpl. by rewrite ll_sub_1 by lia.
      * done.
      * intros y [->|Hy]%elem_of_cons; [by apply Hno|by apply Hfreed].
      * eapply ll_unchanged_outside_trans; [done|].
        eapply ll_unchanged_outside_mono; [|done].
        intros y [->|Hy]%elem_of_cons; [left|right; by right].
      * intros y Hy. by apply Hno, Hno1.
Qed.

Lemma ll_dtor_spec this h ps xs :
  ring h (mTail this) ps xs →
  0 ≤ mSize this ≤ length ps → mSize this ≤ SizeT.SIZE_MAX →
  ∃ h',
    dtor this h = Ret () h'
    ∧ h' !! mTail this = None
    ∧ (∀ x, x ∈ take (Z.to_nat (mSize this)) ps → h' !! x = None)
    ∧ unchanged_outside (mTail this :: ps) h h'
    ∧ (∀ x, h !! x = None → h' !! x = None).
Proof.
  intros Hr Hsz Hmax.
  destruct (ll_dtor_loop_spec (Z.to_nat (mSize this)) this h ps xs)
    as (h1 & Hloop & Hr1 & Hfreed & Hun1 & Hno1); [done..|].
  set (t := mTail this) in *. set (k := Z.to_nat (mSize this)) in *.
  destruct (ll_ring_tail _ _ _ _ Hr1) as [Hnext Hprev].
  destruct (ll_delete_node_spec h1 t _ _ Hprev Hnext) as (h' & Hdel & Hn & Hp & Hi).
  { eapply ll_ring_allocated; [done|]. apply ll_last_elem_of. }
  { eapply ll_ring_allocated; [done|].
    pose proof (ll_hd_elem_of t (drop k ps)) as Hin.
    apply elem_of_app in Hin as [?|Hin%list_elem_of_singleton]; [by right|].
    rewrite Hin. left. }
  exists h'. split_and!.
  - unfold dtor. erewrite bind_Ret by done. done.
  - apply ll_item_None. rewrite Hi. by rewrite decide_True.
  - intros x Hx. apply ll_item_None. rewrite Hi. case_decide; [done|].
    apply ll_item_None. by apply Hfreed.
  - eapply ll_unchanged_outside_trans; [done|].
    intros x Hx Hsome. apply ll_fields_ext.
    + rewrite Hn. rewrite decide_False by (intros ->; apply Hx; left).
      rewrite decide_False; [done|]. intros ->. apply Hx.
      pose proof (ll_last_elem_of t (drop k ps)) as Hin.
      apply elem_of_cons in Hin as [->|Hin]; [left|right].
      by eapply elem_of_drop_inv.
    + rewrite Hp. rewrite decide_False by (intros ->; apply Hx; left).
      rewrite decide_False; [done|]. intros ->. apply Hx.
      pose proof (ll_hd_elem_of t (drop k ps)) as Hin.
      apply elem_of_app in Hin as [Hin|Hin%list_elem_of_singleton].
      * right. by eapply elem_of_drop_inv.
      * rewrite Hin. left.
    + rewrite Hi. by rewrite decide_False by (intros ->; apply Hx; left).
  - intros x Hx. apply ll_item_None. rewrite Hi. case_decide; [done|].
    apply ll_item_None. by apply Hno1.
Qed.


(** Splicing the chain of [t] onto the tail of the chain of [s]. *)
Lemma ll_splice_spec h s ps xs t qs ys :
  ring h s ps xs → ring h t qs ys → qs ≠ [] →
  (∀ x, x ∈ s :: ps → x ∉ t :: qs) →
  ∃ h1 h2 h',
    link (List.last ps s) (hd t qs) h = Ret () h1
    ∧ link (List.last qs t) s h1 = Ret () h2
    ∧ link t t h2 = Ret () h'
    ∧ ring h' s (ps ++ qs) (xs ++ ys)
    ∧ ring h' t [] []
    ∧ unchanged_outside (s :: ps ++ t :: qs) h h'
    ∧ (∀ x, is_Some (h' !! x) ↔ is_Some (h !! x)).
Proof.
  intros Hrs Hrt Hne Hdisj.
  destruct qs as [|f qs1]; [done|]. clear Hne.
  set (qs := f :: qs1) in *.
  set (a := List.last ps s). set (l := List.last qs t).
  assert (Ha : a ∈ s :: ps) by apply ll_last_elem_of.
  assert (Hf : f ∈ qs) by left.
  assert (Hl : l ∈ qs).
  { pose proof (ll_last_elem_of t qs) as Hin. fold l in Hin.
    apply elem_of_cons in Hin as [E|?]; [|done].
    unfold l, qs in E. rewrite ll_last_cons_default in E.
    pose proof (ll_last_elem_of f qs1) as Hin. rewrite E in Hin.
    assert (NoDup (t :: f :: qs1)) as Hnd by apply Hrt.
    by apply NoDup_cons in Hnd as [? _]. }
  assert (Hndt : NoDup (t :: qs)) by apply Hrt.
  assert (Hnds : NoDup (s :: ps)) by apply Hrs.
  assert (Hst : s ≠ t) by (intros ->; apply (Hdisj t); left).
  assert (Hqt : ∀ x, x ∈ qs → x ≠ t).
  { intros x Hx ->. by apply NoDup_cons in Hndt as [? _]. }
  assert (Hqs : ∀ x, x ∈ qs → x ∉ s :: ps).
  { intros x Hx Hx'. apply (Hdisj x Hx'). by right. }
  assert (Hps : ∀ x, x ∈ s :: ps → x ≠ t).
  { intros x Hx ->. apply (Hdisj t Hx). left. }
  assert (Hals : ∀ x, x ∈ s :: ps → is_Some (h !! x))
    by (intros x; apply (ll_ring_allocated _ _ _ _ _ Hrs)).
  assert (Halt : ∀ x, x ∈ t :: qs → is_Some (h !! x))
    by (intros x; apply (ll_ring_allocated _ _ _ _ _ Hrt)).
  destruct (ll_link_spec h a f) as (h1 & Hl1 & Hn1 & Hp1 & Hi1).
  { by apply Hals. } { apply Halt. by right. }
  assert (Hsame1 : ∀ x, is_Some (h1 !! x) ↔ is_Some (h !! x)).
  { intros x. by rewrite <- !ll_item_is_Some, Hi1. }
  destruct (ll_link_spec h1 l s) as (h2 & Hl2 & Hn2 & Hp2 & Hi2).
  { apply Hsame1, Halt. by right. } { apply Hsame1, Hals. left. }
  assert (Hsame2 : ∀ x, is_Some (h2 !! x) ↔ is_Some (h !! x)).
  { intros x. by rewrite <- Hsame1, <- !ll_item_is_Some, Hi2. }
  destruct (ll_link_spec h2 t t) as (h3 & Hl3 & Hn3 & Hp3 & Hi3).
  { apply Hsame2, Halt. left. } { apply Hsame2, Halt. left. }
  assert (Hnext : ∀ x, next h3 x = if decide (x = t) then Some t
                       else if decide (x = l) then Some s
                       else if decide (x = a) then Some f else next h x).
  { intros x. by rewrite Hn3, Hn2, Hn1. }
  assert (Hprev : ∀ x, prev h3 x = if decide (x = t) then Some t
                       else if decide (x = s) then Some l
                       else if decide (x = f) then Some a else prev h x).
  { intros x. by rewrite Hp3, Hp2, Hp1. }
  assert (Hitem : ∀ x, item h3 x = item h x).
  { intros x. by rewrite Hi3, Hi2, Hi1. }
  clear Hn1 Hn2 Hn3 Hp1 Hp2 Hp3 Hi1 Hi2 Hi3.
  exists h1, h2, h3. split_and!; [done..| | | |].
  - destruct Hrs as (_ & Hcs & Hits). destruct Hrt as (_ & Hct & Hitt).
    split_and!.
    + rewrite app_comm_cons. apply NoDup_app. split_and!; [done| |].
      * intros x Hx Hx'. by apply (Hqs x).
      * by apply NoDup_cons in Hndt as [_ ?].
    + assert (Hc1 : chain h3 (s :: ps)).
      { apply (ll_chain_frame h); [by apply (ll_chain_prefix _ _ [s])|..].
        - intros x Hx. pose proof (ll_removelast_subseteq _ _ _ Hx) as Hx'.
          rewrite Hnext. rewrite decide_False by (by apply Hps).
          rewrite decide_False by (intros ->; by apply (Hqs l)).
          rewrite decide_False; [done|]. intros ->.
          by apply (ll_last_not_front s ps).
        - intros y Hy. simpl in Hy. rewrite Hprev.
          rewrite decide_False by (apply Hps; by right).
          rewrite decide_False
            by (intros ->; by apply NoDup_cons in Hnds as [? _]).
          rewrite decide_False; [done|]. intros ->.
          apply (Hqs f Hf). by right. }
      assert (Hc2 : chain h3 qs).
      { apply (ll_chain_frame h).
        - change (chain h ([t] ++ qs ++ [t])) in Hct.
          by apply ll_chain_suffix, ll_chain_prefix in Hct.
        - intros x Hx.
          assert (x ∈ qs) by (by apply ll_removelast_subseteq).
          rewrite Hnext. rewrite decide_False by (by apply Hqt).
          rewrite decide_False.
          + rewrite decide_False; [done|]. intros ->. by apply (Hqs a).
          + intros ->. apply (ll_last_not_front f qs1).
            * by apply NoDup_cons in Hndt as [_ ?].
            * unfold l, qs in Hx. by rewrite ll_last_cons_default in Hx.
        - intros y Hy. simpl in Hy.
          assert (y ∈ qs) by (by right).
          rewrite Hprev. rewrite decide_False by (by apply Hqt).
          rewrite decide_False by (intros ->; apply (Hqs s); [done|left]).
          rewrite decide_False; [done|]. intros ->.
          apply NoDup_cons in Hndt as [_ Hndq].
          by apply NoDup_cons in Hndq as [? _]. }
      assert (Haf : linked h3 a f).
      { split.
        - rewrite Hnext. rewrite decide_False by (by apply Hps).
          rewrite decide_False by (intros E; apply (Hqs l Hl); by rewrite <- E).
          by rewrite decide_True.
        - rewrite Hprev. rewrite decide_False by (by apply Hqt).
          rewrite decide_False
            by (intros E; apply (Hqs f Hf); rewrite E; left).
          by rewrite decide_True. }
      assert (Hls : linked h3 l s).
      { split.
        - rewrite Hnext. rewrite decide_False by (by apply Hqt).
          by rewrite decide_True.
        - rewrite Hprev. rewrite decide_False by done. by rewrite decide_True. }
      replace (s :: (ps ++ qs) ++ [s])
        with (removelast (s :: ps) ++ a :: f :: qs1 ++ [s]).
      2:{ transitivity ((s :: ps) ++ qs ++ [s]).
          - rewrite (ll_split_front s ps) at 2. by rewrite <- (assoc_L (++)).
          - simpl. by rewrite <- (assoc_L (++)). }
      rewrite (ll_split_front s ps) in Hc1.
      apply ll_chain_join; [done..|].
      unfold qs in Hc2. rewrite (ll_split_front f qs1) in Hc2.
      change (chain h3 ((f :: qs1) ++ [s])).
      rewrite (ll_split_front f qs1), <- (assoc_L (++)).
      apply ll_chain_app. split; [done|].
      simpl. split; [|done]. unfold l, qs in Hls.
      by rewrite ll_last_cons_default in Hls.
    + apply Forall2_app; (eapply ll_items_frame; [done|]); intros; apply Hitem.
  - split_and!.
    + apply NoDup_singleton.
    + simpl. split; [|done]. split.
      * rewrite Hnext. by rewrite decide_True.
      * rewrite Hprev. by rewrite decide_True.
    + constructor.
  - intros x Hx Hsome.
    assert (Hxs : x ∉ s :: ps).
    { intros Hin. apply Hx. rewrite app_comm_cons. apply elem_of_app. by left. }
    assert (Hxt : x ∉ t :: qs).
    { intros Hin. apply Hx. rewrite app_comm_cons. apply elem_of_app. by right. }
    apply ll_fields_ext.
    + rewrite Hnext.
      rewrite decide_False by (intros ->; apply Hxt; left).
      rewrite decide_False by (intros ->; apply Hxt; by right).
      by rewrite decide_False by (intros ->; by apply Hxs).
    + rewrite Hprev.
      rewrite decide_False by (intros ->; apply Hxt; left).
      rewrite decide_False by (intros ->; apply Hxs; left).
      by rewrite decide_False by (intros ->; apply Hxt; by right).
    + apply Hitem.
  - intros x. by rewrite <- !ll_item_is_Some, Hitem.
Qed.


Lemma ll_unchanged_alloc h h' :
  (∀ x, is_Some (h !! x) → h' !! x = h !! x) → unchanged_outside [] h h'.
Proof. intros Hs x _ Hx. by apply Hs. Qed.

Lemma ll_add_at_ge_spec h this ps xs (index : Z) v :
  ring h (mTail this) ps xs →
  0 ≤ mSize this ≤ index → index ≤ SizeT.SIZE_MAX →
  ∃ qs h',
    add_at value_type this index v h
    = Ret (mkLinkedList (SizeT.add index 1) (mTail this)) h'
    ∧ ring h' (mTail this) (ps ++ qs)
        (xs ++ replicate (Z.to_nat (index - mSize this)) value_type ++ [v])
    ∧ length qs = S (Z.to_nat (index - mSize this))
    ∧ (∀ x, x ∈ qs → h !! x = None)
    ∧ unchanged_outside (mTail this :: ps) h h'.
Proof.
  intros Hr Hsz Hmax. set (s := mTail this) in *.
  set (n := Z.to_nat (index - mSize this)).
  assert (Hals : ∀ x, x ∈ s :: ps → is_Some (h !! x))
    by (intros x; apply (ll_ring_allocated _ _ _ _ _ Hr)).
  destruct (ll_default_ctor_spec h) as (t & h1 & Hctor & Ht & Hrt1 & Hsame1).
  assert (Hr1 : ring h1 s ps xs).
  { eapply ll_ring_unchanged; [done|by apply ll_unchanged_alloc|].
    by intros x _ ?%elem_of_nil. }
  destruct (ll_fill_loop_spec (Z.to_nat index) (mSize this) index
              (mkLinkedList 0 t) h1 [] [])
    as (temp1 & qs1 & h2 & Hfill & Htail1 & Hrt2 & Hlen1 & Hfresh1 & Hun2 & Hal2);
    [done|lia|lia|lia|].
  simpl in Htail1, Hrt2, Hun2. fold n in Hrt2, Hlen1.
  destruct (ll_add_spec h2 temp1 qs1 (replicate n value_type) v)
    as (p & h3 & Hadd & Hp & Hrt3 & Hun3 & Hal3); [by rewrite Htail1|].
  rewrite Htail1 in Hadd, Hrt3, Hun3.
  assert (Hst : ∀ x, x ∈ s :: ps → x ≠ t).
  { intros x Hx ->. apply Hals in Hx. rewrite Ht in Hx. by destruct Hx. }
  assert (Hsq : ∀ x, x ∈ s :: ps → x ∉ qs1).
  { intros x Hx Hq. apply Hals in Hx. rewrite <- Hsame1 in Hx by done.
    rewrite (Hfresh1 x Hq) in Hx. by destruct Hx. }
  assert (Hr2 : ring h2 s ps xs).
  { eapply ll_ring_unchanged; [done..|].
    intros x Hx ?%list_elem_of_singleton. by apply (Hst x). }
  assert (Hsp : ∀ x, x ∈ s :: ps → x ≠ p).
  { intros x Hx ->. apply (ll_ring_allocated _ _ _ _ _ Hr2) in Hx.
    rewrite Hp in Hx. by destruct Hx. }
  assert (Hr3 : ring h3 s ps xs).
  { eapply ll_ring_unchanged; [done..|].
    intros x Hx [->|Hq]%elem_of_cons; [by apply (Hst t)|by apply (Hsq x)]. }
  destruct (ll_tail_load _ _ _ _ Hr3) as (ns & Hls & Hps & _).
  destruct (ll_tail_load _ _ _ _ Hrt3) as (nt & Hlt & Hpt & Hnt).
  destruct (ll_splice_spec h3 s ps xs t (qs1 ++ [p]) (replicate n value_type ++ [v]))
    as (k1 & k2 & h4 & Hk1 & Hk2 & Hk3 & Hr4 & Hrt4 & Hun4 & Hsame4);
    [done|done|by destruct qs1| |].
  { intros x Hx [->|[Hq| ->%list_elem_of_singleton]%elem_of_app]%elem_of_cons.
    - by apply (Hst t).
    - by apply (Hsq x).
    - by apply (Hsp p). }
  destruct (ll_dtor_spec (mkLinkedList 0 t) h4 [] [])
    as (h5 & Hdtor & Htfree & _ & Hun5 & _); [done|simpl; lia|simpl; unfold SizeT.SIZE_MAX; done|].
  simpl in Hun5.
  exists (qs1 ++ [p]), h5. split_and!.
  - unfold add_at. rewrite bool_decide_eq_false_2 by lia.
    erewrite bind_Ret by done. unfold size.
    erewrite bind_Ret by done.
    erewrite bind_Ret by done. cbn [mTail].
    erewrite bind_Ret by (by apply ll_load_eq).
    erewrite bind_Ret by (by apply ll_load_eq).
    rewrite Hps, Hpt, Hnt.
    erewrite bind_Ret by done. erewrite bind_Ret by done.
    erewrite bind_Ret by done. by erewrite bind_Ret by done.
  - eapply ll_ring_unchanged; [done..|].
    intros x Hx ->%list_elem_of_singleton.
    rewrite app_comm_cons in Hx.
    apply elem_of_app in Hx as [Hx|[Hq| ->%list_elem_of_singleton]%elem_of_app].
    + by apply (Hst t).
    + assert (is_Some (h1 !! t)) as Hs.
      { eapply ll_ring_allocated; [exact Hrt1|left]. }
      rewrite (Hfresh1 t Hq) in Hs. by destruct Hs.
    + assert (is_Some (h2 !! p)) as Hs.
      { eapply ll_ring_allocated; [exact Hrt2|left]. }
      rewrite Hp in Hs. by destruct Hs.
  - rewrite length_app, Hlen1. simpl. lia.
  - intros x [Hq| ->%list_elem_of_singleton]%elem_of_app.
    + destruct (h !! x) eqn:E; [|done].
      rewrite <- Hsame1, (Hfresh1 x Hq) in E by eauto. done.
    + destruct (h !! p) eqn:E; [|done].
      assert (is_Some (h2 !! p)) as Hs.
      { apply Hal2. rewrite Hsame1 by eauto. eauto. }
      rewrite Hp in Hs. by destruct Hs.
  - intros x Hx Hsome.
    assert (Hx1 : h1 !! x = h !! x) by (by apply Hsame1).
    assert (x ≠ t) by (intros ->; rewrite Ht in Hsome; by destruct Hsome).
    assert (Hx2 : h2 !! x = h1 !! x).
    { apply Hun2; [by intros ->%list_elem_of_singleton|by rewrite Hx1]. }
    assert (x ∉ qs1).
    { intros Hq. rewrite (Hfresh1 x Hq) in Hx1. rewrite <- Hx1 in Hsome.
      by destruct Hsome. }
    assert (Hx3 : h3 !! x = h2 !! x).
    { apply Hun3; [|by rewrite Hx2, Hx1].
      by intros [->|?]%elem_of_cons. }
    assert (x ≠ p).
    { intros ->. rewrite Hp, Hx1 in Hx2. rewrite <- Hx2 in Hsome.
      by destruct Hsome. }
    assert (Hx4 : h4 !! x = h3 !! x).
    { apply Hun4; [|by rewrite Hx3, Hx2, Hx1].
      rewrite app_comm_cons.
      intros [?|[->|[?| ->%list_elem_of_singleton]%elem_of_app]%elem_of_cons]%elem_of_app;
        done. }
    rewrite <- Hx1, <- Hx2, <- Hx3, <- Hx4.
    apply Hun5; [by intros ->%list_elem_of_singleton|].
    by rewrite Hx4, Hx3, Hx2, Hx1.
Qed.

Lemma ll_clear_spec h this ps xs :
  ring h (mTail this) ps xs →
  0 ≤ mSize this ≤ length ps → mSize this ≤ SizeT.SIZE_MAX →
  ∃ t h0 h',
    default_ctor value_type h = Ret (mkLinkedList 0 t) h0
    ∧ clear value_type this h = Ret (mkLinkedList 0 t) h'
    ∧ h !! t = None
    ∧ ring h' t [] []
    ∧ dtor this h0 = Ret () h'
    ∧ h' !! mTail this = None
    ∧ (∀ x, x ∈ take (Z.to_nat (mSize this)) ps → h' !! x = None)
    ∧ unchanged_outside (mTail this :: ps) h h'.
Proof.
  intros Hr Hsz Hmax. set (s := mTail this) in *.
  assert (Hals : ∀ x, x ∈ s :: ps → is_Some (h !! x))
    by (intros x; apply (ll_ring_allocated _ _ _ _ _ Hr)).
  destruct (ll_default_ctor_spec h) as (t & h1 & Hctor & Ht & Hrt1 & Hsame1).
  assert (Hr1 : ring h1 s ps xs).
  { eapply ll_ring_unchanged; [done|by apply ll_unchanged_alloc|].
    by intros x _ ?%elem_of_nil. }
  destruct (ll_dtor_spec this h1 ps xs) as (h2 & Hdtor & Hsfree & Hfreed & Hun2 & Hno2);
    [done..|].
  exists t, h1, h2. split_and!; try done.
  - unfold clear. erewrite bind_Ret by done. unfold swap.
    by erewrite bind_Ret by done.
  - eapply ll_ring_unchanged; [done..|].
    intros x ->%list_elem_of_singleton Hx. apply Hals in Hx.
    rewrite Ht in Hx. by destruct Hx.
  - eapply ll_unchanged_outside_trans; [|done].
    intros x _ Hx. by apply Hsame1.
Qed.


(** Copying *)

Lemma ll_ring_step h s ps xs k p :
  ring h s ps xs → ps !! k = Some p →
  ∃ n x q, h !! p = Some n ∧ xs !! k = Some x ∧ mItem n = x
           ∧ (ps ++ [s]) !! S k = Some q ∧ mNext n = q.
Proof.
  intros Hr Hp.
  destruct (Forall2_lookup_l _ _ _ _ _ (proj2 (proj2 Hr)) Hp) as (x & Hx & Hit).
  destruct (ll_item_Some _ _ _ Hit) as (n & Hn & Hnx).
  assert (is_Some ((ps ++ [s]) !! S k)) as [q Hq].
  { apply lookup_lt_is_Some. rewrite length_app. simpl.
    apply lookup_lt_Some in Hp. lia. }
  assert (linked h p q) as [Hpq _].
  { apply (ll_chain_lookup h (s :: ps ++ [s]) (S k)); [apply Hr|..]; simpl.
    - by apply lookup_app_l_Some.
    - done. }
  destruct (ll_next_Some _ _ _ Hpq) as (n' & Hn' & Hq'). simplify_eq.
  eauto 10.
Qed.

Lemma ll_copy_loop_end fuel s temp h :
  copy_loop fuel s s temp h = Ret temp h.
Proof.
  destruct fuel; simpl; by rewrite bool_decide_eq_false_2 by (by intros []).
Qed.

Lemma ll_copy_loop_spec fuel h s ps xs temp qs ys k iter :
  ring h s ps xs → ring h (mTail temp) qs ys →
  (∀ x, x ∈ s :: ps → x ∉ mTail temp :: qs) →
  (ps ++ [s]) !! k = Some iter →
  (length ps - k ≤ fuel)%nat →
  0 ≤ mSize temp → mSize temp + (length ps - k)%nat ≤ SizeT.SIZE_MAX →
  ∃ temp' qs' h',
    copy_loop fuel iter s temp h = Ret temp' h'
    ∧ mTail temp' = mTail temp
    ∧ mSize temp' = mSize temp + (length ps - k)%nat
    ∧ ring h' s ps xs
    ∧ ring h' (mTail temp) (qs ++ qs') (ys ++ drop k xs)
    ∧ (∀ x, x ∈ qs' → h !! x = None)
    ∧ unchanged_outside (mTail temp :: qs) h h'
    ∧ (∀ x, is_Some (h !! x) → is_Some (h' !! x)).
Proof.
  revert h temp qs ys k iter.
  induction fuel as [|fuel IH];
    intros h temp qs ys k iter Hrs Hrt Hdisj Hiter Hfuel Hsz0 Hsz.
  all: pose proof (Forall2_length _ _ _ (proj2 (proj2 Hrs))) as Hlen.
  all: assert (Hk : (k ≤ length ps)%nat)
    by (apply lookup_lt_Some in Hiter; rewrite length_app in Hiter;
        simpl in Hiter; lia).
  all: destruct (decide (k = length ps)) as [->|Hne].
  1,3: rewrite list_lookup_middle in Hiter by done; simplify_eq;
    exists temp, [], h; rewrite ll_copy_loop_end;
      rewrite drop_ge, !app_nil_r by lia;
      (split_and!; [done|done|lia|done|done| | |done]);
      [by intros x ?%elem_of_nil|apply ll_unchanged_outside_refl].
  - lia.
  - rewrite lookup_app_l in Hiter by lia.
    destruct (ll_ring_step h s ps xs k iter Hrs Hiter)
      as (n & x & q & Hn & Hx & Hnx & Hq & Hnq).
    assert (Hin : iter ∈ s :: ps) by (right; by eapply list_elem_of_lookup_2).
    assert (iter ≠ s).
    { intros ->. assert (NoDup (s :: ps)) as Hnd by apply Hrs.
      apply NoDup_cons in Hnd as [Hs _]. apply Hs.
      by eapply list_elem_of_lookup_2. }
    destruct (ll_add_spec h temp qs ys x Hrt)
      as (p & h1 & Hadd & Hp & Hrt1 & Hun1 & Hal1).
    assert (Hrs1 : ring h1 s ps xs) by (by eapply ll_ring_unchanged).
    assert (Hn1 : h1 !! iter = Some n).
    { rewrite Hun1; [done|by apply Hdisj|eauto]. }
    destruct (IH h1 (mkLinkedList (SizeT.add (mSize temp) 1) (mTail temp))
                (qs ++ [p]) (ys ++ [x]) (S k) q)
      as (temp' & qs' & h' & Hrun & Htail & Hsize & Hrs' & Hrt' & Hfresh & Hun & Hal);
      simpl; try done.
    { intros y Hy [->|[Hq'| ->%list_elem_of_singleton]%elem_of_app]%elem_of_cons.
      - apply (Hdisj _ Hy). left.
      - apply (Hdisj _ Hy). by right.
      - apply (ll_ring_allocated _ _ _ _ _ Hrs) in Hy. rewrite Hp in Hy.
        by destruct Hy. }
    { lia. }
    { rewrite ll_add_1 by lia. lia. }
    { rewrite ll_add_1 by lia. lia. }
    simpl in *. rewrite ll_add_1 in Hsize by lia.
    exists temp', (p :: qs'), h'. split_and!.
    + rewrite bool_decide_eq_true_2 by done.
      erewrite bind_Ret by (by apply ll_load_eq). rewrite Hnx.
      erewrite bind_Ret by done.
      erewrite bind_Ret by (by apply ll_load_eq). by rewrite Hnq.
    + done.
    + lia.
    + done.
    + rewrite <- !(assoc_L (++)) in Hrt'. simpl in Hrt'.
      by rewrite (drop_S _ _ _ Hx).
    + intros y [->|Hy]%elem_of_cons; [done|].
      destruct (h !! y) eqn:E; [|done].
      assert (is_Some (h1 !! y)) as Hs by (apply Hal1; eauto).
      rewrite (Hfresh y Hy) in Hs. by destruct Hs.
    + eapply ll_unchanged_outside_step; [done|done|].
      intros y [->|[Hy| ->%list_elem_of_singleton]%elem_of_app]%elem_of_cons.
      * left. left.
      * left. by right.
      * by right.
    + intros y Hy. by apply Hal, Hal1.
Qed.


Lemma ll_repr_ring h this ps xs : repr h this ps xs → ring h (mTail this) ps xs.
Proof. by intros [? _]. Qed.

Lemma ll_ring_length h t ps xs : ring h t ps xs → length ps = length xs.
Proof. intros (_ & _ & Hit). by eapply Forall2_length. Qed.

Lemma ll_copy_ctor_spec fuel h src ps xs :
  repr h src ps xs → (length ps ≤ fuel)%nat →
  ∃ this qs h',
    copy_ctor value_type fuel src h = Ret this h'
    ∧ repr h' this qs xs
    ∧ repr h' src ps xs
    ∧ (∀ x, x ∈ mTail this :: qs → h !! x = None)
    ∧ (∀ x, is_Some (h !! x) → h' !! x = h !! x).
Proof.
  intros (Hr & Hsz & Hmax) Hfuel. set (s := mTail src) in *.
  assert (Hals : ∀ x, x ∈ s :: ps → is_Some (h !! x))
    by (intros x; apply (ll_ring_allocated _ _ _ _ _ Hr)).
  destruct (ll_new_node_self_spec h value_type) as (t0 & h1 & Hn0 & Ht0 & Hr0 & Hsame1).
  destruct (ll_default_ctor_spec h1) as (t & h2 & Hctor & Ht & Hrt2 & Hsame2).
  assert (Ht0' : is_Some (h1 !! t0)) by (eapply ll_ring_allocated; [done|left]).
  assert (Ht0t : t0 ≠ t) by (intros ->; rewrite Ht in Ht0'; by destruct Ht0').
  assert (Hth : h !! t = None).
  { destruct (h !! t) eqn:E; [|done]. rewrite <- Hsame1, Ht in E by eauto. done. }
  assert (Hrs2 : ring h2 s ps xs).
  { eapply ll_ring_unchanged; [| |by intros x _ ?%elem_of_nil].
    - eapply ll_ring_unchanged; [done| |by intros x _ ?%elem_of_nil].
      by apply ll_unchanged_alloc.
    - by apply ll_unchanged_alloc. }
  assert (Hr02 : ring h2 t0 [] []).
  { eapply ll_ring_unchanged; [done|by apply ll_unchanged_alloc|].
    by intros x _ ?%elem_of_nil. }
  destruct (ll_copy_loop_spec fuel h2 s ps xs (mkLinkedList 0 t) [] [] 0 (hd s ps))
    as (temp' & qs & h3 & Hloop & Htail & Hsize & Hrs3 & Hrt3 & Hfresh & Hun3 & Hal3);
    simpl; try done; try lia.
  { intros x Hx ->%list_elem_of_singleton. apply Hals in Hx.
    rewrite Hth in Hx. by destruct Hx. }
  { by destruct ps. }
  destruct temp' as [sz tl]. simpl in *. subst tl.
  rewrite drop_0 in Hrt3.
  assert (Hr03 : ring h3 t0 [] []).
  { eapply ll_ring_unchanged; [done..|].
    by intros x ->%list_elem_of_singleton ->%list_elem_of_singleton. }
  destruct (ll_dtor_spec (mkLinkedList 0 t0) h3 [] [])
    as (h4 & Hdtor & Hfree0 & _ & Hun4 & _); [done|simpl; lia|done|].
  simpl in Hun4.
  assert (Hq0 : t0 ∉ qs).
  { intros Hq. apply Hfresh in Hq. rewrite Hsame2 in Hq by done.
    rewrite Hq in Ht0'. by destruct Ht0'. }
  exists (mkLinkedList sz t), qs, h4. split_and!.
  - unfold copy_ctor. erewrite bind_Ret by done.
    erewrite bind_Ret by done.
    erewrite bind_Ret by (by eapply ll_begin_spec).
    erewrite bind_Ret by done. unfold swap.
    by erewrite bind_Ret by done.
  - split_and!; simpl.
    + eapply ll_ring_unchanged; [done..|].
      intros x [->|Hx]%elem_of_cons ->%list_elem_of_singleton; done.
    + pose proof (ll_ring_length _ _ _ _ Hrt3). pose proof (ll_ring_length _ _ _ _ Hr).
      lia.
    + lia.
  - split_and!; [|done..].
    eapply ll_ring_unchanged; [done..|].
    intros x Hx ->%list_elem_of_singleton. apply Hals in Hx.
    rewrite Ht0 in Hx. by destruct Hx.
  - intros x [->|Hx]%elem_of_cons; [done|].
    destruct (h !! x) eqn:E; [|done]. exfalso.
    assert (Hx1 : h1 !! x = h !! x) by (apply Hsame1; eauto).
    assert (Hx2 : h2 !! x = h1 !! x) by (apply Hsame2; rewrite Hx1; eauto).
    rewrite (Hfresh x Hx), Hx1, E in Hx2. done.
  - intros x Hx.
    assert (Hx1 : h1 !! x = h !! x) by (by apply Hsame1).
    assert (Hx2 : h2 !! x = h1 !! x) by (apply Hsame2; by rewrite Hx1).
    assert (x ≠ t) by (intros ->; rewrite Hth in Hx; by destruct Hx).
    assert (x ≠ t0) by (intros ->; rewrite Ht0 in Hx; by destruct Hx).
    assert (Hx3 : h3 !! x = h2 !! x).
    { apply Hun3; [by intros ->%list_elem_of_singleton|by rewrite Hx2, Hx1]. }
    rewrite <- Hx1, <- Hx2, <- Hx3.
    apply Hun4; [by intros ->%list_elem_of_singleton|by rewrite Hx3, Hx2, Hx1].
Qed.

Lemma ll_assign_spec fuel h this rhs ps0 xs0 ps xs :
  repr h this ps0 xs0 → repr h rhs ps xs →
  (∀ x, x ∈ mTail this :: ps0 → x ∉ mTail rhs :: ps) →
  (length ps ≤ fuel)%nat →
  ∃ this' qs h',
    assign value_type fuel this rhs h = Ret this' h'
    ∧ repr h' this' qs xs
    ∧ repr h' rhs ps xs
    ∧ (∀ x, x ∈ mTail this' :: qs → h !! x = None)
    ∧ (∀ x, x ∈ mTail this :: ps0 → h' !! x = None)
    ∧ unchanged_outside (mTail this :: ps0) h h'.
Proof.
  intros (Hr0 & Hsz0 & Hmax0) Hrhs Hdisj Hfuel.
  destruct (ll_copy_ctor_spec fuel h rhs ps xs Hrhs Hfuel)
    as (copy & qs & h1 & Hcopy & Hrc & Hrr & Hfresh & Hsame).
  assert (Hal0 : ∀ x, x ∈ mTail this :: ps0 → is_Some (h !! x))
    by (intros x; apply (ll_ring_allocated _ _ _ _ _ Hr0)).
  assert (Hr01 : ring h1 (mTail this) ps0 xs0).
  { eapply ll_ring_unchanged; [done|by apply ll_unchanged_alloc|].
    by intros x _ ?%elem_of_nil. }
  destruct (ll_dtor_spec this h1 ps0 xs0)
    as (h2 & Hdtor & Hfree & Hfreed & Hun & _); [done|lia|done|].
  rewrite Hsz0, Nat2Z.id, take_ge in Hfreed by lia.
  assert (Hne : mTail this ≠ mTail rhs).
  { intros E. apply (Hdisj (mTail this)); [left|rewrite E; left]. }
  assert (Hcd : ∀ x, x ∈ mTail copy :: qs → x ∉ mTail this :: ps0).
  { intros x Hx Hx'. apply Hal0 in Hx'. rewrite (Hfresh x Hx) in Hx'.
    by destruct Hx'. }
  exists copy, qs, h2. split_and!.
  - unfold assign. rewrite bool_decide_eq_true_2 by done.
    erewrite bind_Ret by done. unfold swap.
    by erewrite bind_Ret by done.
  - destruct Hrc as (Hrc & ? & ?). split_and!; [|done..].
    by eapply ll_ring_unchanged.
  - destruct Hrr as (Hrr & ? & ?). split_and!; [|done..].
    eapply ll_ring_unchanged; [done..|].
    intros x Hx Hx'. by apply (Hdisj x).
  - done.
  - intros x [->|Hx]%elem_of_cons; [done|by apply Hfreed].
  - eapply ll_unchanged_outside_trans; [|done].
    intros x _ Hx. by apply Hsame.
Qed.

(** Equality *)

Lemma ll_std_equal_end fuel s it2 h : std_equal fuel s s it2 h = Ret true h.
Proof.
  destruct fuel; simpl; by rewrite bool_decide_eq_false_2 by (by intros []).
Qed.

Lemma ll_std_equal_spec fuel h s ps xs t qs ys k it1 it2 :
  ring h s ps xs → ring h t qs ys → length ps = length qs →
  (ps ++ [s]) !! k = Some it1 → (qs ++ [t]) !! k = Some it2 →
  (length ps - k ≤ fuel)%nat →
  std_equal fuel it1 s it2 h = Ret (bool_decide (drop k xs = drop k ys)) h.
Proof.
  intros Hrs Hrt Hlen. revert k it1 it2.
  pose proof (ll_ring_length _ _ _ _ Hrs) as Hl1.
  pose proof (ll_ring_length _ _ _ _ Hrt) as Hl2.
  induction fuel as [|fuel IH]; intros k it1 it2 H1 H2 Hfuel.
  all: assert (Hk : (k ≤ length ps)%nat)
    by (apply lookup_lt_Some in H1; rewrite length_app in H1;
        simpl in H1; lia).
  all: destruct (decide (k = length ps)) as [->|Hne].
  1,3: rewrite list_lookup_middle in H1 by done; simplify_eq;
    rewrite ll_std_equal_end, !drop_ge by lia; by rewrite bool_decide_eq_true_2.
  - lia.
  - rewrite lookup_app_l in H1, H2 by lia.
    destruct (ll_ring_step h s ps xs k it1 Hrs H1)
      as (n1 & x & q1 & Hn1 & Hx & Hnx & Hq1 & Hnq1).
    destruct (ll_ring_step h t qs ys k it2 Hrt H2)
      as (n2 & y & q2 & Hn2 & Hy & Hny & Hq2 & Hnq2).
    assert (it1 ≠ s).
    { intros ->. assert (NoDup (s :: ps)) as Hnd by apply Hrs.
      apply NoDup_cons in Hnd as [Hs _]. apply Hs.
      by eapply list_elem_of_lookup_2. }
    simpl. rewrite bool_decide_eq_true_2 by done.
    erewrite bind_Ret by (by apply ll_load_eq).
    erewrite bind_Ret by (by apply ll_load_eq).
    rewrite Hnx, Hny, Hnq1, Hnq2.
    rewrite (drop_S _ _ _ Hx), (drop_S _ _ _ Hy).
    case_bool_decide as Hxy.
    + subst y. rewrite (IH (S k) q1 q2) by (done || lia).
      f_equal. apply bool_decide_ext. split; [congruence|].
      by intros [=].
    + unfold ret. f_equal. rewrite bool_decide_eq_false_2; [done|].
      by intros [=].
Qed.

Lemma ll_equal_spec fuel h this rhs ps xs qs ys :
  repr h this ps xs → repr h rhs qs ys → (length ps ≤ fuel)%nat →
  equal fuel this rhs h = Ret (bool_decide (xs = ys)) h.
Proof.
  intros (Hr1 & Hs1 & _) (Hr2 & Hs2 & _) Hfuel.
  pose proof (ll_ring_length _ _ _ _ Hr1) as Hl1.
  pose proof (ll_ring_length _ _ _ _ Hr2) as Hl2.
  unfold equal. case_bool_decide as Hsz.
  - erewrite bind_Ret by (by eapply ll_begin_spec).
    erewrite bind_Ret by (by eapply ll_begin_spec).
    rewrite <- (drop_0 xs), <- (drop_0 ys).
    eapply (ll_std_equal_spec fuel h _ ps xs _ qs ys 0); try done; try lia.
    + by destruct ps.
    + by destruct qs.
  - unfold ret. f_equal. rewrite bool_decide_eq_false_2; [done|].
    intros ->. lia.
Qed.


(** Sequences of mutating calls *)

Lemma ll_repr_owns h this ps xs : repr h this ps xs → owns h this ps xs.
Proof. intros (? & ? & ?). split_and!; [done|lia..]. Qed.

Lemma ll_wrap_bounds z :
  0 ≤ z → 0 ≤ SizeT.wrap z ∧ SizeT.wrap z ≤ z ∧ SizeT.wrap z ≤ SizeT.SIZE_MAX.
Proof.
  intros Hz. unfold SizeT.wrap, SizeT.SIZE_MAX.
  assert (0 < SizeT.modulus) by done.
  pose proof (Z.mod_pos_bound z SizeT.modulus). pose proof (Z.mod_le z SizeT.modulus).
  lia.
Qed.

Ltac arith :=
  unfold SizeT.add; rewrite ?ll_sub_1 by lia;
  rewrite ?length_app, ?length_cons, ?length_take, ?length_drop,
    ?length_insert, ?length_delete by eauto;
  simpl; lia.

Lemma ll_mutate_step m this h ps xs this' h' :
  owns h this ps xs → valid_call m →
  mutate value_type m this h = Ret this' h' →
  ∃ ps' xs',
    owns h' this' ps' xs'
    ∧ unchanged_outside (mTail this :: ps) h h'
    ∧ (∀ x, x ∈ mTail this' :: ps' → x ∈ mTail this :: ps ∨ h !! x = None).
Proof.
  intros (Hr & Hsz & Hmax) Hvalid Hrun.
  pose proof (ll_ring_length _ _ _ _ Hr) as Hlen.
  destruct m as [v|index v|index v|index|]; simpl in Hrun, Hvalid.
  - destruct (ll_add_spec h this ps xs v Hr) as (p & h1 & Hadd & Hp & Hr1 & Hun & _).
    rewrite Hadd in Hrun. simplify_eq.
    destruct (ll_wrap_bounds (mSize this + 1)) as (? & ? & ?); [lia|].
    exists (ps ++ [p]), (xs ++ [v]). unfold owns; split_and!; simpl; try done; try arith.
    + intros x [->|[?| ->%list_elem_of_singleton]%elem_of_app]%elem_of_cons.
      * left. left.
      * left. by right.
      * by right.
  - destruct Hvalid as [Hi0 Himax].
    destruct (decide (index < mSize this)) as [Hlt|Hge].
    + destruct (ll_add_at_lt_spec h this ps xs (Z.to_nat index) v Hr)
        as (p & h1 & Hadd & Hp & Hr1 & Hun & _); [lia..|].
      rewrite Z2Nat.id in Hadd by done.
      rewrite Hadd in Hrun. simplify_eq.
      destruct (ll_wrap_bounds (mSize this + 1)) as (? & ? & ?); [lia|].
      eexists _, _. unfold owns; split_and!; simpl; try done; try arith.
      * intros x [->|[Hx|[->|Hx]%elem_of_cons]%elem_of_app]%elem_of_cons.
        -- left. left.
        -- left. right. by eapply elem_of_take_inv.
        -- by right.
        -- left. right. by eapply elem_of_drop_inv.
    + destruct (ll_add_at_ge_spec h this ps xs index v Hr)
        as (qs & h1 & Hadd & Hr1 & Hlq & Hfresh & Hun); [lia..|].
      rewrite Hadd in Hrun. simplify_eq.
      destruct (ll_wrap_bounds (index + 1)) as (? & ? & ?); [lia|].
      eexists _, _. unfold owns; split_and!; simpl; try done; try arith.
      * intros x [->|[Hx|Hx]%elem_of_app]%elem_of_cons.
        -- left. left.
        -- left. by right.
        -- right. by apply Hfresh.
  - destruct Hvalid as [Hi0 Himax].
    destruct (decide (index < mSize this)) as [Hlt|Hge].
    + destruct (ll_set_spec h this ps xs (Z.to_nat index) v Hr)
        as (p & h1 & Hset & Hp & Hr1 & Hun & _); [lia..|].
      rewrite Z2Nat.id in Hset by done.
      rewrite Hset in Hrun. simplify_eq.
      eexists _, _. unfold owns; split_and!; simpl; try done; try arith.
      * rewrite insert_take_drop by lia.
        intros x [->|[Hx|[->|Hx]%elem_of_cons]%elem_of_app]%elem_of_cons.
        -- left. left.
        -- left. right. by eapply elem_of_take_inv.
        -- by right.
        -- left. right. by eapply elem_of_drop_inv.
    + unfold set in Hrun. unfold bind in Hrun at 1.
      rewrite ll_rangeCheck_ge in Hrun by lia. done.
  - destruct Hvalid as [Hi0 Himax].
    destruct (decide (index < mSize this)) as [Hlt|Hge].
    + destruct (ll_remove_spec h this ps xs (Z.to_nat index) Hr)
        as (p & h1 & Hrem & Hp & Hfree & Hr1 & Hun & _); [lia..|].
      rewrite Z2Nat.id in Hrem by done.
      rewrite Hrem in Hrun. simplify_eq.
      eexists _, _. unfold owns; split_and!; simpl; try done; try arith.
      * intros x [->|Hx]%elem_of_cons.
        -- left. left.
        -- left. right. by eapply list_elem_of_delete_inv.
    + unfold remove in Hrun. unfold bind in Hrun at 1.
      rewrite ll_rangeCheck_ge in Hrun by lia. done.
  - destruct (ll_clear_spec h this ps xs Hr)
      as (t & h0 & h1 & _ & Hclear & Ht & Hr1 & _ & _ & _ & Hun); [lia..|].
    rewrite Hclear in Hrun. simplify_eq.
    exists [], []. unfold owns; split_and!; simpl; try done; try arith.
    intros x [->|?%elem_of_nil]%elem_of_cons; [by right|done].
Qed.

Lemma ll_mutate_throw m this h ps xs e h' :
  owns h this ps xs → valid_call m →
  mutate value_type m this h = Throw e h' → h' = h.
Proof.
  intros (Hr & Hsz & Hmax) Hvalid Hrun.
  pose proof (ll_ring_length _ _ _ _ Hr) as Hlen.
  destruct m as [v|index v|index v|index|]; simpl in Hrun, Hvalid.
  - destruct (ll_add_spec h this ps xs v Hr) as (p & h1 & Hadd & _).
    by rewrite Hadd in Hrun.
  - destruct Hvalid as [Hi0 Himax].
    destruct (decide (index < mSize this)) as [Hlt|Hge].
    + destruct (ll_add_at_lt_spec h this ps xs (Z.to_nat index) v Hr)
        as (p & h1 & Hadd & _); [lia..|].
      rewrite Z2Nat.id in Hadd by done. by rewrite Hadd in Hrun.
    + destruct (ll_add_at_ge_spec h this ps xs index v Hr)
        as (qs & h1 & Hadd & _); [lia..|].
      by rewrite Hadd in Hrun.
  - destruct Hvalid as [Hi0 Himax].
    destruct (decide (index < mSize this)) as [Hlt|Hge].
    + destruct (ll_set_spec h this ps xs (Z.to_nat index) v Hr)
        as (p & h1 & Hset & _); [lia..|].
      rewrite Z2Nat.id in Hset by done. by rewrite Hset in Hrun.
    + unfold set in Hrun. unfold bind in Hrun at 1.
      rewrite ll_rangeCheck_ge in Hrun by lia. by simplify_eq.
  - destruct Hvalid as [Hi0 Himax].
    destruct (decide (index < mSize this)) as [Hlt|Hge].
    + destruct (ll_remove_spec h this ps xs (Z.to_nat index) Hr)
        as (p & h1 & Hrem & _); [lia..|].
      rewrite Z2Nat.id in Hrem by done. by rewrite Hrem in Hrun.
    + unfold remove in Hrun. unfold bind in Hrun at 1.
      rewrite ll_rangeCheck_ge in Hrun by lia. by simplify_eq.
  - destruct (ll_clear_spec h this ps xs Hr)
      as (t & h0 & h1 & _ & Hclear & _); [lia..|].
    by rewrite Hclear in Hrun.
Qed.

Lemma ll_mutate_all_frame ms this h ps xs h' :
  owns h this ps xs → Forall valid_call ms →
  store_of (mutate_all value_type ms this h) = Some h' →
  unchanged_outside (mTail this :: ps) h h'.
Proof.
  revert this h ps xs.
  induction ms as [|m ms IH]; intros this h ps xs Hown Hvalid Hrun.
  - simpl in Hrun. simplify_eq. apply ll_unchanged_outside_refl.
  - apply Forall_cons in Hvalid as [Hm Hms].
    cbn [mutate_all] in Hrun. unfold bind in Hrun at 1.
    destruct (mutate _ m this h) as [this1 h1|e h1| |] eqn:Hstep;
      simpl in Hrun; try done.
    + destruct (ll_mutate_step _ _ _ _ _ _ _ Hown Hm Hstep)
        as (ps1 & xs1 & Hown1 & Hun1 & Hprov).
      eapply ll_unchanged_outside_step; [done| |done].
      by eapply IH.
    + simplify_eq. rewrite (ll_mutate_throw _ _ _ _ _ _ _ Hown Hm Hstep).
      apply ll_unchanged_outside_refl.
Qed.

End facts.

End LinkedListFacts.

(** ** The concrete states *)

Import ArrayListFacts LinkedListFacts.

Module ExampleFacts.
Import Examples.

Lemma empty_array_repr : ArrayList.repr empty_array_store empty_array [].
Proof. exists []. by vm_compute. Qed.

Lemma full_array_repr :
  ArrayList.repr full_array_store full_array [10; 20; 30; 40].
Proof. exists []. by vm_compute. Qed.

Lemma roomy_array_repr :
  ArrayList.repr roomy_array_store roomy_array [10; 20; 30].
Proof. exists [7; 7; 7]. by vm_compute. Qed.

Lemma list_123_repr :
  LinkedList.repr list_123_store list_123 [2; 3; 4]%positive [1; 2; 3].
Proof.
  split_and!; [|done|done].
  split_and!.
  - apply (bool_decide_unpack (NoDup _)). by vm_compute.
  - by vm_compute.
  - by repeat constructor.
Qed.

Lemma empty_list_repr : LinkedList.repr empty_list_store empty_list [] [].
Proof.
  split_and!; [|done|done].
  split_and!; [|by vm_compute|constructor].
  apply (bool_decide_unpack (NoDup _)). by vm_compute.
Qed.

End ExampleFacts.

(** * The properties of the specification *)

Import Examples ExampleFacts.

(** C1: for both sequences and every index >= size(), each of get(index),
    set(index, value) and remove(index) throws std::out_of_range carrying the
    index, and the store it leaves is the store it was called in: neither
    the fields of the sequence nor any buffer or node has been touched. *)
Theorem C1_out_of_range {T} (fresh_slot : nat → T)
    (al : ArrayList.ArrayList) (ha : gmap positive (list T))
    (ll : LinkedList.LinkedList)
    (hl : gmap positive (LinkedList.LinkedListNode (T:=T))) index value :
  ArrayList.size al ≤ index →
  LinkedList.size ll ≤ index →
  ArrayList.get al index ha = Throw (out_of_range (pretty index)) ha
  ∧ ArrayList.set al index value ha = Throw (out_of_range (pretty index)) ha
  ∧ ArrayList.remove fresh_slot al index ha
    = Throw (out_of_range (pretty index)) ha
  ∧ LinkedList.get ll index hl = Throw (out_of_range (pretty index)) hl
  ∧ LinkedList.set ll index value hl = Throw (out_of_range (pretty index)) hl
  ∧ LinkedList.remove ll index hl = Throw (out_of_range (pretty index)) hl.
Proof.
  intros Ha Hl.
  pose proof (al_rangeCheck_ge al index ha Ha) as Ea.
  pose proof (ll_rangeCheck_ge ll index hl Hl) as El.
  unfold ArrayList.get, ArrayList.set, ArrayList.remove,
    LinkedList.get, LinkedList.set, LinkedList.remove, bind.
  rewrite Ea, El. done.
Qed.

Lemma C1_out_of_range_witness :
  ArrayList.get full_array 4 full_array_store
    = Throw (out_of_range "4") full_array_store
  ∧ ArrayList.set full_array 4 0 full_array_store
    = Throw (out_of_range "4") full_array_store
  ∧ ArrayList.remove fresh_slot full_array 4 full_array_store
    = Throw (out_of_range "4") full_array_store
  ∧ LinkedList.get list_123 4 list_123_store
    = Throw (out_of_range "4") list_123_store
  ∧ LinkedList.set list_123 4 0 list_123_store
    = Throw (out_of_range "4") list_123_store
  ∧ LinkedList.remove list_123 4 list_123_store
    = Throw (out_of_range "4") list_123_store.
Proof.
  apply (C1_out_of_range fresh_slot full_array full_array_store
           list_123 list_123_store 4 0); vm_compute; discriminate.
Defined.

(** C3: add(value) at full capacity is claimed to preserve the original
    elements and append value. In the capacity-4 scenario of the claim it
    does not when value is an element of the sequence itself: a.add(a.get(0))
    on the sequence 10, 20, 30, 40 swaps the new buffer in, releases the old
    one at the end of the growth block, and only then reads value, which
    refers to slot 0 of the buffer just released. *)
Theorem C3_append_reads_released_buffer :
  ArrayList.repr full_array_store full_array [10; 20; 30; 40]
  ∧ ArrayList.size full_array = ArrayList.mCapacity full_array
  ∧ ArrayList.get full_array 0 full_array_store = Ret 10 full_array_store
  ∧ ArrayList.deref (ArrayList.Slot (ArrayList.mArray full_array) 0)
      full_array_store = Ret 10 full_array_store
  ∧ ArrayList.add fresh_slot full_array
      (ArrayList.Slot (ArrayList.mArray full_array) 0) full_array_store
    = Undefined.
Proof.
  split_and!; [exact full_array_repr|reflexivity|reflexivity|reflexivity|].
  apply (al_add_released fresh_slot _ _ [10; 20; 30; 40]);
    [exact full_array_repr|reflexivity|by vm_compute].
Qed.

(** X18: when size equals capacity, the size is at most [INT_MAX] (and
    2*size+2 is a [size_t]), and value does not refer to an element of the
    sequence itself, add(value) allocates a new buffer of exactly 2*size+2
    slots and releases the old one; afterwards the capacity is 2*oldSize+2
    and the sequence holds the original elements in order followed by the
    value read through the reference. *)
Theorem X18_append_at_capacity {T} (fresh_slot : nat → T)
    (h : gmap positive (list T)) this xs value v :
  ArrayList.repr h this xs →
  ArrayList.size this = ArrayList.mCapacity this →
  2 * ArrayList.size this + 2 ≤ SizeT.SIZE_MAX →
  ArrayList.size this ≤ INT_MAX →
  ArrayList.deref value h = Ret v h →
  ArrayList.outside (ArrayList.mArray this) value →
  ∃ this' h' buf,
    ArrayList.add fresh_slot this value h = Ret this' h'
    ∧ h !! ArrayList.mArray this' = None
    ∧ h' !! ArrayList.mArray this' = Some buf
    ∧ Z.of_nat (length buf) = 2 * ArrayList.size this + 2
    ∧ h' !! ArrayList.mArray this = None
    ∧ ArrayList.mCapacity this' = 2 * ArrayList.size this + 2
    ∧ ArrayList.size this' = ArrayList.size this + 1
    ∧ ArrayList.repr h' this' (xs ++ [v]).
Proof.
  intros Hrepr Hfull Hfit Hint Hread Hout.
  destruct (al_add_spec fresh_slot h this xs value v Hrepr Hread
              (λ _, conj Hfit (conj Hint Hout)))
    as (this' & h' & Hrun & Hrepr' & Hsize & _ & Hgrow & _).
  destruct (Hgrow Hfull) as (Hcap & Hnew & Hold).
  pose proof Hrepr' as (rest & Hbuf & _ & Hlen & _).
  exists this', h', ((xs ++ [v]) ++ rest).
  split_and!; try done. unfold ArrayList.size in *. lia.
Qed.

Lemma X18_append_at_capacity_witness :
  ∃ this' h',
    ArrayList.add fresh_slot full_array (ArrayList.Val 5) full_array_store
      = Ret this' h'
    ∧ ArrayList.mCapacity this' = 10
    ∧ ArrayList.size this' = 5
    ∧ ArrayList.repr h' this' [10; 20; 30; 40; 5].
Proof.
  destruct (X18_append_at_capacity fresh_slot full_array_store full_array
              [10; 20; 30; 40] (ArrayList.Val 5) 5 full_array_repr eq_refl)
    as (this' & h' & buf & Hrun & _ & _ & _ & _ & Hcap & Hsize & Hrepr).
  { by vm_compute. }
  { by vm_compute. }
  { reflexivity. }
  { exact I. }
  by exists this', h'.
Defined.

(** C7: add(v) is claimed to leave every element stored before at its
    position. On an array sequence of 2^31 + 2 zeros at full capacity it
    does not: the growth hands [std::copy] the iterators begin() and end(),
    whose difference is returned as an [int] and comes to -2^31 + 2, so no
    element is copied; afterwards get(0) reads what [new int[n]] left in
    slot 0 of the new buffer. *)
Theorem C7_append_loses_elements :
  ArrayList.repr huge_array_store huge_array (replicate (Z.to_nat huge_size) 0)
  ∧ ArrayList.size huge_array = ArrayList.mCapacity huge_array
  ∧ ArrayList.get huge_array 0 huge_array_store = Ret 0 huge_array_store
  ∧ ∃ al' ha',
      ArrayList.add fresh_slot huge_array (ArrayList.Val 5) huge_array_store
        = Ret al' ha'
      ∧ ArrayList.size al' = huge_size + 1
      ∧ ArrayList.get al' 0 ha' = Ret 7 ha'.
Proof.
  assert (Z.of_nat (Z.to_nat huge_size) = huge_size) as Hn
    by (unfold huge_size; lia).
  assert (ArrayList.repr huge_array_store huge_array
            (replicate (Z.to_nat huge_size) 0)) as Hrepr.
  { exists []. rewrite app_nil_r, length_replicate, Hn.
    split_and!; [apply lookup_singleton_eq|reflexivity|reflexivity|by vm_compute]. }
  split_and!; [exact Hrepr|reflexivity| |].
  - apply (al_get_spec _ _ _ 0%nat _ Hrepr).
    apply lookup_replicate_2. unfold huge_size. lia.
  - destruct (al_add_truncated fresh_slot _ _ _ 5 Hrepr)
      as (al' & ha' & Hrun & Hrepr' & Hsize & _);
      [reflexivity|by vm_compute|by vm_compute|].
    exists al', ha'. split_and!; [exact Hrun|exact Hsize|].
    apply (al_get_spec _ _ _ 0%nat _ Hrepr').
    rewrite length_replicate. apply lookup_app_l_Some.
    rewrite list_lookup_fmap, lookup_seq_lt; [done|].
    unfold huge_size. lia.
Qed.

(** X19: for both sequences, add(v) increases size() by exactly 1,
    afterwards get(size()-1) is v, and every element stored before is found
    at the position it had. The size after the call is assumed to be a
    [size_t]; for the array form at full capacity, the size is assumed to
    be at most [INT_MAX] and the argument to refer to no element of the
    sequence itself. *)
Theorem X19_add_appends {T} (fresh_slot : nat → T)
    (ha : gmap positive (list T)) (al : ArrayList.ArrayList) (xs : list T)
    (hl : gmap positive (LinkedList.LinkedListNode (T:=T)))
    (ll : LinkedList.LinkedList) (ps : list positive) (ys : list T)
    value v :
  ArrayList.repr ha al xs →
  ArrayList.deref value ha = Ret v ha →
  (ArrayList.size al = ArrayList.mCapacity al →
   2 * ArrayList.size al + 2 ≤ SizeT.SIZE_MAX
   ∧ ArrayList.size al ≤ INT_MAX
   ∧ ArrayList.outside (ArrayList.mArray al) value) →
  LinkedList.repr hl ll ps ys →
  LinkedList.size ll < SizeT.SIZE_MAX →
  (∃ al' ha',
     ArrayList.add fresh_slot al value ha = Ret al' ha'
     ∧ ArrayList.size al' = ArrayList.size al + 1
     ∧ ArrayList.get al' (ArrayList.size al' - 1) ha' = Ret v ha'
     ∧ ArrayList.repr ha' al' (xs ++ [v])
     ∧ ∀ (i : nat) x, xs !! i = Some x → ArrayList.get al' i ha' = Ret x ha')
  ∧ (∃ ll' hl' p,
       LinkedList.add ll v hl = Ret ll' hl'
       ∧ LinkedList.size ll' = LinkedList.size ll + 1
       ∧ LinkedList.get ll' (LinkedList.size ll' - 1) hl' = Ret v hl'
       ∧ LinkedList.repr hl' ll' (ps ++ [p]) (ys ++ [v])
       ∧ ∀ (i : nat) y, ys !! i = Some y → LinkedList.get ll' i hl' = Ret y hl').
Proof.
  intros Ha Hread Hfit Hl Hlt. split.
  - destruct (al_add_spec fresh_slot ha al xs value v Ha Hread Hfit)
      as (al' & ha' & Hrun & Hrepr & Hsize & _).
    pose proof Ha as (_ & _ & Hlen & _).
    exists al', ha'. unfold ArrayList.size in *. split_and!; try done.
    + replace (ArrayList.mSize al' - 1) with (Z.of_nat (length xs)) by lia.
      apply (al_get_spec _ _ (xs ++ [v])); [done|].
      by rewrite lookup_app_r, Nat.sub_diag.
    + intros i x Hi. apply (al_get_spec _ _ (xs ++ [v])); [done|].
      by apply lookup_app_l_Some.
  - destruct Hl as (Hring & Hlen & Hmax).
    destruct (ll_add_spec hl ll ps ys v Hring)
      as (p & hl' & Hrun & Hfresh & Hring' & _).
    pose proof (ll_ring_length _ _ _ _ Hring) as Hys.
    unfold LinkedList.size in *.
    assert (SizeT.add (LinkedList.mSize ll) 1 = LinkedList.mSize ll + 1) as Hadd.
    { unfold SizeT.add. apply wrap_small. lia. }
    rewrite Hadd in Hrun.
    eexists _, hl', p. split; [exact Hrun|]. cbn [LinkedList.mSize].
    split_and!; try done.
    + replace (LinkedList.mSize ll + 1 - 1) with (Z.of_nat (length ys)) by lia.
      apply (ll_get_spec _ _ (ps ++ [p]) (ys ++ [v])); cbn; [done|lia|].
      by rewrite lookup_app_r, Nat.sub_diag.
    + split_and!; cbn; [done| rewrite length_app; simpl; lia | lia].
    + intros i y Hi. pose proof (lookup_lt_Some _ _ _ Hi).
      apply (ll_get_spec _ _ (ps ++ [p]) (ys ++ [v])); cbn; [done|lia|].
      by apply lookup_app_l_Some.
Qed.

Lemma X19_add_appends_witness :
  (∃ al' ha',
     ArrayList.add fresh_slot roomy_array (ArrayList.Slot 1 0) roomy_array_store
       = Ret al' ha'
     ∧ ArrayList.size al' = 4
     ∧ ArrayList.get al' 3 ha' = Ret 10 ha'
     ∧ ArrayList.repr ha' al' [10; 20; 30; 10])
  ∧ (∃ ll' hl' p,
       LinkedList.add list_123 10 list_123_store = Ret ll' hl'
       ∧ LinkedList.size ll' = 4
       ∧ LinkedList.get ll' 3 hl' = Ret 10 hl'
       ∧ LinkedList.repr hl' ll' [2; 3; 4; p]%positive [1; 2; 3; 10]).
Proof.
  destruct (X19_add_appends fresh_slot roomy_array_store roomy_array [10; 20; 30]
              list_123_store list_123 [2; 3; 4]%positive [1; 2; 3]
              (ArrayList.Slot 1 0) 10 roomy_array_repr)
    as [(al' & ha' & Ha1 & Ha2 & Ha3 & Ha4 & _)
        (ll' & hl' & p & Hl1 & Hl2 & Hl3 & Hl4 & _)].
  - reflexivity.
  - by vm_compute.
  - exact list_123_repr.
  - by vm_compute.
  - split.
    + exists al', ha'. rewrite Ha2 in Ha3. by split_and!.
    + exists ll', hl', p. rewrite Hl2 in Hl3. by split_and!.
Defined.

(** The list [add(index, value)] leaves, position by position. *)
Section inserted.
Context {A : Type} (d v : A) (i : nat) (xs : list A).
Let ys := take i xs ++ replicate (i - length xs) d ++ v :: drop i xs.

Lemma inserted_before k x :
  (k < i)%nat → xs !! k = Some x → ys !! k = Some x.
Proof.
  intros Hk Hx. pose proof (lookup_lt_Some _ _ _ Hx). unfold ys.
  rewrite lookup_app_l by (rewrite length_take; lia).
  by rewrite lookup_take_lt.
Qed.

Lemma inserted_at : ys !! i = Some v.
Proof.
  unfold ys. rewrite app_assoc.
  apply list_lookup_middle.
  rewrite length_app, length_take, length_replicate. lia.
Qed.

Lemma inserted_after k x :
  (i ≤ k)%nat → xs !! k = Some x → ys !! S k = Some x.
Proof.
  intros Hk Hx. pose proof (lookup_lt_Some _ _ _ Hx). unfold ys.
  rewrite app_assoc, lookup_app_r;
    rewrite length_app, length_take, length_replicate; [|lia].
  replace (S k - (i `min` length xs + (i - length xs)))%nat
    with (S (k - i)) by lia.
  simpl. rewrite lookup_drop. rewrite <- Hx. f_equal. lia.
Qed.

Lemma inserted_gap k :
  (length xs ≤ k < i)%nat → ys !! k = Some d.
Proof.
  intros Hk. unfold ys.
  rewrite lookup_app_r; rewrite length_take; [|lia].
  rewrite lookup_app_l by (rewrite length_replicate; lia).
  apply lookup_replicate_2. lia.
Qed.

End inserted.

(** X1: remove(i) at a valid index i decreases the size by one, removes the
    element that was at position i (the array form returns it), moves every
    later element one position down and leaves every earlier element where
    it was; for the array form, when i is the last index, or when neither
    the i elements before it nor the size - i - 1 elements after it are more
    than [INT_MAX], the largest count the array iterators can express. *)
Theorem X1_remove_shifts {T} (fresh_slot : nat → T)
    (ha : gmap positive (list T)) (al : ArrayList.ArrayList) (xs : list T)
    (hl : gmap positive (LinkedList.LinkedListNode (T:=T)))
    (ll : LinkedList.LinkedList) (ps : list positive) (ys : list T)
    (i j : nat) x y :
  ArrayList.repr ha al xs → xs !! i = Some x →
  (i + 1 < ArrayList.size al →
   i ≤ INT_MAX ∧ ArrayList.size al - (i + 1) ≤ INT_MAX) →
  LinkedList.repr hl ll ps ys → ys !! j = Some y →
  (∃ al' ha',
     ArrayList.remove fresh_slot al i ha = Ret (x, al') ha'
     ∧ ArrayList.size al' = ArrayList.size al - 1
     ∧ ArrayList.repr ha' al' (delete i xs)
     ∧ (∀ (k : nat) z, (k < i)%nat → xs !! k = Some z →
          ArrayList.get al' k ha' = Ret z ha')
     ∧ (∀ (k : nat) z, (i ≤ k)%nat → xs !! S k = Some z →
          ArrayList.get al' k ha' = Ret z ha'))
  ∧ (∃ ll' hl' p,
       LinkedList.remove ll j hl = Ret ll' hl'
       ∧ LinkedList.size ll' = LinkedList.size ll - 1
       ∧ ps !! j = Some p ∧ hl' !! p = None
       ∧ LinkedList.repr hl' ll' (delete j ps) (delete j ys)
       ∧ (∀ (k : nat) z, (k < j)%nat → ys !! k = Some z →
            LinkedList.get ll' k hl' = Ret z hl')
       ∧ (∀ (k : nat) z, (j ≤ k)%nat → ys !! S k = Some z →
            LinkedList.get ll' k hl' = Ret z hl')).
Proof.
  intros Ha Hx Hint Hl Hy. split.
  - pose proof Ha as (_ & _ & Hlen & _). unfold ArrayList.size in *.
    destruct (al_remove_spec fresh_slot ha al xs i x Ha Hx)
      as (al' & ha' & Hrun & Hrepr & Hsize & _); [lia|].
    exists al', ha'. split_and!; try done.
    + intros k z Hk Hz. apply (al_get_spec _ _ (delete i xs)); [done|].
      by rewrite list_lookup_delete_lt.
    + intros k z Hk Hz. apply (al_get_spec _ _ (delete i xs)); [done|].
      by rewrite list_lookup_delete_ge.
  - destruct Hl as (Hring & Hlen & Hmax). unfold LinkedList.size in *.
    pose proof (ll_ring_length _ _ _ _ Hring) as Hys.
    pose proof (lookup_lt_Some _ _ _ Hy) as Hj.
    destruct (ll_remove_spec hl ll ps ys j Hring)
      as (p & hl' & Hrun & Hp & Hfree & Hring' & _); [lia..|].
    assert (SizeT.sub (LinkedList.mSize ll) 1 = LinkedList.mSize ll - 1) as Hsub.
    { unfold SizeT.sub. apply wrap_small. lia. }
    rewrite Hsub in Hrun.
    eexists _, hl', p. split; [exact Hrun|]. cbn [LinkedList.mSize].
    assert (length (delete j ps) = (length ps - 1)%nat) as Hdel.
    { rewrite length_delete; [done|]. apply lookup_lt_is_Some. lia. }
    split_and!; try done.
    + split_and!; cbn; [done|lia..].
    + intros k z Hk Hz. pose proof (lookup_lt_Some _ _ _ Hz).
      apply (ll_get_spec _ _ (delete j ps) (delete j ys)); cbn; [done|lia|].
      by rewrite list_lookup_delete_lt.
    + intros k z Hk Hz. pose proof (lookup_lt_Some _ _ _ Hz).
      apply (ll_get_spec _ _ (delete j ps) (delete j ys)); cbn; [done|lia|].
      by rewrite list_lookup_delete_ge.
Qed.

Lemma X1_remove_shifts_witness :
  (∃ al' ha',
     ArrayList.remove fresh_slot roomy_array 1 roomy_array_store
       = Ret (20, al') ha'
     ∧ ArrayList.size al' = 2
     ∧ ArrayList.repr ha' al' [10; 30])
  ∧ (∃ ll' hl',
       LinkedList.remove list_123 1 list_123_store = Ret ll' hl'
       ∧ LinkedList.size ll' = 2
       ∧ LinkedList.repr hl' ll' [2; 4]%positive [1; 3]).
Proof.
  destruct (X1_remove_shifts fresh_slot roomy_array_store roomy_array [10; 20; 30]
              list_123_store list_123 [2; 3; 4]%positive [1; 2; 3]
              1 1 20 2 roomy_array_repr eq_refl)
    as [(al' & ha' & Ha1 & Ha2 & Ha3 & _)
        (ll' & hl' & p & Hl1 & Hl2 & _ & _ & Hl3 & _)].
  - by vm_compute.
  - exact list_123_repr.
  - reflexivity.
  - split.
    + by exists al', ha'.
    + by exists ll', hl'.
Defined.

(** C2: remove(i) at a valid index is claimed to remove the element at i
    and shift the later ones down, for every sequence. At this input the
    array form does not: index 2^31 is valid for an array sequence of
    2^31 + 2 elements, but [begin() + index] takes an [int], the sum points
    2^31 elements before the buffer, and [std::copy] is handed the range
    from [begin()] to there. *)
Theorem C2_remove_index_beyond_int :
  ArrayList.repr huge_array_store huge_array (replicate (Z.to_nat huge_size) 0)
  ∧ 2147483648 < ArrayList.size huge_array
  ∧ ArrayList.remove fresh_slot huge_array 2147483648 huge_array_store
    = Undefined.
Proof.
  assert (Z.of_nat (Z.to_nat huge_size) = huge_size) as Hn
    by (unfold huge_size; lia).
  split_and!.
  - exists []. rewrite app_nil_r, length_replicate, Hn.
    split_and!.
    + apply lookup_singleton_eq.
    + reflexivity.
    + reflexivity.
    + by vm_compute.
  - by vm_compute.
  - apply (al_remove_truncated _ _ _ _ 0).
    + by vm_compute.
    + by vm_compute.
    + unfold ArrayList.read, huge_array, huge_array_store.
      cbn [ArrayList.mArray]. rewrite lookup_singleton_eq.
      rewrite bool_decide_eq_true_2 by lia.
      rewrite lookup_replicate_2; [done|]. unfold huge_size. lia.
    + by vm_compute.
Qed.

(** C4: add(index, value) on an array sequence, for the indices at which
    2*(max(index, size)+1) does not wrap around. The result has size
    max(index, size)+1 and capacity twice that; the elements before
    min(index, size) are where they were, those from index on are one
    position to the right, the positions from size up to index hold
    default-constructed values, and position index holds value. Calls that
    copy a range of more than [INT_MAX] elements, whose length the array
    iterators cannot express, are left out: the two ranges copied are
    [0, min(index, size)) and, when index < size, [index, size). *)
Theorem C4_insert_at {T} (value_type : T) (fresh_slot : nat → T)
    (h : gmap positive (list T)) this xs (index : nat) value :
  ArrayList.repr h this xs →
  2 * (Z.max index (ArrayList.size this) + 1) ≤ SizeT.SIZE_MAX →
  Z.min index (ArrayList.size this) ≤ INT_MAX →
  (index < ArrayList.size this → ArrayList.size this - index ≤ INT_MAX) →
  ∃ this' h',
    ArrayList.add_at value_type fresh_slot this index value h = Ret this' h'
    ∧ ArrayList.size this' = Z.max index (ArrayList.size this) + 1
    ∧ ArrayList.mCapacity this' = 2 * (Z.max index (ArrayList.size this) + 1)
    ∧ ArrayList.repr h' this'
        (take index xs ++ replicate (index - length xs) value_type
           ++ value :: drop index xs)
    ∧ ArrayList.get this' index h' = Ret value h'
    ∧ (∀ (k : nat) x, (k < index)%nat → xs !! k = Some x →
         ArrayList.get this' k h' = Ret x h')
    ∧ (∀ (k : nat) x, (index ≤ k)%nat → xs !! k = Some x →
         ArrayList.get this' (S k) h' = Ret x h')
    ∧ (∀ k : nat, (length xs ≤ k < index)%nat →
         ArrayList.get this' k h' = Ret value_type h').
Proof.
  intros Hrepr Hfit Hint Hint'. unfold ArrayList.size in *.
  destruct (al_add_at_spec value_type fresh_slot h this xs index value
              Hrepr Hfit Hint Hint')
    as (this' & h' & Hrun & Hrepr' & Hsize & Hcap & _).
  exists this', h'. split_and!; try done.
  - apply (al_get_spec _ _ _ _ _ Hrepr'), inserted_at.
  - intros k x Hk Hx. by apply (al_get_spec _ _ _ _ _ Hrepr'), inserted_before.
  - intros k x Hk Hx. by apply (al_get_spec _ _ _ _ _ Hrepr'), inserted_after.
  - intros k Hk. by apply (al_get_spec _ _ _ _ _ Hrepr'), inserted_gap.
Qed.

Lemma C4_insert_at_witness :
  ∃ this' h',
    ArrayList.add_at 0 fresh_slot empty_array 0 5 empty_array_store
      = Ret this' h'
    ∧ ArrayList.size this' = 1
    ∧ ArrayList.mCapacity this' = 2
    ∧ ArrayList.repr h' this' [5]
    ∧ ArrayList.get this' 0 h' = Ret 5 h'.
Proof.
  destruct (C4_insert_at 0 fresh_slot empty_array_store empty_array [] 0%nat 5
              empty_array_repr)
    as (this' & h' & H1 & H2 & H3 & H4 & H5 & _).
  - by vm_compute.
  - by vm_compute.
  - by vm_compute.
  - by exists this', h'.
Defined.

(** C4, where it fails: for index 2^63 on an empty array sequence
    2*(index+1) wraps around to 2, a buffer of 2 slots is allocated, and the
    gap [size, index) is filled past its end. *)
Lemma C4_insert_at_overflow :
  ArrayList.repr empty_array_store empty_array []
  ∧ SizeT.valid 9223372036854775808
  ∧ ArrayList.add_at 0 fresh_slot empty_array 9223372036854775808 5
      empty_array_store = Undefined.
Proof.
  split_and!; [exact empty_array_repr|by vm_compute|by vm_compute].
Qed.

(** C10: wherever twice the resulting size is a [size_t], each operation
    that allocates a buffer to grow leaves the capacity at exactly twice the
    resulting size when it returns: the size-and-value constructor,
    add(value) at full capacity, and add(index, value). The constructor
    always returns; add(value) does for every object that is no element of
    the sequence, and add(index, value) whenever min(index, size) fits the
    [int] of the iterator sum. The copy constructor returns with the
    capacity equal to the size. *)
Theorem C10_capacity_rule {T} (value_type : T) (fresh_slot : nat → T)
    (h : gmap positive (list T)) this xs (n index : nat) value v :
  ArrayList.repr h this xs →
  (2 * n ≤ SizeT.SIZE_MAX →
   ∃ a h', ArrayList.ctor fresh_slot n v h = Ret a h'
     ∧ ArrayList.size a = n
     ∧ ArrayList.mCapacity a = 2 * ArrayList.size a)
  ∧ (ArrayList.size this = ArrayList.mCapacity this →
     2 * (ArrayList.size this + 1) ≤ SizeT.SIZE_MAX →
     (∀ a h', ArrayList.add fresh_slot this value h = Ret a h' →
        ArrayList.size a = ArrayList.size this + 1
        ∧ ArrayList.mCapacity a = 2 * ArrayList.size a)
     ∧ ∃ a h', ArrayList.add fresh_slot this (ArrayList.Val v) h = Ret a h')
  ∧ (2 * (Z.max index (ArrayList.size this) + 1) ≤ SizeT.SIZE_MAX →
     (∀ a h',
        ArrayList.add_at value_type fresh_slot this index v h = Ret a h' →
        ArrayList.size a = Z.max index (ArrayList.size this) + 1
        ∧ ArrayList.mCapacity a = 2 * ArrayList.size a)
     ∧ (Z.min index (ArrayList.size this) ≤ INT_MAX →
        ∃ a h',
          ArrayList.add_at value_type fresh_slot this index v h = Ret a h'))
  ∧ (∃ a h', ArrayList.copy_ctor fresh_slot this h = Ret a h'
       ∧ ArrayList.size a = ArrayList.size this
       ∧ ArrayList.mCapacity a = ArrayList.size a).
Proof.
  intros Hrepr. pose proof Hrepr as (_ & _ & Hlen & _ & Hmax).
  unfold ArrayList.size. split_and!.
  - intros Hfit.
    destruct (al_ctor_spec fresh_slot h n v Hfit)
      as (a & h' & Hrun & _ & Hsize & Hcap & _).
    exists a, h'. split_and!; [done..|lia].
  - intros Hfull Hfit. split.
    + intros a h' Hrun.
      apply al_add_sizes in Hrun as (Hsize & Hcap & _).
      rewrite Hsize, Hcap by lia. unfold SizeT.add, SizeT.mul.
      rewrite (wrap_small (2 * _)) by lia. rewrite !wrap_small by lia. lia.
    + apply (al_add_returns fresh_slot h this xs v Hrepr). lia.
  - intros Hfit. split.
    + intros a h' Hrun.
      apply al_add_at_sizes in Hrun as (Hsize & Hcap).
      rewrite Hcap, Hsize. unfold SizeT.add, SizeT.mul.
      rewrite (wrap_small (_ + 1)) by lia. rewrite wrap_small by lia. lia.
    + intros Hint.
      by apply (al_add_at_returns value_type fresh_slot h this xs index v).
  - destruct (al_copy_ctor_returns fresh_slot h this xs Hrepr)
      as (a & h' & Hrun & Hsize & Hcap & _).
    exists a, h'. split_and!; [done..|lia].
Qed.

Lemma C10_capacity_rule_witness :
  (∃ a h', ArrayList.ctor fresh_slot 3 5 full_array_store = Ret a h'
     ∧ ArrayList.size a = 3 ∧ ArrayList.mCapacity a = 6)
  ∧ (∃ a h',
       ArrayList.add fresh_slot full_array (ArrayList.Val 5) full_array_store
         = Ret a h'
       ∧ ArrayList.size a = 5 ∧ ArrayList.mCapacity a = 10)
  ∧ (∃ a h',
       ArrayList.add_at 0 fresh_slot full_array 1 5 full_array_store = Ret a h'
       ∧ ArrayList.size a = 5 ∧ ArrayList.mCapacity a = 10)
  ∧ (∃ a h', ArrayList.copy_ctor fresh_slot full_array full_array_store = Ret a h'
       ∧ ArrayList.size a = 4 ∧ ArrayList.mCapacity a = 4).
Proof.
  destruct (C10_capacity_rule 0 fresh_slot full_array_store full_array
              [10; 20; 30; 40] 3%nat 1%nat (ArrayList.Val 5) 5 full_array_repr)
    as (Hctor & Hadd & Hins & (a4 & h4 & R4 & S4 & C4)).
  destruct Hctor as (a1 & h1 & R1 & S1 & C1); [by vm_compute|].
  destruct Hadd as (Hrule2 & a2 & h2 & R2); [reflexivity|by vm_compute|].
  destruct (Hrule2 a2 h2 R2) as (S2 & C2).
  destruct Hins as (Hrule3 & Hret3); [by vm_compute|].
  destruct Hret3 as (a3 & h3 & R3); [by vm_compute|].
  destruct (Hrule3 a3 h3 R3) as (S3 & C3).
  rewrite S1 in C1. rewrite S2 in C2. rewrite S3 in C3. rewrite S4 in C4.
  split_and!.
  - exists a1, h1. split_and!; [exact R1|exact S1|exact C1].
  - exists a2, h2. split_and!; [exact R2|exact S2|exact C2].
  - exists a3, h3. split_and!; [exact R3|exact S3|exact C3].
  - exists a4, h4. split_and!; [exact R4|exact S4|exact C4].
Defined.

(** C10, where it fails: for size 2^63 the constructor computes the capacity
    2 * 2^63, which wraps around to 0; it allocates a buffer of no slots and
    fills 2^63 of them. *)
Lemma C10_constructor_overflow :
  SizeT.valid 9223372036854775808
  ∧ SizeT.mul 9223372036854775808 2 = 0
  ∧ ArrayList.ctor fresh_slot 9223372036854775808 5 ∅ = Undefined.
Proof. split_and!; by vm_compute. Qed.

(** C5: on a linked sequence, add(index, value) with index >= size appends
    index - size default-valued elements and then value; the first size
    elements stay where they were, size() becomes index + 1 (assumed to be a
    [size_t]), the positions from the old size up to index hold the default
    value and get(index) is value. *)
Theorem C5_linked_add_beyond_end {T} (value_type : T)
    (h : gmap positive (LinkedList.LinkedListNode (T:=T)))
    this ps xs index value :
  LinkedList.repr h this ps xs →
  LinkedList.size this ≤ index →
  index < SizeT.SIZE_MAX →
  ∃ this' qs h',
    LinkedList.add_at value_type this index value h = Ret this' h'
    ∧ LinkedList.size this' = index + 1
    ∧ LinkedList.repr h' this' (ps ++ qs)
        (xs ++ replicate (Z.to_nat (index - LinkedList.size this)) value_type
            ++ [value])
    ∧ (∀ x, x ∈ qs → h !! x = None)
    ∧ LinkedList.get this' index h' = Ret value h'
    ∧ (∀ k : nat, LinkedList.size this ≤ k < index →
         LinkedList.get this' k h' = Ret value_type h')
    ∧ (∀ (k : nat) x, xs !! k = Some x →
         LinkedList.get this' k h' = Ret x h').
Proof.
  intros (Hring & Hlen & Hmax) Hge Hlt. unfold LinkedList.size in *.
  pose proof (ll_ring_length _ _ _ _ Hring) as Hxs.
  destruct (ll_add_at_ge_spec value_type h this ps xs index value Hring)
    as (qs & h' & Hrun & Hring' & Hqs & Hfresh & _); [lia..|].
  assert (SizeT.add index 1 = index + 1) as Hadd.
  { unfold SizeT.add. apply wrap_small. lia. }
  rewrite Hadd in Hrun.
  set (gap := Z.to_nat (index - LinkedList.mSize this)) in *.
  eexists _, qs, h'. split; [exact Hrun|]. cbn [LinkedList.mSize].
  assert (∀ (k : nat) x,
    (xs ++ replicate gap value_type ++ [value]) !! k = Some x →
    LinkedList.get {| LinkedList.mSize := index + 1;
                      LinkedList.mTail := LinkedList.mTail this |} k h'
      = Ret x h') as Hget.
  { intros k x Hk. apply lookup_lt_Some in Hk as Hk'.
    rewrite !length_app, length_replicate in Hk'. simpl in Hk'.
    eapply ll_get_spec; [exact Hring'| |exact Hk]. cbn. lia. }
  split_and!; try done.
  - split_and!; cbn; [done| |lia]. rewrite length_app, Hqs. lia.
  - replace index with (Z.of_nat (length xs + gap)) at 2 by lia.
    apply Hget. rewrite app_assoc. apply list_lookup_middle.
    by rewrite length_app, length_replicate.
  - intros k Hk. apply Hget.
    rewrite lookup_app_r by lia.
    rewrite lookup_app_l by (rewrite length_replicate; lia).
    apply lookup_replicate_2. lia.
  - intros k x Hk. apply Hget. by apply lookup_app_l_Some.
Qed.

Lemma C5_linked_add_beyond_end_witness :
  ∃ this' qs h',
    LinkedList.add_at 0 list_123 5 9 list_123_store = Ret this' h'
    ∧ LinkedList.size this' = 6
    ∧ LinkedList.repr h' this' ([2; 3; 4]%positive ++ qs) [1; 2; 3; 0; 0; 9]
    ∧ LinkedList.get this' 5 h' = Ret 9 h'.
Proof.
  destruct (C5_linked_add_beyond_end 0 list_123_store list_123
              [2; 3; 4]%positive [1; 2; 3] 5 9 list_123_repr)
    as (this' & qs & h' & H1 & H2 & H3 & _ & H4 & _).
  - by vm_compute.
  - by vm_compute.
  - exists this', qs, h'. split_and!; [exact H1|exact H2|exact H3|exact H4].
Defined.

(** C9: for both sequences clear() returns normally and leaves the object a
    default constructor builds, in the store that constructor leaves once
    the old buffer (the old nodes, dummy included) has been released; the
    sequence is empty, and a second clear() returns normally and leaves it
    empty again. *)
Theorem C9_clear {T} (value_type : T) (fresh_slot : nat → T)
    (ha : gmap positive (list T)) (al : ArrayList.ArrayList) (xs : list T)
    (hl : gmap positive (LinkedList.LinkedListNode (T:=T)))
    (ll : LinkedList.LinkedList) (ps : list positive) (ys : list T) :
  ArrayList.repr ha al xs →
  LinkedList.repr hl ll ps ys →
  (∃ al' h0 ha',
     ArrayList.default_ctor value_type fresh_slot ha = Ret al' h0
     ∧ ArrayList.clear value_type fresh_slot al ha = Ret al' ha'
     ∧ ha' = delete (ArrayList.mArray al) h0
     ∧ ha' !! ArrayList.mArray al = None
     ∧ ArrayList.size al' = 0 ∧ ArrayList.mCapacity al' = 0
     ∧ ArrayList.repr ha' al' []
     ∧ ∃ al'' ha'',
         ArrayList.clear value_type fresh_slot al' ha' = Ret al'' ha''
         ∧ ArrayList.size al'' = 0
         ∧ ArrayList.repr ha'' al'' [])
  ∧ (∃ ll' h0 hl',
       LinkedList.default_ctor value_type hl = Ret ll' h0
       ∧ LinkedList.clear value_type ll hl = Ret ll' hl'
       ∧ LinkedList.dtor ll h0 = Ret () hl'
       ∧ (∀ x, x ∈ LinkedList.mTail ll :: ps → hl' !! x = None)
       ∧ LinkedList.size ll' = 0
       ∧ LinkedList.repr hl' ll' [] []
       ∧ ∃ ll'' hl'',
           LinkedList.clear value_type ll' hl' = Ret ll'' hl''
           ∧ LinkedList.size ll'' = 0
           ∧ LinkedList.repr hl'' ll'' [] []).
Proof.
  intros Ha (Hring & Hlen & Hmax). split.
  - destruct Ha as (rest & Hbuf & _).
    destruct (al_clear_spec value_type fresh_slot ha al)
      as (al' & h0 & Hctor & Hrun & Hrepr & Hsize & Hcap & _); [by eexists|].
    pose proof Hrepr as (rest' & Hbuf' & _).
    destruct (al_clear_spec value_type fresh_slot
                (delete (ArrayList.mArray al) h0) al')
      as (al'' & h1 & _ & Hrun' & Hrepr' & Hsize' & _); [by eexists|].
    exists al', h0, (delete (ArrayList.mArray al) h0).
    split_and!; try done.
    + apply lookup_delete_eq.
    + by exists al'', (delete (ArrayList.mArray al') h1).
  - destruct (ll_clear_spec value_type hl ll ps ys Hring)
      as (t & h0 & hl' & Hctor & Hrun & _ & Hring' & Hdtor & Htail & Hfree & _);
      [lia..|].
    destruct (ll_clear_spec value_type hl'
                (LinkedList.mkLinkedList 0 t) [] [] Hring')
      as (t' & h1 & hl'' & _ & Hrun' & _ & Hring'' & _); [done..|].
    eexists _, h0, hl'. split; [exact Hctor|].
    split_and!; try done.
    + intros x [->|Hx]%elem_of_cons; [done|]. apply Hfree.
      rewrite take_ge; [done|]. lia.
    + eexists _, hl''. split; [exact Hrun'|]. done.
Qed.

Lemma C9_clear_witness :
  (∃ al' ha',
     ArrayList.clear 0 fresh_slot full_array full_array_store = Ret al' ha'
     ∧ ArrayList.size al' = 0 ∧ ArrayList.mCapacity al' = 0
     ∧ ArrayList.repr ha' al' []
     ∧ ∃ al'' ha'',
         ArrayList.clear 0 fresh_slot al' ha' = Ret al'' ha''
         ∧ ArrayList.size al'' = 0)
  ∧ (∃ ll' hl',
       LinkedList.clear 0 list_123 list_123_store = Ret ll' hl'
       ∧ LinkedList.size ll' = 0
       ∧ LinkedList.repr hl' ll' [] []
       ∧ ∃ ll'' hl'',
           LinkedList.clear 0 ll' hl' = Ret ll'' hl''
           ∧ LinkedList.size ll'' = 0).
Proof.
  destruct (C9_clear 0 fresh_slot full_array_store full_array [10; 20; 30; 40]
              list_123_store list_123 [2; 3; 4]%positive [1; 2; 3]
              full_array_repr list_123_repr)
    as [(al' & h0 & ha' & _ & A1 & _ & _ & A2 & A3 & A4 & al'' & ha'' & A5 & A6 & _)
        (ll' & h1 & hl' & _ & L1 & _ & _ & L2 & L3 & ll'' & hl'' & L4 & L5 & _)].
  split.
  - exists al', ha'. split_and!; [exact A1|exact A2|exact A3|exact A4|].
    exists al'', ha''. split; [exact A5|exact A6].
  - exists ll', hl'. split_and!; [exact L1|exact L2|exact L3|].
    exists ll'', hl''. split; [exact L4|exact L5].
Defined.

(** Two array sequences with the same contents in different buffers. *)
Lemma al_independent_intro {T} `{EqDecision T} (value_type : T)
    (fresh_slot : nat → T) (h : gmap positive (list T)) a b xs :
  ArrayList.repr h a xs → ArrayList.repr h b xs →
  ArrayList.mArray a ≠ ArrayList.mArray b →
  ArrayList.independent value_type fresh_slot h a b xs.
Proof.
  intros Ha Hb Hne. split_and!; [done|done|..].
  - rewrite (al_equal_spec h b a xs xs Hb Ha). by rewrite bool_decide_eq_true_2.
  - intros ms h' Hrun. apply (al_repr_frame h); [done|].
    apply (al_mutate_all_frame value_type fresh_slot ms b); [done|done|].
    destruct Ha as (rest & -> & _). by eexists.
  - intros ms h' Hrun. apply (al_repr_frame h); [done|].
    apply (al_mutate_all_frame value_type fresh_slot ms a); [done|done|].
    destruct Hb as (rest & -> & _). by eexists.
Qed.

(** Two linked sequences with the same contents in disjoint nodes. *)
Lemma ll_independent_intro {T} `{EqDecision T} (value_type : T) (fuel : nat)
    (h : gmap positive (LinkedList.LinkedListNode (T:=T))) a ps b qs xs :
  LinkedList.repr h a ps xs → LinkedList.repr h b qs xs →
  (∀ x, x ∈ LinkedList.mTail b :: qs → x ∉ LinkedList.mTail a :: ps) →
  (length qs ≤ fuel)%nat →
  LinkedList.independent value_type fuel h a ps b qs xs.
Proof.
  intros Ha Hb Hdisj Hfuel. split_and!; [done|done|..].
  - rewrite (ll_equal_spec fuel h b a qs xs ps xs Hb Ha Hfuel).
    by rewrite bool_decide_eq_true_2.
  - intros ms h' Hms Hrun. destruct Ha as (Hring & Hsize).
    split; [|done].
    apply (ll_ring_unchanged h h' _ _ _ (LinkedList.mTail b :: qs)); [done| |].
    + eapply ll_mutate_all_frame; [by apply ll_repr_owns|done|done].
    + intros x Hx Hx'. by apply (Hdisj x).
  - intros ms h' Hms Hrun. destruct Hb as (Hring & Hsize).
    split; [|done].
    apply (ll_ring_unchanged h h' _ _ _ (LinkedList.mTail a :: ps)); [done| |].
    + eapply ll_mutate_all_frame; [by apply ll_repr_owns|done|done].
    + done.
Qed.

(** C8: copy-constructing from S is claimed to yield a T with T == S. For
    an array sequence S of 2^31 + 2 zeros it does not: the copy constructor
    hands [std::copy] the iterators src.begin() and src.end(), whose
    difference is returned as an [int] and comes to -2^31 + 2, so no element
    is copied; T has the size of S, its slots are as [new int[n]] left
    them, and T == S is false. *)
Theorem C8_copy_loses_elements :
  ArrayList.repr huge_array_store huge_array (replicate (Z.to_nat huge_size) 0)
  ∧ ∃ ta ha',
      ArrayList.copy_ctor fresh_slot huge_array huge_array_store = Ret ta ha'
      ∧ ArrayList.size ta = ArrayList.size huge_array
      ∧ ArrayList.get huge_array 0 ha' = Ret 0 ha'
      ∧ ArrayList.get ta 0 ha' = Ret 7 ha'
      ∧ ArrayList.equal ta huge_array ha' = Ret false ha'.
Proof.
  assert (Z.of_nat (Z.to_nat huge_size) = huge_size) as Hn
    by (unfold huge_size; lia).
  assert (0 < Z.to_nat huge_size)%nat as Hpos by (unfold huge_size; lia).
  assert (ArrayList.repr huge_array_store huge_array
            (replicate (Z.to_nat huge_size) 0)) as Hrepr.
  { exists []. rewrite app_nil_r, length_replicate, Hn.
    split_and!; [apply lookup_singleton_eq|reflexivity|reflexivity|by vm_compute]. }
  split; [exact Hrepr|].
  destruct (al_copy_ctor_truncated fresh_slot _ _ _ Hrepr)
    as (ta & ha' & Hrun & Hta & Hsa); [by vm_compute|].
  rewrite length_replicate in Hta.
  assert ((fresh_slot <$> seq 0 (Z.to_nat huge_size)) !! 0%nat = Some 7) as H0.
  { by rewrite list_lookup_fmap, lookup_seq_lt. }
  assert (replicate (Z.to_nat huge_size) 0 !! 0%nat = Some 0) as H0'.
  { by apply lookup_replicate_2. }
  exists ta, ha'. split_and!.
  - exact Hrun.
  - unfold ArrayList.size. destruct Hta as (_ & _ & -> & _).
    rewrite al_length_fresh_buf. exact Hn.
  - exact (al_get_spec _ _ _ 0%nat _ Hsa H0').
  - exact (al_get_spec _ _ _ 0%nat _ Hta H0).
  - rewrite (al_equal_spec _ _ _ _ _ Hta Hsa).
    rewrite bool_decide_eq_false_2; [done|].
    intros E. rewrite E in H0. congruence.
Qed.

(** X20: for both sequences, the copy constructor and the assignment from S
    to another sequence yield a T with T == S, and no sequence of calls to
    add, set, remove and clear on T changes what S holds, nor the other way
    round. An array sequence S is assumed to hold at most [INT_MAX]
    elements. For the linked form the fuel bounds the loops of the copy and
    of the comparison. *)
Theorem X20_value_semantics {T} `{EqDecision T} (value_type : T)
    (fresh_slot : nat → T) (fuel : nat)
    (ha : gmap positive (list T)) (sa : ArrayList.ArrayList) (xs : list T)
    (hl : gmap positive (LinkedList.LinkedListNode (T:=T)))
    (sl : LinkedList.LinkedList) (ps : list positive) (ys : list T) :
  ArrayList.repr ha sa xs →
  length xs ≤ INT_MAX →
  LinkedList.repr hl sl ps ys →
  (length ps ≤ fuel)%nat →
  (∃ ta ha',
     ArrayList.copy_ctor fresh_slot sa ha = Ret ta ha'
     ∧ ArrayList.independent value_type fresh_slot ha' sa ta xs)
  ∧ (∀ ta0 zs,
       ArrayList.repr ha ta0 zs →
       ArrayList.mArray ta0 ≠ ArrayList.mArray sa →
       ∃ ta ha',
         ArrayList.assign fresh_slot ta0 sa ha = Ret ta ha'
         ∧ ArrayList.independent value_type fresh_slot ha' sa ta xs)
  ∧ (∃ tl qs hl',
       LinkedList.copy_ctor value_type fuel sl hl = Ret tl hl'
       ∧ LinkedList.independent value_type fuel hl' sl ps tl qs ys)
  ∧ (∀ tl0 ps0 zs,
       LinkedList.repr hl tl0 ps0 zs →
       (∀ x, x ∈ LinkedList.mTail tl0 :: ps0 → x ∉ LinkedList.mTail sl :: ps) →
       ∃ tl qs hl',
         LinkedList.assign value_type fuel tl0 sl hl = Ret tl hl'
         ∧ LinkedList.independent value_type fuel hl' sl ps tl qs ys).
Proof.
  intros Ha Hint Hl Hfuel. split_and!.
  - destruct (al_copy_ctor_spec fresh_slot ha sa xs Ha Hint)
      as (ta & ha' & Hrun & Hta & _ & _ & Hnew & Hframe).
    pose proof Ha as (rest & Hbuf & _).
    exists ta, ha'. split; [done|].
    apply al_independent_intro; [|done|].
    + apply (al_repr_frame ha); [done|]. apply Hframe. by eexists.
    + intros E. rewrite <- E, Hbuf in Hnew. done.
  - intros ta0 zs Hta0 Hne.
    destruct (al_assign_spec fresh_slot ha ta0 sa zs xs Hta0 Ha Hne Hint)
      as (ta & ha' & Hrun & Hta & Hsa & _ & Hne' & _).
    exists ta, ha'. split; [done|]. by apply al_independent_intro.
  - destruct (ll_copy_ctor_spec value_type fuel hl sl ps ys Hl Hfuel)
      as (tl & qs & hl' & Hrun & Htl & Hsl & Hnew & _).
    exists tl, qs, hl'. split; [done|].
    apply ll_independent_intro; [done|done| |].
    + intros x Hx Hx'. apply Hnew in Hx.
      destruct (ll_ring_allocated hl _ _ _ x (ll_repr_ring _ _ _ _ Hl) Hx')
        as [n Hn]. congruence.
    + pose proof (ll_ring_length _ _ _ _ (ll_repr_ring _ _ _ _ Htl)).
      pose proof (ll_ring_length _ _ _ _ (ll_repr_ring _ _ _ _ Hsl)). lia.
  - intros tl0 ps0 zs Htl0 Hdisj.
    destruct (ll_assign_spec value_type fuel hl tl0 sl ps0 zs ps ys
                Htl0 Hl Hdisj Hfuel)
      as (tl & qs & hl' & Hrun & Htl & Hsl & Hnew & _).
    exists tl, qs, hl'. split; [done|].
    apply ll_independent_intro; [done|done| |].
    + intros x Hx Hx'. apply Hnew in Hx.
      destruct (ll_ring_allocated hl _ _ _ x (ll_repr_ring _ _ _ _ Hl) Hx')
        as [n Hn]. congruence.
    + pose proof (ll_ring_length _ _ _ _ (ll_repr_ring _ _ _ _ Htl)).
      pose proof (ll_ring_length _ _ _ _ (ll_repr_ring _ _ _ _ Hsl)). lia.
Qed.

Lemma X20_value_semantics_witness :
  (∃ ta ha',
     ArrayList.copy_ctor fresh_slot full_array full_array_store = Ret ta ha'
     ∧ ArrayList.equal ta full_array ha' = Ret true ha'
     ∧ ∃ h'',
         store_of (ArrayList.mutate_all 0 fresh_slot
                     [ArrayList.CallAdd (ArrayList.Val 5);
                      ArrayList.CallSet 0 8;
                      ArrayList.CallRemove 1; ArrayList.CallClear] ta ha')
           = Some h''
         ∧ ArrayList.repr h'' full_array [10; 20; 30; 40])
  ∧ (∃ tl qs hl',
       LinkedList.copy_ctor 0 3 list_123 list_123_store = Ret tl hl'
       ∧ LinkedList.equal 3 tl list_123 hl' = Ret true hl'
       ∧ ∃ h'',
           store_of (LinkedList.mutate_all 0
                       [LinkedList.CallAdd 5; LinkedList.CallSet 0 8;
                        LinkedList.CallRemove 1; LinkedList.CallClear]
                       list_123 hl')
             = Some h''
           ∧ LinkedList.repr h'' tl qs [1; 2; 3]).
Proof.
  destruct (X20_value_semantics 0 fresh_slot 3
              full_array_store full_array [10; 20; 30; 40]
              list_123_store list_123 [2; 3; 4]%positive [1; 2; 3]
              full_array_repr)
    as ((ta & ha' & Ra & _ & _ & Ea & Ma & _) & _
        & (tl & qs & hl' & Rl & _ & _ & El & _ & Ml) & _).
  { by vm_compute. }
  { exact list_123_repr. }
  { simpl. lia. }
  split.
  - exists ta, ha'. split; [exact Ra|]. split; [exact Ea|].
    vm_compute in Ra. injection Ra as <- <-.
    lazymatch goal with
    | |- ∃ h'', ?run = Some h'' ∧ _ =>
        assert (∃ h'', run = Some h'') as [h'' E]
          by (eexists; vm_compute; reflexivity)
    end.
    exists h''. split; [exact E|exact (Ma _ _ E)].
  - exists tl, qs, hl'. split; [exact Rl|]. split; [exact El|].
    vm_compute in Rl. injection Rl as <- <-.
    lazymatch goal with
    | |- ∃ h'', ?run = Some h'' ∧ _ =>
        assert (∃ h'', run = Some h'') as [h'' E]
          by (eexists; vm_compute; reflexivity)
    end.
    exists h''. split; [exact E|]. refine (Ml _ _ _ E).
    repeat constructor; by vm_compute.
Defined.

(** ** The adapters over both sequences *)

Module AdapterFacts.
Import Adapters.

Section generic.
Context {C S V : Type} (K : Container C S V).

Lemma underflow_on_empty (mContainer : C) (s : S) :
  c_size K mContainer = 0 →
  pop K mContainer s = Throw Underflow s
  ∧ top K mContainer s = Throw Underflow s
  ∧ dequeue K mContainer s = Throw Underflow s
  ∧ front K mContainer s = Throw Underflow s.
Proof.
  intros Hsize. unfold pop, top, dequeue, front, isEmpty.
  by rewrite bool_decide_eq_true_2.
Qed.

Context (L : Lawful K).

Lemma push_all_spec vs s c xs :
  holds K s c xs → length xs + length vs ≤ max_len K →
  ∃ c' s', push_all K vs c s = Ret c' s' ∧ holds K s' c' (xs ++ vs).
Proof.
  revert s c xs. induction vs as [|v vs IH]; intros s c xs Hc Hlen.
  - exists c, s. by rewrite app_nil_r.
  - simpl in Hlen.
    destruct (law_add K s c xs v Hc) as (c1 & s1 & Hadd & Hc1); [lia|].
    destruct (IH s1 c1 (xs ++ [v]) Hc1) as (c' & s' & Hrun & Hc').
    { rewrite length_app. simpl. lia. }
    exists c', s'. split.
    + cbn [push_all]. unfold push. by erewrite bind_Ret.
    + by rewrite <- app_assoc in Hc'.
Qed.

Lemma last_index s c xs x :
  holds K s c (xs ++ [x]) →
  isEmpty K c = false ∧ SizeT.sub (c_size K c) 1 = length xs.
Proof.
  intros Hc. destruct (law_size K _ _ _ Hc) as [Hsize Hmax].
  rewrite length_app in Hsize, Hmax. simpl in Hsize, Hmax.
  split.
  - unfold isEmpty. apply bool_decide_eq_false_2. lia.
  - unfold SizeT.sub. rewrite Hsize.
    replace (Z.of_nat (length xs + 1) - 1) with (Z.of_nat (length xs)) by lia.
    apply wrap_small. lia.
Qed.

Lemma pop_all_spec vs s c xs :
  holds K s c (xs ++ vs) →
  ∃ c' s', pop_all K (length vs) c s = Ret (rev vs, c') s' ∧ holds K s' c' xs.
Proof.
  revert s c. induction vs as [|v vs IH] using rev_ind; intros s c Hc.
  - exists c, s. by rewrite app_nil_r in Hc.
  - rewrite app_assoc in Hc.
    destruct (last_index _ _ _ _ Hc) as [Hne Hidx].
    pose proof (law_get_last K _ _ _ _ Hc) as Hget.
    destruct (law_remove_last K _ _ _ _ Hc) as (c1 & s1 & Hrem & Hc1).
    destruct (IH s1 c1 Hc1) as (c' & s' & Hrun & Hc').
    exists c', s'. split; [|done].
    rewrite length_app, Nat.add_1_r, rev_unit. cbn [pop_all].
    unfold top, pop. rewrite Hne, Hidx.
    erewrite bind_Ret by exact Hget.
    erewrite bind_Ret by exact Hrem.
    erewrite bind_Ret by exact Hrun. done.
Qed.

Lemma lifo vs s c xs :
  holds K s c xs → length xs + length vs ≤ max_len K →
  ∃ c' s',
    (do c1 <- push_all K vs c; pop_all K (length vs) c1) s = Ret (rev vs, c') s'
    ∧ holds K s' c' xs.
Proof.
  intros Hc Hlen.
  destruct (push_all_spec vs s c xs Hc Hlen) as (c1 & s1 & Hpush & Hc1).
  destruct (pop_all_spec vs s1 c1 xs Hc1) as (c' & s' & Hpop & Hc').
  exists c', s'. split; [|done]. by erewrite bind_Ret.
Qed.

End generic.

(** Both sequences obey the laws. *)
Definition ArrayList_Lawful {T} (value_type : T) (fresh_slot : nat → T) :
  Lawful (ArrayList_Container value_type fresh_slot).
Proof.
  refine {| holds := λ h c xs, ArrayList.repr h c xs;
            max_len := INT_MAX + 1 |}.
  - intros h c xs (rest & _ & Hsize & Hcap & Hmax). cbn.
    unfold ArrayList.size. rewrite length_app in Hcap. lia.
  - intros h c xs v Hc Hlen. cbn.
    pose proof Hc as (_ & _ & Hsize & _).
    destruct (al_add_spec fresh_slot h c xs (ArrayList.Val v) v Hc eq_refl)
      as (c' & h' & Hrun & Hc' & _).
    { intros _. split_and!; [|lia|exact I].
      unfold SizeT.SIZE_MAX, SizeT.modulus, SizeT.bits, INT_MAX in *. lia. }
    by exists c', h'.
  - intros h c xs x Hc. cbn. apply (al_get_spec _ _ _ _ _ Hc).
    by apply list_lookup_middle.
  - intros h c xs x Hc. cbn.
    destruct (al_remove_spec fresh_slot h c (xs ++ [x]) (length xs) x Hc)
      as (c' & h' & Hrun & Hc' & _).
    { by apply list_lookup_middle. }
    { rewrite length_app. simpl. lia. }
    exists c', h'. split.
    + erewrite bind_Ret by exact Hrun. done.
    + by rewrite delete_middle, app_nil_r in Hc'.
Defined.

Definition LinkedList_Lawful {T} (value_type : T) :
  Lawful (LinkedList_Container value_type).
Proof.
  refine {| holds := λ h c xs, ∃ ps, LinkedList.repr h c ps xs;
            max_len := SizeT.SIZE_MAX - 1 |}.
  - intros h c xs (ps & Hring & Hsize & Hmax). cbn.
    pose proof (ll_ring_length _ _ _ _ Hring). unfold LinkedList.size. lia.
  - intros h c xs v (ps & Hring & Hsize & Hmax) Hlen. cbn.
    pose proof (ll_ring_length _ _ _ _ Hring).
    destruct (ll_add_spec h c ps xs v Hring) as (p & h' & Hrun & _ & Hring' & _).
    eexists _, h'. split; [exact Hrun|]. exists (ps ++ [p]).
    assert (SizeT.add (LinkedList.mSize c) 1 = LinkedList.mSize c + 1) as ->.
    { unfold SizeT.add. apply wrap_small. lia. }
    split_and!; cbn; [done| |lia]. rewrite length_app. simpl. lia.
  - intros h c xs x (ps & Hring & Hsize & Hmax). cbn.
    pose proof (ll_ring_length _ _ _ _ Hring) as Hl.
    rewrite length_app in Hl. simpl in Hl.
    apply (ll_get_spec _ _ _ _ _ _ Hring); [lia|].
    by apply list_lookup_middle.
  - intros h c xs x (ps & Hring & Hsize & Hmax). cbn.
    pose proof (ll_ring_length _ _ _ _ Hring) as Hl.
    rewrite length_app in Hl. simpl in Hl.
    destruct (ll_remove_spec h c ps (xs ++ [x]) (length xs) Hring)
      as (p & h' & Hrun & _ & _ & Hring' & _); [lia..|].
    eexists _, h'. split; [exact Hrun|]. exists (delete (length xs) ps).
    rewrite delete_middle, app_nil_r in Hring'.
    assert (SizeT.sub (LinkedList.mSize c) 1 = LinkedList.mSize c - 1) as ->.
    { unfold SizeT.sub. apply wrap_small. lia. }
    split_and!; cbn; [done| |lia].
    rewrite length_delete by (apply lookup_lt_is_Some; lia). lia.
Defined.

End AdapterFacts.

(** C6: a stack is claimed to hand back what was pushed, last in first
    out. An array-backed stack onto which 2^32 - 2 zeros have been pushed
    does not: its container is at full capacity, push(5) grows the buffer,
    [std::copy] takes the count 2^32 - 2 as the [int] -2 and copies nothing,
    and once top and pop have handed back the 5, the next top reads what
    [new int[n]] left in the slot, not the 0 pushed before. *)
Theorem C6_array_stack_loses_elements :
  ArrayList.repr brim_array_store brim_array
    (replicate (Z.to_nat brim_size) 0)
  ∧ Adapters.top (Adapters.ArrayList_Container 0 fresh_slot)
      brim_array brim_array_store = Ret 0 brim_array_store
  ∧ ∃ stack h stack' h',
      Adapters.push (Adapters.ArrayList_Container 0 fresh_slot)
        brim_array 5 brim_array_store = Ret stack h
      ∧ Adapters.pop_all (Adapters.ArrayList_Container 0 fresh_slot)
          2 stack h = Ret ([5; 7], stack') h'.
Proof.
  assert (Z.of_nat (Z.to_nat brim_size) = brim_size) as Hn
    by (unfold brim_size; lia).
  assert (ArrayList.repr brim_array_store brim_array
            (replicate (Z.to_nat brim_size) 0)) as Hrepr.
  { exists []. rewrite app_nil_r, length_replicate, Hn.
    split_and!; [apply lookup_singleton_eq|reflexivity|reflexivity|by vm_compute]. }
  split_and!; [exact Hrepr| |].
  - unfold Adapters.top, Adapters.isEmpty. cbn [Adapters.c_size Adapters.c_get
      Adapters.ArrayList_Container].
    rewrite bool_decide_eq_false_2 by (by vm_compute).
    change (SizeT.sub (ArrayList.size brim_array) 1) with 4294967293.
    replace 4294967293 with (Z.of_nat (Z.to_nat 4294967293)) by lia.
    apply (al_get_spec _ _ _ _ _ Hrepr).
    apply lookup_replicate_2. unfold brim_size. lia.
  - destruct (al_add_truncated fresh_slot _ _ _ 5 Hrepr)
      as (stack & h & Hpush & Hstack & _);
      [reflexivity|by vm_compute|by vm_compute|].
    rewrite length_replicate in Hstack.
    replace (Z.to_nat brim_size) with (S (Z.to_nat (brim_size - 1))) in Hstack
      by (unfold brim_size; lia).
    rewrite seq_S, fmap_app, <- (assoc_L (++)) in Hstack.
    destruct (AdapterFacts.pop_all_spec _
                (AdapterFacts.ArrayList_Lawful 0 fresh_slot)
                [7; 5] h stack _ Hstack)
      as (stack' & h' & Hpop & _).
    exists stack, h, stack', h'. split; [exact Hpush|exact Hpop].
Qed.

(** X21: on an empty stack or queue adapter, over any container, each of
    pop, top, dequeue and front throws Underflow, which is not the
    sequence's out_of_range, before the container is consulted; and on a
    stack over either sequence, pushing the values v1..vn, objects of the
    caller's, and then reading top and popping n times reads vn..v1 and
    leaves the stack as it was. The sizes reached are assumed to stay
    within [INT_MAX] + 1 for the array-backed stack and below [SIZE_MAX]
    for the linked one. *)
Theorem X21_adapters {C S V} (K : Adapters.Container C S V)
    {T} (value_type : T) (fresh_slot : nat → T) :
  (∀ (mContainer : C) (s : S),
     Adapters.c_size K mContainer = 0 →
     Adapters.pop K mContainer s = Throw Underflow s
     ∧ Adapters.top K mContainer s = Throw Underflow s
     ∧ Adapters.dequeue K mContainer s = Throw Underflow s
     ∧ Adapters.front K mContainer s = Throw Underflow s)
  ∧ (∀ what, Underflow ≠ out_of_range what)
  ∧ (∀ h stack xs vs,
       ArrayList.repr h stack xs →
       length xs + length vs ≤ INT_MAX + 1 →
       ∃ stack' h',
         (do pushed <- Adapters.push_all
                         (Adapters.ArrayList_Container value_type fresh_slot)
                         vs stack;
          Adapters.pop_all
            (Adapters.ArrayList_Container value_type fresh_slot)
            (length vs) pushed) h
           = Ret (rev vs, stack') h'
         ∧ ArrayList.repr h' stack' xs)
  ∧ (∀ h stack ps xs vs,
       LinkedList.repr h stack ps xs →
       length xs + length vs < SizeT.SIZE_MAX →
       ∃ stack' ps' h',
         (do pushed <- Adapters.push_all
                         (Adapters.LinkedList_Container value_type) vs stack;
          Adapters.pop_all (Adapters.LinkedList_Container value_type)
            (length vs) pushed) h
           = Ret (rev vs, stack') h'
         ∧ LinkedList.repr h' stack' ps' xs).
Proof.
  split_and!.
  - apply AdapterFacts.underflow_on_empty.
  - done.
  - intros h stack xs vs Hrepr Hlen.
    apply (AdapterFacts.lifo _
             (AdapterFacts.ArrayList_Lawful value_type fresh_slot)
             vs h stack xs Hrepr Hlen).
  - intros h stack ps xs vs Hrepr Hlen.
    destruct (AdapterFacts.lifo _ (AdapterFacts.LinkedList_Lawful value_type)
                vs h stack xs) as (stack' & h' & Hrun & ps' & Hrepr').
    + by exists ps.
    + cbn. lia.
    + by exists stack', ps', h'.
Qed.

Lemma X21_adapters_witness :
  Adapters.pop (Adapters.LinkedList_Container 0) empty_list empty_list_store
    = Throw Underflow empty_list_store
  ∧ Adapters.front (Adapters.LinkedList_Container 0) empty_list empty_list_store
    = Throw Underflow empty_list_store
  ∧ (∃ stack' h',
       (do pushed <- Adapters.push_all
                       (Adapters.ArrayList_Container 0 fresh_slot)
                       [1; 2; 3] empty_array;
        Adapters.pop_all (Adapters.ArrayList_Container 0 fresh_slot)
          3 pushed) empty_array_store
         = Ret ([3; 2; 1], stack') h')
  ∧ (∃ stack' h',
       (do pushed <- Adapters.push_all (Adapters.LinkedList_Container 0)
                       [1; 2; 3] empty_list;
        Adapters.pop_all (Adapters.LinkedList_Container 0) 3 pushed)
         empty_list_store
         = Ret ([3; 2; 1], stack') h').
Proof.
  destruct (X21_adapters (Adapters.LinkedList_Container 0) 0 fresh_slot)
    as (Hempty & _ & Harray & Hlist).
  destruct (Hempty empty_list empty_list_store eq_refl) as (Hpop & _ & _ & Hfront).
  destruct (Harray empty_array_store empty_array [] [1; 2; 3] empty_array_repr)
    as (sa & ha & Ra & _); [by vm_compute|].
  destruct (Hlist empty_list_store empty_list [] [] [1; 2; 3] empty_list_repr)
    as (sl & ps' & hl & Rl & _); [by vm_compute|].
  split_and!; [exact Hpop|exact Hfront| |].
  - exists sa, ha. exact Ra.
  - exists sl, hl. exact Rl.
Defined.

(** X2: on a linked sequence, add(index, value) with index < size links one
    new node in front of the node at index: the size grows by one (assumed
    to be a [size_t]), value is at index, the elements before index stay and
    those from index on are one position further. *)
Theorem X2_linked_insert_inside {T} (value_type : T)
    (h : gmap positive (LinkedList.LinkedListNode (T:=T)))
    this ps xs (index : nat) value :
  LinkedList.repr h this ps xs →
  index < LinkedList.size this →
  LinkedList.size this < SizeT.SIZE_MAX →
  ∃ this' p h',
    LinkedList.add_at value_type this index value h = Ret this' h'
    ∧ h !! p = None
    ∧ LinkedList.size this' = LinkedList.size this + 1
    ∧ LinkedList.repr h' this' (take index ps ++ p :: drop index ps)
        (take index xs ++ value :: drop index xs)
    ∧ LinkedList.get this' index h' = Ret value h'.
Proof.
  intros (Hring & Hlen & Hmax) Hlt Hfit. unfold LinkedList.size in *.
  pose proof (ll_ring_length _ _ _ _ Hring) as Hxs.
  destruct (ll_add_at_lt_spec value_type h this ps xs index value Hring)
    as (p & h' & Hrun & Hfresh & Hring' & _); [lia..|].
  assert (SizeT.add (LinkedList.mSize this) 1 = LinkedList.mSize this + 1)
    as Hadd.
  { unfold SizeT.add. apply wrap_small. lia. }
  rewrite Hadd in Hrun.
  eexists _, p, h'. split; [exact Hrun|]. cbn [LinkedList.mSize].
  split_and!; try done.
  - split_and!; cbn; [done| |lia].
    rewrite length_app, length_take, length_cons, length_drop. lia.
  - eapply ll_get_spec; [exact Hring'|cbn; lia|].
    apply list_lookup_middle. rewrite length_take. lia.
Qed.

Lemma X2_linked_insert_inside_witness :
  ∃ this' p h',
    LinkedList.add_at 0 list_123 1 9 list_123_store = Ret this' h'
    ∧ LinkedList.size this' = 4
    ∧ LinkedList.repr h' this' [2; p; 3; 4]%positive [1; 9; 2; 3]
    ∧ LinkedList.get this' 1 h' = Ret 9 h'.
Proof.
  destruct (X2_linked_insert_inside 0 list_123_store list_123
              [2; 3; 4]%positive [1; 2; 3] 1%nat 9 list_123_repr)
    as (this' & p & h' & H1 & _ & H2 & H3 & H4).
  - by vm_compute.
  - by vm_compute.
  - exists this', p, h'. split_and!; [exact H1|exact H2|exact H3|exact H4].
Defined.

(** X3: for both sequences, set(index, value) at a valid index leaves the
    size as it was, puts value at index and keeps every other element; the
    linked form does it by linking a newly allocated node in the place of
    the node that held the element, and deletes that node. *)
Theorem X3_set_replaces {T}
    (ha : gmap positive (list T)) (al : ArrayList.ArrayList) (xs : list T)
    (hl : gmap positive (LinkedList.LinkedListNode (T:=T)))
    (ll : LinkedList.LinkedList) (ps : list positive) (ys : list T)
    (i j : nat) value :
  ArrayList.repr ha al xs → i < ArrayList.size al →
  LinkedList.repr hl ll ps ys → j < LinkedList.size ll →
  (∃ ha',
     ArrayList.set al i value ha = Ret al ha'
     ∧ ArrayList.repr ha' al (<[i := value]> xs)
     ∧ ArrayList.get al i ha' = Ret value ha')
  ∧ (∃ p old hl',
       LinkedList.set ll j value hl = Ret ll hl'
       ∧ hl !! p = None
       ∧ ps !! j = Some old ∧ hl' !! old = None
       ∧ LinkedList.repr hl' ll (<[j := p]> ps) (<[j := value]> ys)
       ∧ LinkedList.get ll j hl' = Ret value hl').
Proof.
  intros Ha Hi (Hring & Hlen & Hmax) Hj.
  unfold ArrayList.size, LinkedList.size in *. split.
  - pose proof Ha as (_ & _ & Hsize & _).
    destruct (al_set_spec ha al xs i value Ha) as (ha' & Hrun & Hrepr & _);
      [lia|].
    exists ha'. split_and!; [done..|].
    apply (al_get_spec _ _ _ _ _ Hrepr).
    apply list_lookup_insert_eq. lia.
  - pose proof (ll_ring_length _ _ _ _ Hring) as Hys.
    destruct (ll_set_spec hl ll ps ys j value Hring)
      as (p & hl' & Hrun & Hfresh & Hring' & _ & old & Hold & Hfreed);
      [lia..|].
    exists p, old, hl'. split_and!; [done..| |].
    + split_and!; [done| |done]. rewrite length_insert. lia.
    + eapply ll_get_spec; [exact Hring'|lia|].
      apply list_lookup_insert_eq. lia.
Qed.

Lemma X3_set_replaces_witness :
  (∃ ha',
     ArrayList.set roomy_array 1 9 roomy_array_store = Ret roomy_array ha'
     ∧ ArrayList.repr ha' roomy_array [10; 9; 30])
  ∧ (∃ p hl',
       LinkedList.set list_123 1 9 list_123_store = Ret list_123 hl'
       ∧ hl' !! 3%positive = None
       ∧ LinkedList.repr hl' list_123 [2; p; 4]%positive [1; 9; 3]).
Proof.
  destruct (X3_set_replaces roomy_array_store roomy_array [10; 20; 30]
              list_123_store list_123 [2; 3; 4]%positive [1; 2; 3]
              1%nat 1%nat 9 roomy_array_repr)
    as [(ha' & A1 & A2 & _) (p & old & hl' & L1 & _ & L0 & L3 & L2 & _)].
  - by vm_compute.
  - exact list_123_repr.
  - by vm_compute.
  - split.
    + exists ha'. split; [exact A1|exact A2].
    + injection L0 as <-.
      exists p, hl'. split_and!; [exact L1|exact L3|exact L2].
Defined.


(** * Further properties of the sequences *)

(** X4: the size-and-value constructor, for a size whose double is a
    [size_t]: the sequence holds [size] copies of value, so get returns
    value at every index below size and throws at size; the buffer is newly
    allocated and nothing that was allocated is touched. *)
Theorem X4_fill_constructor {T} (fresh_slot : nat → T)
    (h : gmap positive (list T)) (n : nat) value :
  2 * n ≤ SizeT.SIZE_MAX →
  ∃ this h',
    ArrayList.ctor fresh_slot n value h = Ret this h'
    ∧ ArrayList.size this = n
    ∧ ArrayList.repr h' this (replicate n value)
    ∧ (∀ i : nat, (i < n)%nat → ArrayList.get this i h' = Ret value h')
    ∧ ArrayList.get this n h' = Throw (out_of_range (pretty (Z.of_nat n))) h'
    ∧ h !! ArrayList.mArray this = None
    ∧ (∀ p, is_Some (h !! p) → h' !! p = h !! p).
Proof.
  intros Hfit.
  destruct (al_ctor_spec fresh_slot h n value Hfit)
    as (this & h' & Hrun & Hrepr & Hsize & _ & Hnew & Hframe).
  exists this, h'. split_and!; try done.
  - intros i Hi. apply (al_get_spec _ _ _ _ _ Hrepr).
    by apply lookup_replicate_2.
  - unfold ArrayList.get, bind.
    rewrite al_rangeCheck_ge; [done|]. lia.
Qed.

Lemma X4_fill_constructor_witness :
  ∃ this h',
    ArrayList.ctor fresh_slot 3 9 full_array_store = Ret this h'
    ∧ ArrayList.repr h' this [9; 9; 9]
    ∧ ArrayList.get this 2 h' = Ret 9 h'
    ∧ ArrayList.get this 3 h' = Throw (out_of_range "3") h'.
Proof.
  destruct (X4_fill_constructor fresh_slot full_array_store 3%nat 9)
    as (this & h' & H1 & _ & H2 & H3 & H4 & _).
  - by vm_compute.
  - exists this, h'.
    split_and!; [exact H1|exact H2|apply (H3 2%nat); lia|exact H4].
Defined.

(** X5: a default-constructed sequence of either kind is empty: its size is
    0, isEmpty() holds and get throws at every index; the array form has
    capacity 0, and in the linked form begin() is end(). *)
Theorem X5_default_constructed_empty {T} (value_type : T)
    (fresh_slot : nat → T) (ha : gmap positive (list T))
    (hl : gmap positive (LinkedList.LinkedListNode (T:=T))) :
  (∃ a ha',
     ArrayList.default_ctor value_type fresh_slot ha = Ret a ha'
     ∧ ArrayList.repr ha' a []
     ∧ ArrayList.size a = 0 ∧ ArrayList.mCapacity a = 0
     ∧ ArrayList.isEmpty a = true
     ∧ ∀ index, 0 ≤ index →
         ArrayList.get a index ha' = Throw (out_of_range (pretty index)) ha')
  ∧ (∃ l hl',
       LinkedList.default_ctor value_type hl = Ret l hl'
       ∧ LinkedList.repr hl' l [] []
       ∧ LinkedList.size l = 0
       ∧ LinkedList.isEmpty l = true
       ∧ LinkedList.begin l hl' = Ret (LinkedList.end_ l) hl'
       ∧ ∀ index, 0 ≤ index →
           LinkedList.get l index hl' = Throw (out_of_range (pretty index)) hl').
Proof.
  split.
  - destruct (al_ctor_spec fresh_slot ha 0 value_type)
      as (a & ha' & Hrun & Hrepr & Hsize & Hcap & _).
    { by vm_compute. }
    exists a, ha'. unfold ArrayList.size, ArrayList.isEmpty.
    split_and!; try done.
    + by rewrite Hsize.
    + intros index Hindex. unfold ArrayList.get, bind.
      rewrite al_rangeCheck_ge; [done|]. lia.
  - destruct (ll_default_ctor_spec value_type hl)
      as (t & hl' & Hrun & _ & Hring & _).
    eexists _, hl'. split; [exact Hrun|].
    split_and!; try done.
    + apply (ll_begin_spec hl' (LinkedList.mkLinkedList 0 t) [] [] Hring).
    + intros index Hindex. unfold LinkedList.get, bind.
      rewrite ll_rangeCheck_ge; [done|]. cbn. lia.
Qed.

(** X6: operator== of either sequence returns true exactly when both hold
    the same elements in the same order, whatever their capacities or
    nodes; operator!= returns the opposite; neither changes the store. For
    the linked form the fuel bounds the walk of [std::equal]. *)
Theorem X6_equality {T} `{EqDecision T} (fuel : nat)
    (ha : gmap positive (list T)) (a b : ArrayList.ArrayList) (xs ys : list T)
    (hl : gmap positive (LinkedList.LinkedListNode (T:=T)))
    (la lb : LinkedList.LinkedList) (ps qs : list positive) (us vs : list T) :
  ArrayList.repr ha a xs → ArrayList.repr ha b ys →
  LinkedList.repr hl la ps us → LinkedList.repr hl lb qs vs →
  (length ps ≤ fuel)%nat →
  ArrayList.equal a b ha = Ret (bool_decide (xs = ys)) ha
  ∧ ArrayList.not_equal a b ha = Ret (negb (bool_decide (xs = ys))) ha
  ∧ LinkedList.equal fuel la lb hl = Ret (bool_decide (us = vs)) hl
  ∧ LinkedList.not_equal fuel la lb hl = Ret (negb (bool_decide (us = vs))) hl.
Proof.
  intros Ha Hb Hla Hlb Hfuel.
  pose proof (al_equal_spec ha a b xs ys Ha Hb) as Ea.
  pose proof (ll_equal_spec fuel hl la lb ps us qs vs Hla Hlb Hfuel) as El.
  unfold ArrayList.not_equal, LinkedList.not_equal.
  rewrite (bind_Ret _ _ _ _ _ Ea), (bind_Ret _ _ _ _ _ El). done.
Qed.

Lemma X6_equality_witness :
  ArrayList.equal full_array full_array full_array_store
    = Ret true full_array_store
  ∧ ArrayList.not_equal full_array full_array full_array_store
    = Ret false full_array_store
  ∧ LinkedList.equal 3 list_123 list_123 list_123_store
    = Ret true list_123_store
  ∧ LinkedList.not_equal 3 list_123 list_123 list_123_store
    = Ret false list_123_store.
Proof.
  exact (X6_equality 3 full_array_store full_array full_array
           [10; 20; 30; 40] [10; 20; 30; 40]
           list_123_store list_123 list_123 [2; 3; 4]%positive
           [2; 3; 4]%positive [1; 2; 3] [1; 2; 3]
           full_array_repr full_array_repr list_123_repr list_123_repr
           (le_n 3)).
Defined.

(** X7: operator[] of the array sequence checks nothing: at every slot of
    the buffer, also one at or past size(), it returns what the slot holds
    and throws nothing (get throws from size() on); below size() it agrees
    with get; from the capacity on it is undefined. *)
Theorem X7_unchecked_subscript {T} (h : gmap positive (list T))
    (this : ArrayList.ArrayList) (xs buf : list T) :
  ArrayList.repr h this xs →
  h !! ArrayList.mArray this = Some buf →
  (∀ (i : nat) x, buf !! i = Some x → ArrayList.subscript this i h = Ret x h)
  ∧ (∀ (i : nat) x, xs !! i = Some x →
       ArrayList.subscript this i h = Ret x h
       ∧ ArrayList.get this i h = Ret x h)
  ∧ (∀ (i : nat) x, (length xs ≤ i)%nat → buf !! i = Some x →
       ArrayList.subscript this i h = Ret x h
       ∧ ArrayList.get this i h = Throw (out_of_range (pretty (Z.of_nat i))) h)
  ∧ (∀ index, ArrayList.mCapacity this ≤ index →
       ArrayList.subscript this index h = Undefined).
Proof.
  intros Hrepr Hbuf.
  pose proof Hrepr as (rest & Hbuf' & Hsize & Hcap & _).
  assert (buf = xs ++ rest) as -> by congruence.
  assert (∀ (i : nat) x, (xs ++ rest) !! i = Some x →
            ArrayList.subscript this i h = Ret x h) as Hsub.
  { intros i x Hi. unfold ArrayList.subscript, ArrayList.read.
    rewrite Hbuf, bool_decide_eq_true_2 by lia.
    by rewrite Nat2Z.id, Hi. }
  split_and!.
  - done.
  - intros i x Hi. split.
    + apply Hsub. by apply lookup_app_l_Some.
    + by apply (al_get_spec _ _ _ _ _ Hrepr).
  - intros i x Hge Hi. split; [by apply Hsub|].
    unfold ArrayList.get, bind. rewrite al_rangeCheck_ge; [done|]. lia.
  - intros index Hindex. unfold ArrayList.subscript, ArrayList.read.
    rewrite Hbuf. case_bool_decide; [|done].
    rewrite lookup_ge_None_2; [done|]. lia.
Qed.

Lemma X7_unchecked_subscript_witness :
  ArrayList.subscript roomy_array 1 roomy_array_store = Ret 20 roomy_array_store
  ∧ ArrayList.subscript roomy_array 4 roomy_array_store
    = Ret 7 roomy_array_store
  ∧ ArrayList.get roomy_array 4 roomy_array_store
    = Throw (out_of_range "4") roomy_array_store
  ∧ ArrayList.subscript roomy_array 6 roomy_array_store = Undefined.
Proof.
  destruct (X7_unchecked_subscript roomy_array_store roomy_array [10; 20; 30]
              [10; 20; 30; 7; 7; 7] roomy_array_repr eq_refl)
    as (H1 & _ & H2 & H3).
  split_and!.
  - exact (H1 1%nat 20 eq_refl).
  - exact (H1 4%nat 7 eq_refl).
  - refine (proj2 (H2 4%nat 7 _ eq_refl)). simpl. lia.
  - apply H3. by vm_compute.
Defined.

(** ** What the array sequence allocates and releases *)

Section array_store.
Context {T : Type} (value_type : T) (fresh_slot : nat → T).
Import ArrayList.
Implicit Types (h : gmap positive (list T)) (this : ArrayList).

(** What the primitives do to the store. *)
Lemma al_new_array_inv n h p h' :
  new_array fresh_slot n h = Ret p h' →
  h !! p = None ∧ ∃ buf, h' = <[p := buf]> h.
Proof.
  rewrite al_new_array_eq. intros [= <- <-].
  split; [apply al_fresh_lookup|eauto].
Qed.

Lemma al_delete_array_inv p h h' :
  delete_array p h = Ret () h' → is_Some (h !! p) ∧ h' = delete p h.
Proof.
  unfold delete_array. destruct (h !! p) eqn:E; [|done].
  intros [= <-]. eauto.
Qed.

Lemma al_write_inv p index v h h' :
  write p index v h = Ret () h' →
  is_Some (h !! p) ∧ ∃ buf, h' = <[p := buf]> h.
Proof.
  unfold write. destruct (h !! p) eqn:E; [|done].
  case_bool_decide; [|done]. intros [= <-]. eauto.
Qed.

Lemma al_read_inv p index h x h' : read p index h = Ret x h' → h' = h.
Proof.
  unfold read. destruct (h !! p); [|done].
  case_bool_decide; [|done]. destruct (_ !! _); [|done]. by intros [= _ <-].
Qed.

Lemma al_deref_inv value h v h' : deref value h = Ret v h' → h' = h.
Proof.
  destruct value; cbn [deref]; [by intros [_ <-]%ret_inv|apply al_read_inv].
Qed.

Lemma al_std_copy_inv first last d_first h h' :
  std_copy first last d_first h = Ret () h' →
  p_array first ≠ p_array d_first
  ∧ is_Some (h !! p_array first)
  ∧ is_Some (h !! p_array d_first)
  ∧ ∃ buf, h' = <[p_array d_first := buf]> h.
Proof.
  unfold std_copy.
  destruct (h !! p_array first) eqn:E1; [|done].
  destruct (h !! p_array d_first) eqn:E2; [|done].
  case_bool_decide as Hc; [|done]. intros [= <-].
  destruct Hc as (_ & Hne & _). eauto 10.
Qed.

Lemma al_std_fill_inv first last v h h' :
  std_fill first last v h = Ret () h' →
  is_Some (h !! p_array first) ∧ ∃ buf, h' = <[p_array first := buf]> h.
Proof.
  unfold std_fill. destruct (h !! p_array first) eqn:E; [|done].
  case_bool_decide; [|done]. intros [= <-]. eauto.
Qed.

Lemma al_rangeCheck_inv this index h h' :
  rangeCheck this index h = Ret () h' → h' = h.
Proof. unfold rangeCheck. case_bool_decide; [done|]. by intros [= <-]. Qed.

Ltac step H :=
  let a := fresh "a" in let s := fresh "h" in let E := fresh "E" in
  apply bind_Ret_inv in H as (a & s & E & H).

Ltac prim :=
  repeat match goal with
    | u : () |- _ => destruct u
    | H : new_array _ _ _ = Ret _ _ |- _ =>
        apply al_new_array_inv in H as (? & ? & ->)
    | H : delete_array _ _ = Ret _ _ |- _ =>
        apply al_delete_array_inv in H as (? & ->)
    | H : write _ _ _ _ = Ret _ _ |- _ =>
        apply al_write_inv in H as (? & ? & ->)
    | H : read _ _ _ = Ret _ _ |- _ => apply al_read_inv in H as ->
    | H : deref _ _ = Ret _ _ |- _ => apply al_deref_inv in H as ->
    | H : std_copy _ _ _ _ = Ret _ _ |- _ =>
        apply al_std_copy_inv in H as (? & ? & ? & ? & ->)
    | H : std_fill _ _ _ _ = Ret _ _ |- _ =>
        apply al_std_fill_inv in H as (? & ? & ->)
    | H : rangeCheck _ _ _ = Ret _ _ |- _ => apply al_rangeCheck_inv in H as ->
    | H : ret _ _ = Ret _ _ |- _ => apply ret_inv in H as [? ?]; subst
    end.

Ltac same_rest :=
  apply map_eq; intros q;
  repeat match goal with
         | |- context [delete ?p _] =>
             lazymatch goal with
             | _ : q = p |- _ => fail
             | _ : q ≠ p |- _ => fail
             | _ => destruct (decide (q = p))
             end
         end;
  simplify_map_eq; try done.

Lemma al_ctor_rest n v h this h' :
  ctor fresh_slot n v h = Ret this h' →
  delete (mArray this) h' = h ∧ is_Some (h' !! mArray this).
Proof.
  intros Hrun. unfold ctor in Hrun.
  step Hrun. step Hrun. prim. cbn [mArray begin p_array] in *.
  split; [|by simplify_map_eq].
  rewrite insert_insert_eq, delete_insert_eq. by apply delete_id.
Qed.

Lemma al_add_rest this v h this' h' :
  is_Some (h !! mArray this) →
  add fresh_slot this v h = Ret this' h' →
  delete (mArray this') h' = delete (mArray this) h
  ∧ is_Some (h' !! mArray this').
Proof.
  intros Hown Hrun. unfold add in Hrun. step Hrun.
  case_bool_decide.
  - do 3 step E. do 2 step Hrun. prim.
    cbn [mArray mSize mCapacity begin get_ptr p_array] in *.
    split; [same_rest|by simplify_map_eq].
  - do 2 step Hrun. prim. cbn [mArray] in *.
    split; [same_rest|by simplify_map_eq].
Qed.

Lemma al_add_at_rest this index v h this' h' :
  is_Some (h !! mArray this) →
  add_at value_type fresh_slot this index v h = Ret this' h' →
  delete (mArray this') h' = delete (mArray this) h
  ∧ is_Some (h' !! mArray this').
Proof.
  intros Hown Hrun. unfold add_at in Hrun.
  do 5 step Hrun.
  case_bool_decide; prim;
    cbn [mArray begin get_ptr ptr_plus iter_plus p_array] in *;
    (split; [same_rest|by simplify_map_eq]).
Qed.

Lemma al_set_rest this index v h this' h' :
  set this index v h = Ret this' h' →
  delete (mArray this') h' = delete (mArray this) h
  ∧ is_Some (h' !! mArray this').
Proof.
  intros Hrun. unfold set in Hrun. do 2 step Hrun. prim.
  split; [same_rest|by simplify_map_eq].
Qed.

Lemma al_remove_rest this index h x this' h' :
  remove fresh_slot this index h = Ret (x, this') h' →
  delete (mArray this') h' = delete (mArray this) h
  ∧ is_Some (h' !! mArray this').
Proof.
  intros Hrun. unfold remove in Hrun. do 3 step Hrun. destruct a.
  assert (is_Some (h !! mArray this)) as Hown.
  { unfold read in E0. apply al_rangeCheck_inv in E as ->.
    destruct (h !! mArray this); [eauto|done]. }
  case_bool_decide.
  - do 4 step E1. prim. simplify_eq/=.
    cbn [mArray begin get_ptr ptr_plus iter_plus p_array] in *.
    split; [same_rest|by simplify_map_eq].
  - prim. simplify_eq/=. done.
Qed.

Lemma al_clear_rest this h this' h' :
  is_Some (h !! mArray this) →
  clear value_type fresh_slot this h = Ret this' h' →
  delete (mArray this') h' = delete (mArray this) h
  ∧ is_Some (h' !! mArray this').
Proof.
  intros Hown Hrun. unfold clear in Hrun.
  apply bind_Ret_inv in Hrun as (empty & h1 & Hctor & Hrun).
  destruct (al_ctor_rest _ _ _ _ _ Hctor) as [Hrest Hnew].
  assert (mArray empty ≠ mArray this) as Hne.
  { intros Heq. rewrite <- Hrest, Heq, lookup_delete_eq in Hown.
    by destruct Hown. }
  unfold swap, dtor in Hrun.
  apply bind_Ret_inv in Hrun as ([] & h2 & E & Hrun).
  apply al_delete_array_inv in E as (_ & ->).
  apply ret_inv in Hrun as [<- <-].
  split.
  - rewrite <- Hrest. same_rest.
  - by rewrite lookup_delete_ne.
Qed.

Lemma al_mutate_rest m this h this' h' :
  is_Some (h !! mArray this) →
  mutate value_type fresh_slot m this h = Ret this' h' →
  delete (mArray this') h' = delete (mArray this) h
  ∧ is_Some (h' !! mArray this').
Proof.
  intros Hown Hrun. destruct m; cbn [mutate] in Hrun.
  - by eapply al_add_rest.
  - by eapply al_add_at_rest.
  - by eapply al_set_rest.
  - apply bind_Ret_inv in Hrun as ([x a] & h1 & Hrem & Hrun).
    apply ret_inv in Hrun as [<- <-]. by eapply al_remove_rest.
  - by eapply al_clear_rest.
Qed.

Lemma al_mutate_all_rest ms this h this' h' :
  is_Some (h !! mArray this) →
  mutate_all value_type fresh_slot ms this h = Ret this' h' →
  delete (mArray this') h' = delete (mArray this) h
  ∧ is_Some (h' !! mArray this').
Proof.
  revert this h. induction ms as [|m ms IH]; intros this h Hown Hrun.
  - simpl in Hrun. unfold ret in Hrun. by simplify_eq.
  - cbn [mutate_all] in Hrun. step Hrun.
    destruct (al_mutate_rest _ _ _ _ _ Hown E) as [Hrest Hown1].
    destruct (IH _ _ Hown1 Hrun) as [Hrest' Hown'].
    split; [congruence|done].
Qed.

Lemma al_assign_new this rhs h this' h' :
  mArray this ≠ mArray rhs →
  assign fresh_slot this rhs h = Ret this' h' →
  h !! mArray this' = None.
Proof.
  intros Hne Hrun. unfold assign in Hrun.
  rewrite bool_decide_eq_true_2 in Hrun by done.
  apply bind_Ret_inv in Hrun as (copy & h1 & Hcopy & Hrun).
  unfold swap in Hrun. step Hrun. apply ret_inv in Hrun as [<- _].
  unfold copy_ctor in Hcopy. do 2 step Hcopy.
  apply al_new_array_inv in E0 as [Hnew _].
  by apply ret_inv in Hcopy as [<- _].
Qed.

Lemma al_remove_branch this index h x this' h' :
  remove fresh_slot this index h = Ret (x, this') h' →
  if bool_decide (index < SizeT.sub (mSize this) 1)
  then h !! mArray this' = None
  else mArray this' = mArray this ∧ h' = h.
Proof.
  intros Hrun. unfold remove in Hrun. do 3 step Hrun. destruct a.
  apply al_rangeCheck_inv in E as ->. apply al_read_inv in E0 as ->.
  case_bool_decide.
  - do 4 step E1. prim. by simplify_eq/=.
  - prim. by simplify_eq/=.
Qed.

End array_store.

(** X8: with excess capacity add(value) writes the value that its
    argument refers to, be it an element of the sequence itself, into slot
    size() of the buffer it has and increments the size: no buffer is
    allocated or released, the capacity stays, and no other slot or array
    changes. *)
Theorem X8_add_in_place {T} (fresh_slot : nat → T)
    (h : gmap positive (list T)) (this : ArrayList.ArrayList)
    (xs buf : list T) value v :
  ArrayList.repr h this xs →
  h !! ArrayList.mArray this = Some buf →
  ArrayList.size this < ArrayList.mCapacity this →
  ArrayList.deref value h = Ret v h →
  ArrayList.add fresh_slot this value h
  = Ret (ArrayList.mkArrayList (ArrayList.size this + 1)
           (ArrayList.mCapacity this) (ArrayList.mArray this))
        (<[ArrayList.mArray this := <[length xs := v]> buf]> h).
Proof.
  intros (rest & Hbuf & Hsize & Hcap & Hmax) Hbuf' Hroom Hread.
  unfold ArrayList.size in *.
  assert (buf = xs ++ rest) as -> by congruence.
  unfold ArrayList.add.
  rewrite bool_decide_eq_false_2 by lia.
  erewrite bind_Ret by reflexivity.
  erewrite bind_Ret by exact Hread.
  rewrite Hsize at 1.
  erewrite bind_Ret by (apply al_write_eq; [done|lia]).
  unfold ret, SizeT.add. rewrite wrap_small by lia. done.
Qed.

Lemma X8_add_in_place_witness :
  ArrayList.add fresh_slot roomy_array (ArrayList.Slot 1 1) roomy_array_store
  = Ret (ArrayList.mkArrayList 4 6 1) {[1%positive := [10; 20; 30; 20; 7; 7]]}.
Proof.
  etrans.
  - apply (X8_add_in_place fresh_slot roomy_array_store roomy_array
             [10; 20; 30] [10; 20; 30; 7; 7; 7] (ArrayList.Slot 1 1) 20
             roomy_array_repr eq_refl).
    + by vm_compute.
    + reflexivity.
  - by vm_compute.
Defined.

(** X9: remove(index) never changes the capacity, and afterwards the
    sequence holds the elements it held, in order, without the one removed.
    Removing the last element touches no storage at all: the buffer and the
    whole store stay as they are and only the size drops. Removing any
    other element moves the remaining ones into a newly allocated buffer
    and releases the old one; this is stated for the calls in which neither
    the elements before the index nor those after it are more than
    [INT_MAX]. Either way nothing but the sequence's own buffer differs
    afterwards. *)
Theorem X9_remove_storage {T} (fresh_slot : nat → T)
    (h : gmap positive (list T)) (this : ArrayList.ArrayList)
    (xs : list T) (i : nat) x :
  ArrayList.repr h this xs → xs !! i = Some x →
  (i + 1 < ArrayList.size this →
   i ≤ INT_MAX ∧ ArrayList.size this - (i + 1) ≤ INT_MAX) →
  ∃ this' h',
    ArrayList.remove fresh_slot this i h = Ret (x, this') h'
    ∧ ArrayList.repr h' this' (delete i xs)
    ∧ ArrayList.mCapacity this' = ArrayList.mCapacity this
    ∧ (i + 1 = ArrayList.size this →
         ArrayList.mArray this' = ArrayList.mArray this ∧ h' = h)
    ∧ (i + 1 < ArrayList.size this →
         h !! ArrayList.mArray this' = None
         ∧ h' !! ArrayList.mArray this = None)
    ∧ delete (ArrayList.mArray this') h' = delete (ArrayList.mArray this) h.
Proof.
  intros Hrepr Hx Hint. unfold ArrayList.size in *.
  pose proof Hrepr as (rest & Hbuf & Hsize & Hcap & Hmax).
  pose proof (lookup_lt_Some _ _ _ Hx) as Hi.
  rewrite length_app in Hcap.
  destruct (al_remove_spec fresh_slot h this xs i x Hrepr Hx)
    as (this' & h' & Hrun & Hrepr' & _ & Hsame & _); [lia|].
  destruct (al_remove_rest _ _ _ _ _ _ _ Hrun) as [Hrest _].
  pose proof (al_remove_branch _ _ _ _ _ _ _ Hrun) as Hbranch.
  assert (SizeT.sub (ArrayList.mSize this) 1 = ArrayList.mSize this - 1) as Hsub.
  { unfold SizeT.sub. apply wrap_small. lia. }
  rewrite Hsub in Hbranch.
  exists this', h'. split_and!; try done.
  - intros Hlast. rewrite bool_decide_eq_false_2 in Hbranch by lia. done.
  - intros Hinner. rewrite bool_decide_eq_true_2 in Hbranch by lia.
    split; [done|].
    assert (ArrayList.mArray this ≠ ArrayList.mArray this') as Hne.
    { intros Heq. rewrite <- Heq, Hbuf in Hbranch. done. }
    apply (f_equal (.!! ArrayList.mArray this)) in Hrest.
    by rewrite lookup_delete_ne, lookup_delete_eq in Hrest.
Qed.

Lemma X9_remove_storage_witness :
  (∃ this',
     ArrayList.remove fresh_slot roomy_array 2 roomy_array_store
       = Ret (30, this') roomy_array_store
     ∧ ArrayList.repr roomy_array_store this' [10; 20]
     ∧ ArrayList.mCapacity this' = 6
     ∧ ArrayList.mArray this' = ArrayList.mArray roomy_array)
  ∧ (∃ this' h',
       ArrayList.remove fresh_slot roomy_array 0 roomy_array_store
         = Ret (10, this') h'
       ∧ ArrayList.repr h' this' [20; 30]
       ∧ ArrayList.mCapacity this' = 6
       ∧ h' !! ArrayList.mArray roomy_array = None).
Proof.
  split.
  - destruct (X9_remove_storage fresh_slot roomy_array_store roomy_array
                [10; 20; 30] 2%nat 30 roomy_array_repr eq_refl)
      as (this' & h' & H1 & H0 & H2 & H3 & _); [by vm_compute|].
    destruct H3 as [H3 ->]; [by vm_compute|].
    exists this'. split_and!; [exact H1|exact H0|exact H2|exact H3].
  - destruct (X9_remove_storage fresh_slot roomy_array_store roomy_array
                [10; 20; 30] 0%nat 10 roomy_array_repr eq_refl)
      as (this' & h' & H1 & H0 & H2 & _ & H3 & _); [by vm_compute|].
    destruct H3 as [_ H3]; [by vm_compute|].
    exists this', h'. split_and!; [exact H1|exact H0|exact H2|exact H3].
Defined.

(** X10: an array sequence leaks nothing and frees nothing of others:
    constructing it, making any calls to add, add(index), set, remove and
    clear that return, and destroying it leaves the free store exactly as it
    was before the constructor. *)
Theorem X10_array_no_leak {T} (value_type : T) (fresh_slot : nat → T)
    (h : gmap positive (list T)) n value ms a h1 a' h2 :
  ArrayList.ctor fresh_slot n value h = Ret a h1 →
  ArrayList.mutate_all value_type fresh_slot ms a h1 = Ret a' h2 →
  ArrayList.dtor a' h2 = Ret () h.
Proof.
  intros Hctor Hrun.
  destruct (al_ctor_rest _ _ _ _ _ _ Hctor) as [Hrest Hown].
  destruct (al_mutate_all_rest _ _ _ _ _ _ _ Hown Hrun) as [Hrest' [buf Hbuf]].
  unfold ArrayList.dtor. erewrite al_delete_array_eq by done.
  by rewrite Hrest', Hrest.
Qed.

Lemma X10_array_no_leak_witness :
  ∃ a h1 a' h2,
    ArrayList.ctor fresh_slot 2 5 full_array_store = Ret a h1
    ∧ ArrayList.mutate_all 0 fresh_slot
        [ArrayList.CallAdd (ArrayList.Slot 2 0); ArrayList.CallAddAt 5 2;
         ArrayList.CallRemove 0; ArrayList.CallSet 1 8; ArrayList.CallClear;
         ArrayList.CallAdd (ArrayList.Val 3)]
        a h1 = Ret a' h2
    ∧ ArrayList.dtor a' h2 = Ret () full_array_store.
Proof.
  eexists _, _, _, _.
  assert (∀ P Q R : Prop, P → Q → (P → Q → R) → P ∧ Q ∧ R) as Hand by tauto.
  apply Hand.
  - vm_compute. reflexivity.
  - vm_compute. reflexivity.
  - apply X10_array_no_leak.
Defined.

(** ** The linked sequence: destructor and traversal *)

Lemma hd_drop_lookup {A} (l : list A) (k : nat) (d : A) :
  hd d (drop k l) = default d (l !! k).
Proof.
  revert k. induction l as [|a l IH]; intros [|k]; simpl; done.
Qed.

(** X11: the destructor of a well-formed linked sequence returns, having
    freed the dummy node and every node of the sequence, and leaves every
    other cell of the free store as it was, allocated or not. *)
Theorem X11_linked_destructor {T}
    (h : gmap positive (LinkedList.LinkedListNode (T:=T)))
    (this : LinkedList.LinkedList) (ps : list positive) (xs : list T) :
  LinkedList.repr h this ps xs →
  ∃ h',
    LinkedList.dtor this h = Ret () h'
    ∧ (∀ x, x ∈ LinkedList.mTail this :: ps → h' !! x = None)
    ∧ (∀ x, x ∉ LinkedList.mTail this :: ps → h' !! x = h !! x).
Proof.
  intros (Hring & Hsize & Hmax).
  destruct (ll_dtor_spec this h ps xs Hring)
    as (h' & Hrun & Htail & Hnodes & Hframe & Hnone); [lia..|].
  exists h'. split_and!; [done| |].
  - intros x [->|Hx]%elem_of_cons; [done|].
    apply Hnodes. rewrite take_ge; [done|]. lia.
  - intros x Hx. destruct (h !! x) eqn:E.
    + rewrite <- E. apply Hframe; [done|by rewrite E].
    + by apply Hnone.
Qed.

Lemma X11_linked_destructor_witness :
  LinkedList.dtor list_123 list_123_store = Ret () ∅.
Proof.
  destruct (X11_linked_destructor list_123_store list_123
              [2; 3; 4]%positive [1; 2; 3] list_123_repr)
    as (h' & Hrun & _).
  rewrite Hrun. by vm_compute.
Defined.

(** X12: walking a linked sequence. begin() is the first node, or end()
    exactly when the sequence is empty; [std::advance] by i from begin()
    arrives at the node of element i, whose dereference is that element and
    whose increment is the node of element i+1, or end() after the last one;
    advancing by size() arrives at end(); and incrementing end() leads back
    to begin(): the chain is circular through the dummy node. *)
Theorem X12_linked_traversal {T}
    (h : gmap positive (LinkedList.LinkedListNode (T:=T)))
    (this : LinkedList.LinkedList) (ps : list positive) (xs : list T) :
  LinkedList.repr h this ps xs →
  ∃ first,
    LinkedList.begin this h = Ret first h
    ∧ (first = LinkedList.end_ this ↔ xs = [])
    ∧ (∀ (i : nat) x, xs !! i = Some x →
         ∃ p, ps !! i = Some p
           ∧ LinkedList.advance first i h = Ret p h
           ∧ LinkedList.iter_deref p h = Ret x h
           ∧ LinkedList.iter_incr p h
             = Ret (default (LinkedList.end_ this) (ps !! S i)) h)
    ∧ LinkedList.advance first (LinkedList.size this) h
      = Ret (LinkedList.end_ this) h
    ∧ LinkedList.iter_incr (LinkedList.end_ this) h = Ret first h.
Proof.
  intros (Hring & Hsize & Hmax).
  pose proof (ll_ring_length _ _ _ _ Hring) as Hlen.
  pose proof Hring as (Hnd & Hchain & Hitems).
  unfold LinkedList.end_, LinkedList.size.
  exists (hd (LinkedList.mTail this) ps). split_and!.
  - by apply (ll_begin_spec _ _ _ xs).
  - split.
    + intros Hhd. destruct ps as [|p ps']; [by destruct xs|].
      simpl in Hhd. subst p. apply NoDup_cons in Hnd as [Hnd _].
      exfalso. apply Hnd. left.
    + intros ->. by destruct ps.
  - intros i x Hx.
    destruct (ll_ring_lookup _ _ _ _ i Hring) as (p & x' & Hp & Hx').
    { apply lookup_lt_Some in Hx. lia. }
    assert (x' = x) as -> by congruence.
    destruct (ll_ring_node_at _ _ _ _ _ _ Hring Hp) as (n & Hn & _ & Hnext & _).
    destruct (ll_ring_item _ _ _ _ _ _ _ Hring Hp Hx) as (n' & Hn' & Hitem).
    assert (n' = n) as -> by congruence.
    exists p. split_and!; [done|by eapply ll_advance_spec|..].
    + unfold LinkedList.iter_deref.
      erewrite bind_Ret by (by apply ll_load_eq). by rewrite Hitem.
    + unfold LinkedList.iter_incr.
      erewrite bind_Ret by (by apply ll_load_eq). rewrite Hnext.
      by rewrite hd_drop_lookup.
  - unfold LinkedList.advance. rewrite Hsize, Nat2Z.id.
    apply (ll_advance_loop_spec h
             (LinkedList.mTail this :: ps ++ [LinkedList.mTail this])
             (length ps) 1); [done|..].
    + simpl. by destruct ps.
    + replace (1 + length ps)%nat with (S (length ps + 0)) by lia.
      simpl. by rewrite lookup_app_r, Nat.add_0_r, Nat.sub_diag by lia.
  - destruct (ll_tail_load _ _ _ _ Hring) as (n & Hn & _ & Hnext).
    unfold LinkedList.iter_incr.
    erewrite bind_Ret by (by apply ll_load_eq). by rewrite Hnext.
Qed.

Lemma X12_linked_traversal_witness :
  LinkedList.begin list_123 list_123_store = Ret 2%positive list_123_store
  ∧ LinkedList.advance 2%positive 1 list_123_store
    = Ret 3%positive list_123_store
  ∧ LinkedList.iter_deref 3%positive list_123_store = Ret 2 list_123_store
  ∧ LinkedList.advance 2%positive 3 list_123_store
    = Ret 1%positive list_123_store
  ∧ LinkedList.iter_incr 1%positive list_123_store
    = Ret 2%positive list_123_store.
Proof.
  destruct (X12_linked_traversal list_123_store list_123
              [2; 3; 4]%positive [1; 2; 3] list_123_repr)
    as (first & Hbegin & _ & Hwalk & Hend & Hcirc).
  assert (first = 2%positive) as ->.
  { vm_compute in Hbegin. by injection Hbegin as ->. }
  destruct (Hwalk 1%nat 2 eq_refl) as (p & Hp & Hadv & Hderef & _).
  injection Hp as <-.
  split_and!; [exact Hbegin|exact Hadv|exact Hderef|exact Hend|exact Hcirc].
Defined.

(** ** ScopedArray *)

(** X13: a [ScopedArray] owns the array it holds. reset(q) deletes the
    array held and holds q from then on; the destructor deletes what is
    held, and nothing when that is null; release hands the array over, so
    that the destructor afterwards leaves it allocated. There is no guard
    against resetting to the array already held: after reset(get()) the
    object holds a deleted array and its destructor deletes it a second
    time. *)
Theorem X13_scoped_array_ownership {T} (h : gmap positive (list T))
    (p : positive) (buf : list T) (q : option positive) :
  h !! p = Some buf →
  let this := ScopedArray.ctor (Some p) in
  ScopedArray.reset this q h = Ret (ScopedArray.ctor q) (delete p h)
  ∧ ScopedArray.dtor this h = Ret () (delete p h)
  ∧ ScopedArray.dtor (ScopedArray.ctor None) h = Ret () h
  ∧ ScopedArray.release this = (Some p, ScopedArray.ctor None)
  ∧ ScopedArray.dtor (snd (ScopedArray.release this)) h = Ret () h
  ∧ (do this' <- ScopedArray.reset this (ScopedArray.get this);
     ScopedArray.dtor this') h = Undefined.
Proof.
  intros Hbuf this.
  assert (ArrayList.delete_array p h = Ret () (delete p h)) as Hdel.
  { unfold ArrayList.delete_array. by rewrite Hbuf. }
  unfold ScopedArray.reset, ScopedArray.dtor, ScopedArray.release,
    ScopedArray.get, ScopedArray.delete_ptr, this. cbn.
  split_and!; try done.
  - by erewrite bind_Ret by exact Hdel.
  - erewrite bind_Ret; last by erewrite bind_Ret by exact Hdel.
    cbn. unfold ArrayList.delete_array. by rewrite lookup_delete_eq.
Qed.

Lemma X13_scoped_array_ownership_witness :
  ScopedArray.reset (ScopedArray.ctor (Some 1%positive)) None full_array_store
    = Ret (ScopedArray.ctor None) ∅
  ∧ (do this' <- ScopedArray.reset (ScopedArray.ctor (Some 1%positive))
                   (Some 1%positive);
     ScopedArray.dtor this') full_array_store = Undefined.
Proof.
  destruct (X13_scoped_array_ownership full_array_store 1%positive
              [10; 20; 30; 40] None eq_refl) as (H1 & _).
  destruct (X13_scoped_array_ownership full_array_store 1%positive
              [10; 20; 30; 40] (Some 1%positive) eq_refl)
    as (_ & _ & _ & _ & _ & H2).
  split; [|exact H2].
  etrans; [exact H1|]. by vm_compute.
Defined.

(** ** Assignment *)

(** X14: operator= of either sequence, to a target that is another object
    than the source, releases all storage the target had (its buffer; its
    nodes and dummy), builds the copy in newly allocated storage and leaves
    everything else, the source included, as it was; the array copy has no
    excess capacity. An array source is assumed to hold at most [INT_MAX]
    elements. Assigning a sequence to itself does nothing. *)
Theorem X14_assignment_storage {T} (value_type : T) (fresh_slot : nat → T)
    (fuel : nat)
    (ha : gmap positive (list T)) (ta sa : ArrayList.ArrayList)
    (zs xs : list T)
    (hl : gmap positive (LinkedList.LinkedListNode (T:=T)))
    (tl sl : LinkedList.LinkedList) (ps0 ps : list positive)
    (us ys : list T) :
  ArrayList.repr ha ta zs → ArrayList.repr ha sa xs →
  ArrayList.mArray ta ≠ ArrayList.mArray sa →
  length xs ≤ INT_MAX →
  LinkedList.repr hl tl ps0 us → LinkedList.repr hl sl ps ys →
  (∀ x, x ∈ LinkedList.mTail tl :: ps0 → x ∉ LinkedList.mTail sl :: ps) →
  (length ps ≤ fuel)%nat →
  (∃ ta' ha',
     ArrayList.assign fresh_slot ta sa ha = Ret ta' ha'
     ∧ ArrayList.repr ha' ta' xs
     ∧ ArrayList.mCapacity ta' = ArrayList.size sa
     ∧ ha' !! ArrayList.mArray ta = None
     ∧ ha !! ArrayList.mArray ta' = None
     ∧ (∀ p, p ≠ ArrayList.mArray ta → is_Some (ha !! p) → ha' !! p = ha !! p))
  ∧ ArrayList.assign fresh_slot sa sa ha = Ret sa ha
  ∧ (∃ tl' qs hl',
       LinkedList.assign value_type fuel tl sl hl = Ret tl' hl'
       ∧ LinkedList.repr hl' tl' qs ys
       ∧ (∀ x, x ∈ LinkedList.mTail tl :: ps0 → hl' !! x = None)
       ∧ (∀ x, x ∈ LinkedList.mTail tl' :: qs → hl !! x = None)
       ∧ (∀ x, x ∉ LinkedList.mTail tl :: ps0 → is_Some (hl !! x) →
            hl' !! x = hl !! x))
  ∧ LinkedList.assign value_type fuel sl sl hl = Ret sl hl.
Proof.
  intros Hta Hsa Hne Hint Htl Hsl Hdisj Hfuel. split_and!.
  - destruct (al_assign_spec fresh_slot ha ta sa zs xs Hta Hsa Hne Hint)
      as (ta' & ha' & Hrun & Hta' & _ & Hcap & _ & Hold & Hframe).
    exists ta', ha'. split_and!; try done.
    by apply (al_assign_new fresh_slot ta sa ha ta' ha').
  - unfold ArrayList.assign. by rewrite bool_decide_eq_false_2 by naive_solver.
  - destruct (ll_assign_spec value_type fuel hl tl sl ps0 us ps ys
                Htl Hsl Hdisj Hfuel)
      as (tl' & qs & hl' & Hrun & Htl' & _ & Hnew & Hold & Hframe).
    by exists tl', qs, hl'.
  - unfold LinkedList.assign. by rewrite bool_decide_eq_false_2 by naive_solver.
Qed.

Lemma X14_assignment_storage_witness :
  (∃ ta' ha',
     ArrayList.assign fresh_slot roomy_array (ArrayList.mkArrayList 4 4 2)
       (<[2%positive := [10; 20; 30; 40]]> roomy_array_store) = Ret ta' ha'
     ∧ ArrayList.mCapacity ta' = 4
     ∧ ha' !! 1%positive = None)
  ∧ (∃ tl' qs hl',
       LinkedList.assign 0 3 (LinkedList.mkLinkedList 0 9) list_123
         (<[9%positive := LinkedList.mkNode 0 9%positive 9%positive]>
            list_123_store) = Ret tl' hl'
       ∧ LinkedList.repr hl' tl' qs [1; 2; 3]
       ∧ hl' !! 9%positive = None).
Proof.
  destruct (X14_assignment_storage 0 fresh_slot 3
              (<[2%positive := [10; 20; 30; 40]]> roomy_array_store)
              roomy_array (ArrayList.mkArrayList 4 4 2)
              [10; 20; 30] [10; 20; 30; 40]
              (<[9%positive := LinkedList.mkNode 0 9%positive 9%positive]>
                 list_123_store)
              (LinkedList.mkLinkedList 0 9) list_123 [] [2; 3; 4]%positive
              [] [1; 2; 3])
    as ((ta' & ha' & A1 & _ & A2 & A3 & _) & _
        & (tl' & qs & hl' & L1 & L2 & L3 & _) & _).
  - exists [7; 7; 7]. by vm_compute.
  - exists []. by vm_compute.
  - done.
  - by vm_compute.
  - split_and!; [|done|done].
    split_and!; [|by vm_compute|constructor].
    apply (bool_decide_unpack (NoDup _)). by vm_compute.
  - split_and!; [|done|done].
    split_and!; [|by vm_compute|by repeat constructor].
    apply (bool_decide_unpack (NoDup _)). by vm_compute.
  - intros x ->%list_elem_of_singleton.
    rewrite !elem_of_cons, elem_of_nil. intuition discriminate.
  - simpl. lia.
  - split.
    + exists ta', ha'. split_and!; [exact A1|exact A2|exact A3].
    + exists tl', qs, hl'. split_and!; [exact L1|exact L2|].
      apply L3. left.
Defined.

(** ** The two sequences side by side *)

Section agreement.
Context {T : Type} (value_type : T) (fresh_slot : nat → T).
Implicit Types (ha : gmap positive (list T))
  (hl : gmap positive (LinkedList.LinkedListNode (T:=T)))
  (a : ArrayList.ArrayList) (l : LinkedList.LinkedList)
  (m : LinkedList.mutation (T:=T)).

(** One call, made on an array sequence and on a linked sequence that hold
    the same elements. *)
Lemma agree_step m a ha l hl ps xs :
  ArrayList.repr ha a xs → LinkedList.repr hl l ps xs →
  0 ≤ LinkedList.call_index m ≤ INT_MAX → length xs < INT_MAX →
  (∃ a' ha' l' hl' ps' zs,
     ArrayList.mutate value_type fresh_slot (same_call m) a ha = Ret a' ha'
     ∧ LinkedList.mutate value_type m l hl = Ret l' hl'
     ∧ ArrayList.repr ha' a' zs ∧ LinkedList.repr hl' l' ps' zs
     ∧ length zs ≤ Z.max (length xs) (LinkedList.call_index m) + 1)
  ∨ (∃ e,
       ArrayList.mutate value_type fresh_slot (same_call m) a ha = Throw e ha
       ∧ LinkedList.mutate value_type m l hl = Throw e hl).
Proof.
  intros Ha Hl Hidx Hlen.
  pose proof Ha as (rest & Hbuf & Hasize & Hcap & Hamax).
  pose proof Hl as (Hring & Hlsize & Hlmax).
  pose proof (ll_ring_length _ _ _ _ Hring) as Hps.
  assert (0 < INT_MAX ∧ 4 * (INT_MAX + 1) ≤ SizeT.SIZE_MAX) as Hint by done.
  assert (∀ n, 0 ≤ n < SizeT.SIZE_MAX → SizeT.add n 1 = n + 1) as Hadd.
  { intros n Hn. unfold SizeT.add. apply wrap_small. lia. }
  assert (∀ n, 0 < n ≤ SizeT.SIZE_MAX → SizeT.sub n 1 = n - 1) as Hsub.
  { intros n Hn. unfold SizeT.sub. apply wrap_small. lia. }
  destruct m as [v|index v|index v|index|]; cbn [LinkedList.call_index] in Hidx;
    cbn [ArrayList.mutate LinkedList.mutate same_call LinkedList.call_index].
  - (* add *)
    left.
    destruct (al_add_spec fresh_slot ha a xs (ArrayList.Val v) v Ha eq_refl)
      as (a' & ha' & Hrun & Hrepr & _); [intros _; split_and!; [lia|lia|exact I]|].
    destruct (ll_add_spec hl l ps xs v Hring)
      as (p & hl' & Hrunl & _ & Hring' & _).
    rewrite Hadd in Hrunl by lia.
    eexists a', ha', _, hl', (ps ++ [p]), (xs ++ [v]).
    split_and!; [done|exact Hrunl|done| |].
    + split_and!; cbn; [done|rewrite length_app; simpl; lia|lia].
    + rewrite length_app. simpl. lia.
  - (* add(index, value) *)
    left. set (i := Z.to_nat index).
    assert (index = Z.of_nat i) as Hi by lia. rewrite Hi.
    destruct (al_add_at_spec value_type fresh_slot ha a xs i v Ha)
      as (a' & ha' & Hrun & Hrepr & _); [lia..|].
    destruct (decide (i < length xs)%nat) as [Hlt|Hge].
    + destruct (ll_add_at_lt_spec value_type hl l ps xs i v Hring)
        as (p & hl' & Hrunl & _ & Hring' & _); [lia..|].
      rewrite Hadd in Hrunl by lia.
      replace (i - length xs)%nat with 0%nat in Hrepr by lia.
      eexists a', ha', _, hl', _, _.
      split_and!; [done|exact Hrunl|exact Hrepr| |].
      * split_and!; cbn; [done| |lia].
        rewrite length_app, length_take, length_cons, length_drop. lia.
      * rewrite length_app, length_take. simpl. rewrite length_drop. lia.
    + destruct (ll_add_at_ge_spec value_type hl l ps xs i v Hring)
        as (qs & hl' & Hrunl & Hring' & Hqs & _); [lia..|].
      rewrite Hadd in Hrunl by lia.
      rewrite take_ge, drop_ge in Hrepr by lia.
      replace (Z.to_nat (i - LinkedList.mSize l)) with (i - length xs)%nat
        in Hring', Hqs by lia.
      eexists a', ha', _, hl', _, _.
      split_and!; [done|exact Hrunl|exact Hrepr| |].
      * split_and!; cbn; [done| |lia]. rewrite length_app, Hqs. lia.
      * rewrite !length_app, length_replicate. simpl. lia.
  - (* set *)
    destruct (decide (index < length xs)) as [Hlt|Hge].
    + left. set (i := Z.to_nat index).
      assert (index = Z.of_nat i) as Hi by lia. rewrite Hi.
      destruct (al_set_spec ha a xs i v Ha) as (ha' & Hrun & Hrepr & _); [lia|].
      destruct (ll_set_spec hl l ps xs i v Hring)
        as (p & hl' & Hrunl & _ & Hring' & _); [lia..|].
      eexists a, ha', l, hl', _, _.
      split_and!; [done|done|exact Hrepr| |].
      * split_and!; [done| |done]. rewrite length_insert. lia.
      * rewrite length_insert. lia.
    + right. exists (out_of_range (pretty index)).
      unfold ArrayList.set, LinkedList.set, bind.
      rewrite al_rangeCheck_ge, ll_rangeCheck_ge by lia. done.
  - (* remove *)
    destruct (decide (index < length xs)) as [Hlt|Hge].
    + left. set (i := Z.to_nat index).
      assert (index = Z.of_nat i) as Hi by lia. rewrite Hi.
      destruct (ll_ring_lookup _ _ _ _ i Hring) as (p0 & x & _ & Hx); [lia|].
      destruct (al_remove_spec fresh_slot ha a xs i x Ha Hx)
        as (a' & ha' & Hrun & Hrepr & _); [lia|].
      destruct (ll_remove_spec hl l ps xs i Hring)
        as (p & hl' & Hrunl & _ & _ & Hring' & _); [lia..|].
      rewrite Hsub in Hrunl by lia.
      eexists a', ha', _, hl', _, _.
      split_and!; [by erewrite bind_Ret by exact Hrun|exact Hrunl|exact Hrepr| |].
      * split_and!; cbn; [done| |lia].
        rewrite length_delete by (apply lookup_lt_is_Some; lia). lia.
      * rewrite length_delete by eauto. lia.
    + right. exists (out_of_range (pretty index)).
      unfold ArrayList.remove, LinkedList.remove, bind.
      rewrite al_rangeCheck_ge, ll_rangeCheck_ge by lia. done.
  - (* clear *)
    left.
    destruct (al_clear_spec value_type fresh_slot ha a)
      as (a' & h0 & _ & Hrun & Hrepr & _); [by eexists|].
    destruct (ll_clear_spec value_type hl l ps xs Hring)
      as (t & h1 & hl' & _ & Hrunl & _ & Hring' & _); [lia..|].
    eexists a', _, _, hl', [], [].
    split_and!; [done|exact Hrunl|exact Hrepr|by split_and!|simpl; lia].
Qed.

End agreement.

(** X15: the two sequences implement one contract. Starting from an array
    sequence and a linked sequence that hold the same elements, the same
    calls to add, add(index), set, remove and clear, made in the same order
    on both with values that are objects of the caller's (no references to
    elements of the array sequence), either return on both, which then hold
    the same elements again, or stop on both with the same out_of_range.
    The sizes and indices involved are assumed to stay within [INT_MAX]. *)
Theorem X15_sequences_agree {T} (value_type : T) (fresh_slot : nat → T)
    (ms : list (LinkedList.mutation (T:=T)))
    (ha : gmap positive (list T)) (a : ArrayList.ArrayList)
    (hl : gmap positive (LinkedList.LinkedListNode (T:=T)))
    (l : LinkedList.LinkedList) (ps : list positive) (xs : list T)
    (bound : Z) :
  ArrayList.repr ha a xs → LinkedList.repr hl l ps xs →
  length xs ≤ bound →
  Forall (λ m, 0 ≤ LinkedList.call_index m ≤ bound) ms →
  bound + length ms ≤ INT_MAX →
  (∃ a' ha' l' hl' ps' zs,
     ArrayList.mutate_all value_type fresh_slot (same_call <$> ms) a ha
       = Ret a' ha'
     ∧ LinkedList.mutate_all value_type ms l hl = Ret l' hl'
     ∧ ArrayList.repr ha' a' zs ∧ LinkedList.repr hl' l' ps' zs)
  ∨ (∃ e ha' hl',
       ArrayList.mutate_all value_type fresh_slot (same_call <$> ms) a ha
         = Throw e ha'
       ∧ LinkedList.mutate_all value_type ms l hl = Throw e hl').
Proof.
  revert a ha l hl ps xs bound.
  induction ms as [|m ms IH]; intros a ha l hl ps xs bound Ha Hl Hlen Hidx Hfit.
  - left. by exists a, ha, l, hl, ps, xs.
  - apply Forall_cons in Hidx as [Hm Hms]. simpl in Hfit.
    cbn [fmap list_fmap ArrayList.mutate_all LinkedList.mutate_all].
    destruct (agree_step value_type fresh_slot m a ha l hl ps xs Ha Hl)
      as [(a1 & ha1 & l1 & hl1 & ps1 & zs1 & Hra & Hrl & Ha1 & Hl1 & Hlen1)
         |(e & Hta & Htl)]; [lia..| |].
    + destruct (IH a1 ha1 l1 hl1 ps1 zs1 (bound + 1) Ha1 Hl1)
        as [(a' & ha' & l' & hl' & ps' & zs & Hra' & Hrl' & Ha' & Hl')
           |(e & ha' & hl' & Hta & Htl)]; [lia| |lia| |].
      * eapply Forall_impl; [exact Hms|]. simpl. lia.
      * left. exists a', ha', l', hl', ps', zs.
        split_and!; [|  |done|done].
        -- by erewrite bind_Ret by exact Hra.
        -- by erewrite bind_Ret by exact Hrl.
      * right. exists e, ha', hl'. split.
        -- by erewrite bind_Ret by exact Hra.
        -- by erewrite bind_Ret by exact Hrl.
    + right. exists e, ha, hl. unfold bind. by rewrite Hta, Htl.
Qed.

Lemma X15_sequences_agree_witness :
  (∃ a' ha' l' hl' ps' zs,
     ArrayList.mutate_all 0 fresh_slot
       [ArrayList.CallAdd (ArrayList.Val 1); ArrayList.CallAddAt 3 7;
        ArrayList.CallRemove 0; ArrayList.CallSet 1 9; ArrayList.CallAddAt 1 4]
       empty_array empty_array_store = Ret a' ha'
     ∧ LinkedList.mutate_all 0
         [LinkedList.CallAdd 1; LinkedList.CallAddAt 3 7;
          LinkedList.CallRemove 0; LinkedList.CallSet 1 9;
          LinkedList.CallAddAt 1 4]
         empty_list empty_list_store = Ret l' hl'
     ∧ ArrayList.repr ha' a' zs ∧ LinkedList.repr hl' l' ps' zs)
  ∧ (∃ e ha' hl',
       ArrayList.mutate_all 0 fresh_slot
         [ArrayList.CallAdd (ArrayList.Val 1); ArrayList.CallSet 5 2;
          ArrayList.CallAdd (ArrayList.Val 3)]
         empty_array empty_array_store = Throw e ha'
       ∧ LinkedList.mutate_all 0
           [LinkedList.CallAdd 1; LinkedList.CallSet 5 2; LinkedList.CallAdd 3]
           empty_list empty_list_store = Throw e hl').
Proof.
  split.
  - destruct (X15_sequences_agree 0 fresh_slot
                [LinkedList.CallAdd 1; LinkedList.CallAddAt 3 7;
                 LinkedList.CallRemove 0; LinkedList.CallSet 1 9;
                 LinkedList.CallAddAt 1 4]
                empty_array_store empty_array empty_list_store empty_list
                [] [] 3 empty_array_repr empty_list_repr)
      as [Hret|(e & ha' & hl' & Hthrow & _)].
    + by vm_compute.
    + repeat constructor; by vm_compute.
    + by vm_compute.
    + exact Hret.
    + vm_compute in Hthrow. discriminate.
  - destruct (X15_sequences_agree 0 fresh_slot
                [LinkedList.CallAdd 1; LinkedList.CallSet 5 2;
                 LinkedList.CallAdd 3]
                empty_array_store empty_array empty_list_store empty_list
                [] [] 5 empty_array_repr empty_list_repr)
      as [(a' & ha' & _ & _ & _ & _ & Hret & _)|Hthrow].
    + by vm_compute.
    + repeat constructor; by vm_compute.
    + by vm_compute.
    + vm_compute in Hret. discriminate.
    + exact Hthrow.
Defined.

(** ** What the linked sequence allocates and releases *)

Lemma elem_of_middle_NoDup {A} (l : list A) (i : nat) (q : A) :
  NoDup l → l !! i = Some q →
  (∀ x, x ∈ l ↔ (x ∈ take i l ∨ x = q ∨ x ∈ drop (S i) l))
  ∧ (q ∉ take i l) ∧ (q ∉ drop (S i) l).
Proof.
  intros Hnd Hq.
  pose proof (take_drop_middle l i q Hq) as Hmid.
  rewrite <- Hmid in Hnd.
  apply NoDup_app in Hnd as (_ & Hd1 & Hnd).
  apply NoDup_cons in Hnd as [Hd2 _].
  split_and!.
  - intros x. rewrite <- Hmid at 1. by rewrite elem_of_app, elem_of_cons.
  - intros Hin. apply (Hd1 q Hin). left.
  - done.
Qed.

Lemma elem_of_insert_NoDup {A} (l : list A) (i : nat) (p q : A) :
  NoDup l → l !! i = Some q →
  ∀ x, x ∈ <[i := p]> l ↔ x = p ∨ (x ∈ l ∧ x ≠ q).
Proof.
  intros Hnd Hq x.
  destruct (elem_of_middle_NoDup l i q Hnd Hq) as (Hl & H1 & H2).
  rewrite insert_take_drop by (by eapply lookup_lt_Some).
  rewrite elem_of_app, elem_of_cons, Hl. intuition congruence.
Qed.

Lemma elem_of_delete_NoDup {A} (l : list A) (i : nat) (q : A) :
  NoDup l → l !! i = Some q →
  ∀ x, x ∈ delete i l ↔ x ∈ l ∧ x ≠ q.
Proof.
  intros Hnd Hq x.
  destruct (elem_of_middle_NoDup l i q Hnd Hq) as (Hl & H1 & H2).
  rewrite delete_take_drop, elem_of_app, Hl. intuition congruence.
Qed.

Section linked_store.
Context {T : Type} (value_type : T).
Import LinkedList.
Implicit Types (h : gmap positive (LinkedListNode (T:=T)))
  (this : LinkedList) (ps qs : list positive) (xs : list T).

(** [x] is allocated after a step exactly when it was before. *)
Definition same_alloc h h' (x : positive) : Prop :=
  h' !! x = None ↔ h !! x = None.

Lemma same_alloc_refl h x : same_alloc h h x.
Proof. done. Qed.

Lemma same_alloc_trans h1 h2 h3 x :
  same_alloc h1 h2 x → same_alloc h2 h3 x → same_alloc h1 h3 x.
Proof. unfold same_alloc. tauto. Qed.

Lemma same_alloc_insert h p n n' x :
  h !! p = Some n → same_alloc h (<[p := n']> h) x.
Proof.
  intros Hp. unfold same_alloc. destruct (decide (x = p)) as [->|].
  - rewrite lookup_insert_eq, Hp. naive_solver.
  - by rewrite lookup_insert_ne.
Qed.

Ltac inv_bind H x s E :=
  apply bind_Ret_inv in H as (x & s & E & H).

Lemma ll_load_inv p h n h' : load p h = Ret n h' → h' = h ∧ h !! p = Some n.
Proof. unfold load. destruct (h !! p); [|done]. by intros [= <- <-]. Qed.

Lemma ll_link_inv a b h h' :
  link a b h = Ret () h' → ∀ x, same_alloc h h' x.
Proof.
  unfold link, set_mNext, set_mPrev. intros Hrun x.
  inv_bind Hrun u h1 E. destruct (h !! a) eqn:Ea; [|done].
  simplify_eq.
  destruct (_ !! b) eqn:Eb in Hrun; [|done]. simplify_eq.
  eapply same_alloc_trans; [by eapply same_alloc_insert|].
  by eapply same_alloc_insert.
Qed.

Lemma ll_alloc_inv (f : positive → LinkedListNode) h p h' :
  alloc f h = Ret p h' →
  h !! p = None ∧ h' !! p = Some (f p) ∧ ∀ x, x ≠ p → h' !! x = h !! x.
Proof.
  unfold alloc. intros [= <- <-]. split_and!.
  - apply ll_fresh_lookup.
  - by rewrite lookup_insert_eq.
  - intros x Hx. by rewrite lookup_insert_ne.
Qed.

Lemma ll_free_inv p h h' :
  free p h = Ret () h' → h' !! p = None ∧ ∀ x, x ≠ p → h' !! x = h !! x.
Proof.
  unfold free. destruct (h !! p); [|done]. intros [= <-]. split.
  - apply lookup_delete_eq.
  - intros x Hx. by rewrite lookup_delete_ne.
Qed.

Lemma ll_new_node_inv v a b h p h' :
  new_node v a b h = Ret p h' →
  h !! p = None ∧ ∀ x, x ≠ p → same_alloc h h' x.
Proof.
  unfold new_node. intros Hrun.
  inv_bind Hrun q h1 Ealloc. apply ll_alloc_inv in Ealloc as (Hq & _ & Hrest).
  inv_bind Hrun n h2 E1. apply ll_load_inv in E1 as [-> _].
  inv_bind Hrun u h3 E2. destruct u.
  inv_bind Hrun n' h4 E3. apply ll_load_inv in E3 as [-> _].
  inv_bind Hrun u h5 E4. destruct u.
  apply ret_inv in Hrun as [<- <-].
  split; [done|]. intros x Hx.
  eapply same_alloc_trans; [|by eapply ll_link_inv].
  eapply same_alloc_trans; [|by eapply ll_link_inv].
  unfold same_alloc. by rewrite Hrest.
Qed.

Lemma ll_new_node_self_inv v h t h' :
  new_node_self v h = Ret t h' →
  h !! t = None ∧ ∀ x, x ≠ t → h' !! x = h !! x.
Proof.
  unfold new_node_self. intros (? & _ & ?)%ll_alloc_inv. done.
Qed.

Lemma ll_delete_node_inv p h h' :
  delete_node p h = Ret () h' →
  h' !! p = None ∧ ∀ x, x ≠ p → same_alloc h h' x.
Proof.
  unfold delete_node. intros Hrun.
  inv_bind Hrun n h1 E1. apply ll_load_inv in E1 as [-> _].
  inv_bind Hrun u h2 E2. destruct u.
  apply ll_free_inv in Hrun as [Hp Hrest].
  split; [done|]. intros x Hx.
  eapply same_alloc_trans; [by eapply ll_link_inv|].
  unfold same_alloc. by rewrite Hrest.
Qed.

Lemma ll_begin_inv this h it h' : begin this h = Ret it h' → h' = h.
Proof.
  unfold begin. intros Hrun. inv_bind Hrun n h1 E.
  apply ll_load_inv in E as [-> _]. by apply ret_inv in Hrun as [_ <-].
Qed.

Lemma ll_advance_loop_inv n it h y h' :
  advance_loop n it h = Ret y h' → h' = h.
Proof.
  revert it h. induction n as [|n IH]; intros it h Hrun; simpl in Hrun.
  - by apply ret_inv in Hrun as [_ <-].
  - inv_bind Hrun nd h1 E. apply ll_load_inv in E as [-> _]. by eapply IH.
Qed.

Lemma ll_rangeCheck_inv this index h h' :
  rangeCheck this index h = Ret () h' → h' = h.
Proof. unfold rangeCheck. case_bool_decide; [done|]. by intros [= <-]. Qed.

(** The destructor only frees. *)
Lemma ll_dtor_loop_inv fuel this h this' h' :
  dtor_loop fuel this h = Ret this' h' →
  mTail this' = mTail this ∧ ∀ x, h !! x = None → h' !! x = None.
Proof.
  revert this h. induction fuel as [|fuel IH]; intros this h Hrun;
    simpl in Hrun; destruct (isEmpty this) eqn:Hemp.
  - by apply ret_inv in Hrun as [<- <-].
  - done.
  - by apply ret_inv in Hrun as [<- <-].
  - inv_bind Hrun it h1 E1. apply ll_begin_inv in E1 as ->.
    inv_bind Hrun this1 h2 E2. unfold removeNode in E2.
    inv_bind E2 u h3 E3. destruct u. apply ret_inv in E2 as [<- <-].
    apply ll_delete_node_inv in E3 as [Hit Hrest].
    destruct (IH _ _ Hrun) as [Htail Hnone]. split; [done|].
    intros x Hx. apply Hnone.
    destruct (decide (x = it)) as [->|Hne]; [done|]. by apply (Hrest x Hne).
Qed.

Lemma ll_dtor_inv this h h' :
  dtor this h = Ret () h' →
  h' !! mTail this = None ∧ ∀ x, h !! x = None → h' !! x = None.
Proof.
  unfold dtor. intros Hrun. inv_bind Hrun this1 h1 E.
  apply ll_dtor_loop_inv in E as [Htail Hnone].
  apply ll_delete_node_inv in Hrun as [Hfree Hrest]. rewrite Htail in *.
  split; [done|]. intros x Hx.
  destruct (decide (x = mTail this)) as [->|Hne]; [done|].
  apply (Hrest x Hne). by apply Hnone.
Qed.

(** What [add] allocates: one node. *)
Lemma ll_add_inv this v h this' h' :
  add this v h = Ret this' h' →
  mTail this' = mTail this
  ∧ ∃ p, h !! p = None ∧ ∀ x, x ≠ p → same_alloc h h' x.
Proof.
  unfold add. intros Hrun.
  inv_bind Hrun n h1 E1. apply ll_load_inv in E1 as [-> _].
  inv_bind Hrun p h2 E2. apply ret_inv in Hrun as [<- <-].
  split; [done|]. exists p. by apply ll_new_node_inv in E2.
Qed.

(** What the filling loop allocates: at most one node for each index from
    [i] up to [index]. *)
Lemma ll_fill_loop_inv fuel (i index : Z) temp h temp' h' :
  0 ≤ i → index ≤ SizeT.SIZE_MAX →
  fill_loop value_type fuel i index temp h = Ret temp' h' →
  mTail temp' = mTail temp
  ∧ ∃ new : list positive,
      (length new ≤ Z.to_nat (index - i))%nat
      ∧ ∀ x, x ∉ new → same_alloc h h' x.
Proof.
  revert i temp h. induction fuel as [|fuel IH]; intros i temp h Hi Hmax Hrun;
    simpl in Hrun; case_bool_decide as Hlt; try done.
  - apply ret_inv in Hrun as [<- <-].
    split; [done|]. exists []. split; [simpl; lia|done].
  - inv_bind Hrun temp1 h1 E.
    destruct (ll_add_inv _ _ _ _ _ E) as (Htail1 & p & _ & Hp).
    assert (SizeT.add i 1 = i + 1) as Hadd.
    { unfold SizeT.add. apply wrap_small. lia. }
    rewrite Hadd in Hrun.
    destruct (IH (i + 1) temp1 h1) as (Htail & new & Hlen & Hnew);
      [lia|done|done|].
    split; [congruence|].
    exists (p :: new). split; [simpl; lia|].
    intros x Hx. apply not_elem_of_cons in Hx as [Hxp Hxn].
    eapply same_alloc_trans; [by apply Hp|by apply Hnew].
  - apply ret_inv in Hrun as [<- <-].
    split; [done|]. exists []. split; [simpl; lia|done].
Qed.

(** What the other calls allocate and free. *)
Lemma ll_add_at_lt_inv this index v h this' h' :
  index < mSize this →
  add_at value_type this index v h = Ret this' h' →
  ∃ p, h !! p = None ∧ ∀ x, x ≠ p → same_alloc h h' x.
Proof.
  unfold add_at. intros Hlt Hrun.
  rewrite bool_decide_eq_true_2 in Hrun by done.
  inv_bind Hrun it h1 E1. apply ll_begin_inv in E1 as ->.
  inv_bind Hrun it' h2 E2. apply ll_advance_loop_inv in E2 as ->.
  inv_bind Hrun n h3 E3. apply ll_load_inv in E3 as [-> _].
  inv_bind Hrun p h4 E4. apply ret_inv in Hrun as [_ <-].
  exists p. by apply ll_new_node_inv in E4.
Qed.

Lemma ll_add_at_ge_inv this index v h this' h' :
  0 ≤ mSize this ≤ index → index ≤ SizeT.SIZE_MAX →
  add_at value_type this index v h = Ret this' h' →
  ∃ (t : positive) (new : list positive),
    h' !! t = None
    ∧ (length new ≤ S (Z.to_nat (index - mSize this)))%nat
    ∧ ∀ x, x ≠ t → x ∉ new → h !! x = None → h' !! x = None.
Proof.
  unfold add_at. intros Hge Hmax Hrun.
  rewrite bool_decide_eq_false_2 in Hrun by lia.
  inv_bind Hrun temp h1 E1. unfold default_ctor in E1.
  inv_bind E1 t h1' E1'. apply ret_inv in E1 as [<- <-].
  apply ll_new_node_self_inv in E1' as [Ht Hrest1].
  inv_bind Hrun temp2 h2 E2. unfold size in E2.
  apply ll_fill_loop_inv in E2 as (Htail2 & new & Hlen & Hnew); [|lia|done].
  inv_bind Hrun temp3 h3 E3.
  apply ll_add_inv in E3 as (Htail3 & p & _ & Hp).
  inv_bind Hrun n h4 E4. apply ll_load_inv in E4 as [-> _].
  inv_bind Hrun n' h5 E5. apply ll_load_inv in E5 as [-> _].
  inv_bind Hrun u h6 E6. destruct u.
  inv_bind Hrun u h7 E7. destruct u.
  inv_bind Hrun u h8 E8. destruct u.
  inv_bind Hrun u h9 E9. destruct u. apply ret_inv in Hrun as [_ <-].
  apply ll_dtor_inv in E9 as [Hfree Hnone]. cbn [mTail] in *.
  rewrite Htail3, Htail2 in Hfree. cbn [mTail] in Hfree.
  exists t, (new ++ [p]). split_and!.
  - done.
  - rewrite length_app. simpl. lia.
  - intros x Hxt Hx Hnonex.
    apply not_elem_of_app in Hx as [Hxn Hxp].
    apply Hnone.
    apply (ll_link_inv _ _ _ _ E8), (ll_link_inv _ _ _ _ E7),
      (ll_link_inv _ _ _ _ E6).
    apply Hp; [by intros ->; apply Hxp; left|].
    apply Hnew; [done|]. by rewrite Hrest1.
Qed.

Lemma ll_set_inv this index v h this' h' :
  set this index v h = Ret this' h' →
  ∃ it old p,
    begin this h = Ret it h ∧ advance it index h = Ret old h
    ∧ h !! p = None ∧ h' !! old = None
    ∧ ∀ x, x ≠ p → x ≠ old → same_alloc h h' x.
Proof.
  unfold set. intros Hrun.
  inv_bind Hrun u h1 E1. destruct u. apply ll_rangeCheck_inv in E1 as ->.
  inv_bind Hrun it h2 E2. pose proof (ll_begin_inv _ _ _ _ E2) as ->.
  inv_bind Hrun old h3 E3. pose proof (ll_advance_loop_inv _ _ _ _ _ E3) as ->.
  inv_bind Hrun n h4 E4. apply ll_load_inv in E4 as [-> _].
  inv_bind Hrun p h5 E5. apply ll_new_node_inv in E5 as [Hp Hrest5].
  inv_bind Hrun u h6 E6. destruct u.
  inv_bind Hrun u h7 E7. destruct u. apply ret_inv in Hrun as [_ <-].
  apply ll_delete_node_inv in E7 as [Hold Hrest7].
  exists it, old, p. split_and!; try done.
  intros x Hxp Hxo.
  eapply same_alloc_trans; [by apply Hrest5|].
  eapply same_alloc_trans; [by eapply ll_link_inv|by apply Hrest7].
Qed.

(** From the frame of a call, what it allocates and what it frees. *)
Lemma ll_handover_intro (F F' : list positive) h h' :
  unchanged_outside F h h' →
  (∀ x, x ∉ F' → h !! x = None → h' !! x = None) →
  (∀ x, x ∈ F → x ∉ F' → h' !! x = None) →
  (∀ x, x ∈ F' → x ∉ F → h !! x = None) →
  handover F F' h h'.
Proof.
  intros Hun Hnone Hfreed Hnew. split_and!; [|done..].
  intros x HF HF'. destruct (h !! x) eqn:E.
  - rewrite <- E. apply Hun; [done|by rewrite E].
  - by apply Hnone.
Qed.

Lemma ll_mutate_exact m this h ps xs this' h' :
  repr h this ps xs →
  mSize this < SizeT.SIZE_MAX →
  0 ≤ call_index m < SizeT.SIZE_MAX →
  mutate value_type m this h = Ret this' h' →
  ∃ ps' xs',
    repr h' this' ps' xs'
    ∧ handover (mTail this :: ps) (mTail this' :: ps') h h'
    ∧ length ps' ≤ Z.max (length ps) (call_index m) + 1.
Proof.
  intros (Hring & Hsize & Hmax) Hroom Hidx Hrun.
  pose proof (ll_ring_length _ _ _ _ Hring) as Hlen.
  assert (SizeT.add (mSize this) 1 = mSize this + 1) as Hadd.
  { unfold SizeT.add. apply wrap_small. lia. }
  assert (∀ x, x ∈ mTail this :: ps → is_Some (h !! x)) as Halloc.
  { intros x. apply (ll_ring_allocated _ _ _ _ _ Hring). }
  destruct m as [v|index v|index v|index|];
    cbn [mutate call_index] in Hrun, Hidx |- *.
  - (* add *)
    destruct (ll_add_spec h this ps xs v Hring)
      as (p & h0 & Hrun0 & Hp & Hring' & Hun & _).
    rewrite Hrun in Hrun0. injection Hrun0 as -> <-.
    destruct (ll_add_inv _ _ _ _ _ Hrun) as (_ & p1 & _ & Hp1).
    assert (p = p1) as <-.
    { destruct (decide (p = p1)) as [|Hne]; [done|].
      destruct (ll_ring_allocated _ _ _ _ p Hring') as [n Hn].
      { right. apply elem_of_app. right. left. }
      apply (Hp1 p Hne) in Hp. congruence. }
    exists (ps ++ [p]), (xs ++ [v]). rewrite Hadd. cbn [mTail]. split_and!.
    + split_and!; cbn; [done|rewrite length_app; simpl; lia|lia].
    + apply ll_handover_intro; [done|..].
      * intros x Hx Hnone. apply (Hp1 x); [|done].
        intros ->. apply Hx. right. apply elem_of_app. right. left.
      * intros x Hx Hx'. exfalso. apply Hx'.
        apply elem_of_cons in Hx as [->|Hx]; [left|right].
        apply elem_of_app. by left.
      * intros x Hx Hx'.
        apply elem_of_cons in Hx as [->|Hx]; [exfalso; apply Hx'; left|].
        apply elem_of_app in Hx as [Hx|Hx%list_elem_of_singleton];
          [exfalso; apply Hx'; by right|by subst].
    + rewrite length_app. simpl. lia.
  - (* add(index, value) *)
    set (i := Z.to_nat index). assert (index = Z.of_nat i) as Hi by lia.
    destruct (decide (index < mSize this)) as [Hlt|Hge].
    + rewrite Hi in Hrun, Hlt.
      destruct (ll_add_at_lt_spec value_type h this ps xs i v Hring)
        as (p & h0 & Hrun0 & Hp & Hring' & Hun & _); [lia..|].
      rewrite Hrun in Hrun0. injection Hrun0 as -> <-.
      destruct (ll_add_at_lt_inv _ _ _ _ _ _ Hlt Hrun) as (p1 & _ & Hp1).
      assert (∀ x, x ∈ take i ps ++ p :: drop i ps ↔ x = p ∨ x ∈ ps) as Hmem.
      { intros x. rewrite <- (take_drop i ps) at 3.
        rewrite !elem_of_app, elem_of_cons. tauto. }
      assert (p = p1) as <-.
      { destruct (decide (p = p1)) as [|Hne]; [done|].
        destruct (ll_ring_allocated _ _ _ _ p Hring') as [n Hn].
        { right. apply Hmem. by left. }
        apply (Hp1 p Hne) in Hp. congruence. }
      eexists _, _. rewrite Hadd. cbn [mTail]. split_and!.
      * split_and!; cbn; [exact Hring'| |lia].
        rewrite length_app, length_take, length_cons, length_drop. lia.
      * apply ll_handover_intro; [done|..].
        -- intros x Hx Hnone. apply (Hp1 x); [|done].
           intros ->. apply Hx. right. apply Hmem. by left.
        -- intros x Hx Hx'. exfalso. apply Hx'.
           apply elem_of_cons in Hx as [->|Hx]; [left|right].
           apply Hmem. by right.
        -- intros x Hx Hx'.
           apply elem_of_cons in Hx as [->|Hx]; [exfalso; apply Hx'; left|].
           apply Hmem in Hx as [->|Hx]; [done|exfalso; apply Hx'; by right].
      * rewrite length_app, length_take, length_cons, length_drop. lia.
    + destruct (ll_add_at_ge_spec value_type h this ps xs index v Hring)
        as (qs & h0 & Hrun0 & Hring' & Hqs & Hfresh & Hun); [lia..|].
      rewrite Hrun in Hrun0. injection Hrun0 as -> <-.
      edestruct ll_add_at_ge_inv as (t & new & Ht & Hnewlen & Hnone);
        [| |exact Hrun|]; [lia..|].
      assert (∀ x, x ∈ qs → is_Some (h' !! x)) as Hqalloc.
      { intros x Hx. apply (ll_ring_allocated _ _ _ _ x Hring').
        right. apply elem_of_app. by right. }
      assert (∀ x, x ∈ qs → x ∈ new) as Hsub.
      { intros x Hx. destruct (Hqalloc x Hx) as [n Hn].
        destruct (decide (x = t)) as [->|Hxt]; [congruence|].
        destruct (decide (x ∈ new)) as [|Hxn]; [done|].
        rewrite (Hnone x Hxt Hxn (Hfresh x Hx)) in Hn. done. }
      assert (NoDup qs) as Hnd.
      { destruct Hring' as (Hnd' & _). apply NoDup_cons in Hnd' as [_ Hnd'].
        by apply NoDup_app in Hnd' as (_ & _ & ?). }
      assert (∀ x, x ∈ new → x ∈ qs) as Hsup.
      { intros x Hx.
        assert (qs ≡ₚ new) as Hperm.
        { apply submseteq_length_Permutation; [by apply NoDup_submseteq|lia]. }
        by rewrite Hperm. }
      rewrite (ll_add_1 index) by lia.
      eexists _, _. cbn [mTail]. split_and!.
      * split_and!; cbn; [exact Hring'| |lia]. rewrite length_app, Hqs. lia.
      * apply ll_handover_intro; [done|..].
        -- intros x Hx Hnonex.
           destruct (decide (x = t)) as [->|Hxt]; [done|].
           apply Hnone; [done| |done].
           intros Hxn. apply Hx. right. apply elem_of_app. right. by apply Hsup.
        -- intros x Hx Hx'. exfalso. apply Hx'.
           apply elem_of_cons in Hx as [->|Hx]; [left|right].
           apply elem_of_app. by left.
        -- intros x Hx Hx'.
           apply elem_of_cons in Hx as [->|Hx]; [exfalso; apply Hx'; left|].
           apply elem_of_app in Hx as [Hx|Hx];
             [exfalso; apply Hx'; by right|by apply Hfresh].
      * rewrite length_app, Hqs. lia.
  - (* set *)
    destruct (decide (index < mSize this)) as [Hlt|Hge]; last first.
    { unfold set, bind in Hrun. by rewrite ll_rangeCheck_ge in Hrun by lia. }
    set (i := Z.to_nat index). assert (index = Z.of_nat i) as Hi by lia.
    rewrite Hi in Hrun.
    destruct (ll_set_spec h this ps xs i v Hring)
      as (p & h0 & Hrun0 & Hp & Hring' & Hun & _); [lia..|].
    rewrite Hrun in Hrun0. injection Hrun0 as -> <-.
    destruct (ll_set_inv _ _ _ _ _ _ Hrun)
      as (it & old & p1 & Hbegin & Hadv & _ & Hold & Hrest).
    destruct (ll_ring_lookup _ _ _ _ i Hring) as (q & x & Hq & Hx); [lia|].
    rewrite (ll_begin_spec _ _ _ _ Hring) in Hbegin. injection Hbegin as <-.
    rewrite (ll_advance_spec _ _ _ _ _ _ Hring Hq) in Hadv.
    injection Hadv as <-.
    assert (∀ x, x ∈ <[i := p]> ps ↔ x = p ∨ (x ∈ ps ∧ x ≠ q)) as Hmem.
    { apply elem_of_insert_NoDup; [|done]. destruct Hring as (Hnd & _).
      by apply NoDup_cons in Hnd as [_ Hnd]. }
    assert (p = p1) as <-.
    { destruct (decide (p = p1)) as [|Hne]; [done|].
      destruct (ll_ring_allocated _ _ _ _ p Hring') as [n Hn].
      { right. apply Hmem. by left. }
      destruct (decide (p = q)) as [->|Hpq].
      - apply list_elem_of_lookup_2 in Hq.
        destruct (Halloc q) as [n' Hn']; [by right|]. congruence.
      - apply (Hrest p Hne Hpq) in Hp. congruence. }
    eexists _, _. split_and!.
    + split_and!; [exact Hring'| |done]. rewrite length_insert. lia.
    + apply ll_handover_intro; [done|..].
      * intros y Hy Hnone.
        destruct (decide (y = q)) as [->|Hyq]; [done|].
        apply (Hrest y); [|done|done].
        intros ->. apply Hy. right. apply Hmem. by left.
      * intros y Hy Hy'.
        apply elem_of_cons in Hy as [->|Hy]; [exfalso; apply Hy'; left|].
        destruct (decide (y = q)) as [->|Hyq]; [done|].
        exfalso. apply Hy'. right. apply Hmem. by right.
      * intros y Hy Hy'.
        apply elem_of_cons in Hy as [->|Hy]; [exfalso; apply Hy'; left|].
        apply Hmem in Hy as [->|[Hy _]]; [done|exfalso; apply Hy'; by right].
    + rewrite length_insert. lia.
  - (* remove *)
    destruct (decide (index < mSize this)) as [Hlt|Hge]; last first.
    { unfold remove, bind in Hrun. by rewrite ll_rangeCheck_ge in Hrun by lia. }
    set (i := Z.to_nat index). assert (index = Z.of_nat i) as Hi by lia.
    rewrite Hi in Hrun.
    destruct (ll_remove_spec h this ps xs i Hring)
      as (q & h0 & Hrun0 & Hq & Hfree & Hring' & Hun & Hnone); [lia..|].
    rewrite Hrun in Hrun0. injection Hrun0 as -> <-.
    assert (∀ x, x ∈ delete i ps ↔ x ∈ ps ∧ x ≠ q) as Hmem.
    { apply elem_of_delete_NoDup; [|done]. destruct Hring as (Hnd & _).
      by apply NoDup_cons in Hnd as [_ Hnd]. }
    rewrite (ll_sub_1 (mSize this)) by lia.
    eexists _, _. cbn [mTail]. split_and!.
    + split_and!; cbn; [exact Hring'| |lia].
      rewrite length_delete by (apply lookup_lt_is_Some; lia). lia.
    + apply ll_handover_intro; [done|..].
      * intros y _. apply Hnone.
      * intros y Hy Hy'.
        apply elem_of_cons in Hy as [->|Hy]; [exfalso; apply Hy'; left|].
        destruct (decide (y = q)) as [->|Hyq]; [done|].
        exfalso. apply Hy'. right. by apply Hmem.
      * intros y Hy Hy'. exfalso. apply Hy'.
        apply elem_of_cons in Hy as [->|Hy]; [left|right]. by apply Hmem.
    + rewrite length_delete by (apply lookup_lt_is_Some; lia). lia.
  - (* clear *)
    destruct (ll_clear_spec value_type h this ps xs Hring)
      as (t & h1 & h0 & Hctor & Hrun0 & Ht & Hring' & Hdtor & Htail & Hfreed
          & Hun); [lia..|].
    rewrite Hrun in Hrun0. injection Hrun0 as -> <-.
    unfold default_ctor in Hctor.
    apply bind_Ret_inv in Hctor as (t' & h1' & Hnew & Hret).
    apply ret_inv in Hret as [[= <-] <-].
    apply ll_new_node_self_inv in Hnew as [_ Hrest].
    apply ll_dtor_inv in Hdtor as [_ Hnone].
    exists [], []. cbn [mTail]. split_and!.
    + by split_and!.
    + apply ll_handover_intro; [done|..].
      * intros y Hy Hnoney. apply Hnone. rewrite Hrest; [done|].
        intros ->. apply Hy. left.
      * intros y Hy _.
        apply elem_of_cons in Hy as [->|Hy]; [done|].
        apply Hfreed. rewrite take_ge; [done|]. lia.
      * by intros y ->%list_elem_of_singleton _.
    + simpl. lia.
Qed.

Lemma ll_handover_trans (F F1 F2 : list positive) h h1 h2 :
  handover F F1 h h1 → handover F1 F2 h1 h2 → handover F F2 h h2.
Proof.
  intros (Ha1 & Ha2 & Ha3) (Hb1 & Hb2 & Hb3). split_and!.
  - intros x HF HF2. destruct (decide (x ∈ F1)) as [H1|H1].
    + by rewrite Hb2, Ha3.
    + by rewrite Hb1, Ha1.
  - intros x HF HF2. destruct (decide (x ∈ F1)) as [H1|H1].
    + by apply Hb2.
    + rewrite Hb1 by done. by apply Ha2.
  - intros x HF2 HF. destruct (decide (x ∈ F1)) as [H1|H1].
    + by apply Ha3.
    + rewrite <- Ha1 by done. by apply Hb3.
Qed.

Lemma ll_mutate_all_exact ms : ∀ this h ps xs (bound : Z) this' h',
  repr h this ps xs → length ps ≤ bound →
  Forall (λ m, 0 ≤ call_index m ≤ bound) ms →
  bound + length ms < SizeT.SIZE_MAX →
  mutate_all value_type ms this h = Ret this' h' →
  ∃ ps' xs',
    repr h' this' ps' xs'
    ∧ handover (mTail this :: ps) (mTail this' :: ps') h h'.
Proof.
  induction ms as [|m ms IH];
    intros this h ps xs bound this' h' Hrepr Hlen Hidx Hfit Hrun.
  - apply ret_inv in Hrun as [<- <-]. exists ps, xs. split; [done|].
    split_and!; [done|done..].
  - apply Forall_cons in Hidx as [Hm Hms]. simpl in Hfit.
    cbn [mutate_all] in Hrun.
    apply bind_Ret_inv in Hrun as (this1 & h1 & Hstep & Hrun).
    pose proof Hrepr as (_ & Hsize & _).
    destruct (ll_mutate_exact m this h ps xs this1 h1 Hrepr)
      as (ps1 & xs1 & Hrepr1 & Hover1 & Hlen1); [lia|lia|done|].
    destruct (IH this1 h1 ps1 xs1 (bound + 1) this' h' Hrepr1)
      as (ps' & xs' & Hrepr' & Hover'); [lia| |lia|done|].
    { eapply Forall_impl; [exact Hms|]. simpl. lia. }
    exists ps', xs'. split; [done|]. by eapply ll_handover_trans.
Qed.

End linked_store.

(** X16: what a call on a linked sequence does to the free store. For a
    well-formed sequence of fewer than [SIZE_MAX] elements and a call of
    add, add(index), set, remove or clear, with an index below [SIZE_MAX],
    that returns: the sequence is well formed again; every node that left it
    has been freed; every node that joined it is newly allocated; and every
    other cell of the store is as it was, whether allocated or not. *)
Theorem X16_linked_call_footprint {T} (value_type : T)
    (m : LinkedList.mutation (T:=T))
    (h : gmap positive (LinkedList.LinkedListNode (T:=T)))
    (this : LinkedList.LinkedList) (ps : list positive) (xs : list T)
    this' h' :
  LinkedList.repr h this ps xs →
  LinkedList.size this < SizeT.SIZE_MAX →
  0 ≤ LinkedList.call_index m < SizeT.SIZE_MAX →
  LinkedList.mutate value_type m this h = Ret this' h' →
  ∃ ps' xs',
    LinkedList.repr h' this' ps' xs'
    ∧ LinkedList.handover (LinkedList.mTail this :: ps)
        (LinkedList.mTail this' :: ps') h h'.
Proof.
  intros Hrepr Hsize Hidx Hrun.
  destruct (ll_mutate_exact value_type m this h ps xs this' h' Hrepr Hsize
              Hidx Hrun) as (ps' & xs' & Hrepr' & Hover & _).
  by exists ps', xs'.
Qed.

Lemma X16_linked_call_footprint_witness :
  ∃ this' h' ps' xs',
    LinkedList.mutate 0 (LinkedList.CallSet 1 9) list_123 list_123_store
      = Ret this' h'
    ∧ LinkedList.repr h' this' ps' xs'
    ∧ LinkedList.handover [1; 2; 3; 4]%positive
        (LinkedList.mTail this' :: ps') list_123_store h'.
Proof.
  assert (∃ this' h',
    LinkedList.mutate 0 (LinkedList.CallSet 1 9) list_123 list_123_store
      = Ret this' h') as (this' & h' & Hrun)
    by (eexists _, _; vm_compute; reflexivity).
  destruct (X16_linked_call_footprint 0 (LinkedList.CallSet 1 9)
              list_123_store list_123 [2; 3; 4]%positive [1; 2; 3] this' h'
              list_123_repr) as (ps' & xs' & Hrepr & Hover).
  - by vm_compute.
  - by vm_compute.
  - exact Hrun.
  - exists this', h', ps', xs'. split_and!; [exact Hrun|exact Hrepr|exact Hover].
Defined.

(** X17: a linked sequence leaks nothing and frees nothing of others:
    constructing it, making any calls to add, add(index), set, remove and
    clear that return, and destroying it leaves the free store exactly as it
    was before the constructor. The indices are bounded so that no size
    wraps around. *)
Theorem X17_linked_no_leak {T} (value_type : T)
    (h : gmap positive (LinkedList.LinkedListNode (T:=T)))
    (ms : list (LinkedList.mutation (T:=T))) a h1 a' h2 (bound : Z) :
  LinkedList.default_ctor value_type h = Ret a h1 →
  LinkedList.mutate_all value_type ms a h1 = Ret a' h2 →
  Forall (λ m, 0 ≤ LinkedList.call_index m ≤ bound) ms →
  0 ≤ bound →
  bound + length ms < SizeT.SIZE_MAX →
  LinkedList.dtor a' h2 = Ret () h.
Proof.
  intros Hctor Hrun Hidx Hbound Hfit.
  destruct (ll_default_ctor_spec value_type h)
    as (t & h0 & Hctor0 & Ht & Hring & Hsame).
  rewrite Hctor in Hctor0. injection Hctor0 as -> ->.
  unfold LinkedList.default_ctor in Hctor.
  apply bind_Ret_inv in Hctor as (t' & h1' & Hnew & Hret).
  apply ret_inv in Hret as [[= ->] ->].
  apply ll_new_node_self_inv in Hnew as [_ Hrest].
  destruct (ll_mutate_all_exact value_type ms (LinkedList.mkLinkedList 0 t)
              h0 [] [] bound a' h2)
    as (ps' & xs' & Hrepr' & Hover1 & Hover2 & Hover3);
    [by split_and!|simpl; lia|done|done|done|].
  pose proof Hrepr' as (Hring' & Hsize' & Hmax').
  destruct (ll_dtor_spec a' h2 ps' xs' Hring')
    as (h3 & Hdtor & Htail' & Hnodes & Hframe & Hnone); [lia..|].
  assert (Hfreed : ∀ x, x ∈ LinkedList.mTail a' :: ps' → h3 !! x = None).
  { intros x [->|Hx]%elem_of_cons; [done|].
    apply Hnodes. rewrite take_ge; [done|]. lia. }
  assert (Hkept : ∀ x, x ∉ LinkedList.mTail a' :: ps' → h3 !! x = h2 !! x).
  { intros x Hx. destruct (h2 !! x) eqn:E.
    - rewrite <- E. apply Hframe; [done|by rewrite E].
    - by apply Hnone. }
  rewrite Hdtor. f_equal. apply map_eq. intros x.
  destruct (decide (x ∈ LinkedList.mTail a' :: ps')) as [Hin|Hout].
  - rewrite (Hfreed x Hin).
    destruct (decide (x = t)) as [->|Hxt]; [done|].
    rewrite <- (Hrest x Hxt). symmetry. apply Hover3; [done|].
    by intros ?%list_elem_of_singleton.
  - rewrite (Hkept x Hout).
    destruct (decide (x = t)) as [->|Hxt].
    + rewrite Ht. apply Hover2; [left|done].
    + rewrite <- (Hrest x Hxt). apply Hover1; [|done].
      by intros ?%list_elem_of_singleton.
Qed.

Lemma X17_linked_no_leak_witness :
  ∃ a h1 a' h2,
    LinkedList.default_ctor 0 list_123_store = Ret a h1
    ∧ LinkedList.mutate_all 0
        [LinkedList.CallAdd 1; LinkedList.CallAddAt 3 2;
         LinkedList.CallRemove 0; LinkedList.CallSet 1 8;
         LinkedList.CallAddAt 1 6; LinkedList.CallClear; LinkedList.CallAdd 3]
        a h1 = Ret a' h2
    ∧ LinkedList.dtor a' h2 = Ret () list_123_store.
Proof.
  eexists _, _, _, _.
  assert (∀ P Q R : Prop, P → Q → (P → Q → R) → P ∧ Q ∧ R) as Hand by tauto.
  apply Hand.
  - vm_compute. reflexivity.
  - vm_compute. reflexivity.
  - intros Hctor Hrun.
    apply (X17_linked_no_leak 0 list_123_store _ _ _ _ _ 3 Hctor Hrun).
    + repeat constructor; by vm_compute.
    + done.
    + by vm_compute.
Defined.
